(** * Slashtag: identity, session lifecycle, connections, protocols, drives

    A shallow embedding of the [Slashtag] class of the slashtags SDK
    (the class with [ready], [listen], [connect], [protocol], [setProfile],
    [getProfile], [drive], [_setupDiscovery], [close], [_handleConnection]
    and [_setupProtocols]) and, in [Module Legacy], of the older
    [packages/slashtag/index.js] class.

    JavaScript objects are records; [HashMap]s are [gmap]s keyed by the
    bytes of the key; the insertion-ordered protocol [Map] is an association
    list.  Synchronous methods are state-and-error computations over a
    [World]; [async] methods are computations that run their synchronous
    prefix and then hand back a [Task] whose [Await] nodes are the
    suspension points of the source.  The collaborators that the source only
    calls (DHT, Hyperswarm, Corestore, SlashDrive, the event emitter) are a
    trace of calls plus the little state their results depend on.  The
    built-ins [JSON.stringify] and [JSON.parse] follow the language: strings
    are the bytes of their UTF-8 encoding, numbers are doubles.  In the older
    class the [async] teardown is a function resumed [await] by [await],
    between any other turns of the event loop. *)

From Stdlib Require Import ZArith NArith Strings.Ascii Strings.Byte Floats.SpecFloat.
From stdpp Require Import base option countable gmap strings pretty list.

Set Default Proof Using "Type".
Open Scope string_scope.

(** ** Bytes and keys *)

#[global] Instance byte_eq_dec : EqDecision byte := Byte.byte_eq_dec.
#[global] Instance byte_countable : Countable byte :=
  inj_countable Byte.to_N Byte.of_N Byte.of_to_N.

(** A key is a [Uint8Array]; [b4a.equals] and the hash maps compare contents. *)
Abbreviation Key := (list byte).

Definition b4a_equals (a b : Key) : bool := bool_decide (a = b).

(** [b4a.from(string)] and [b4a.toString(buffer)]. *)
Definition b4a_from (s : string) : list byte := String.list_byte_of_string s.
Definition b4a_toString (b : list byte) : string := String.string_of_list_byte b.

Definition hex_digit (n : N) : ascii :=
  match n with
  | 0 => "0" | 1 => "1" | 2 => "2" | 3 => "3" | 4 => "4" | 5 => "5"
  | 6 => "6" | 7 => "7" | 8 => "8" | 9 => "9" | 10 => "a" | 11 => "b"
  | 12 => "c" | 13 => "d" | 14 => "e" | _ => "f"
  end%N%char.

Definition hex_value (c : ascii) : option N :=
  let n := N_of_ascii c in
  if ((48 <=? n) && (n <=? 57))%N then Some (n - 48)%N
  else if ((97 <=? n) && (n <=? 102))%N then Some (n - 87)%N
  else None.

(** [b4a.toString(key, 'hex')]. *)
Fixpoint b4a_toHex (k : Key) : string :=
  match k with
  | [] => EmptyString
  | b :: k' =>
      let n := Byte.to_N b in
      String (hex_digit (n / 16)) (String (hex_digit (n mod 16)) (b4a_toHex k'))
  end.

Fixpoint b4a_fromHex (s : string) : option Key :=
  match s with
  | EmptyString => Some []
  | String hi (String lo s') =>
      match hex_value hi, hex_value lo, b4a_fromHex s' with
      | Some h, Some l, Some k =>
          match Byte.of_N (h * 16 + l) with
          | Some b => Some (b :: k)
          | None => None
          end
      | _, _, _ => None
      end
  | String _ EmptyString => None
  end.

(** ** Errors

    The source throws plain [Error]s told apart by their message. *)
Inductive Error : Type :=
| MissingKey        (* 'Missing keyPair or key' *)
| RemoteListen      (* 'Cannot listen on a remote slashtag' *)
| RemoteConnect     (* 'Cannot connect from a remote slashtag' *)
| RemoteProtocol    (* 'Cannot register protocol on a remote slashtag' *)
| ConnectSelf       (* 'Cannot connect to self' *)
| InvalidURL        (* thrown by the SlashURL constructor *)
| ConnectError      (* the awaited connection never opens *)
| DriveNotWritable  (* thrown by a read-only drive on put *)
| SyntaxError       (* thrown by JSON.parse *)
| TypeError         (* a property read on undefined *)
| RangeError.       (* call stack exhausted *)

Definition message (e : Error) : string :=
  match e with
  | MissingKey => "Missing keyPair or key"
  | RemoteListen => "Cannot listen on a remote slashtag"
  | RemoteConnect => "Cannot connect from a remote slashtag"
  | RemoteProtocol => "Cannot register protocol on a remote slashtag"
  | ConnectSelf => "Cannot connect to self"
  | InvalidURL => "Invalid slashtag url"
  | ConnectError => "Connection failed"
  | DriveNotWritable => "Drive is not writable"
  | SyntaxError => "Unexpected token in JSON"
  | TypeError => "Cannot read properties of undefined"
  | RangeError => "Maximum call stack size exceeded"
  end.

#[global] Instance Error_eq_dec : EqDecision Error.
Proof. solve_decision. Defined.

(** The spec's error taxonomy, read off the thrown errors. *)
Definition RemoteIdentityError (e : Error) : bool :=
  match e with RemoteListen | RemoteConnect | RemoteProtocol => true | _ => false end.
Definition InvalidIdentity (e : Error) : bool :=
  match e with MissingKey | InvalidURL => true | _ => false end.
Definition SelfConnectError (e : Error) : bool :=
  match e with ConnectSelf => true | _ => false end.

Inductive Result (A : Type) : Type :=
| Ok (a : A)
| Err (e : Error).
Arguments Ok {A} a.
Arguments Err {A} e.

(** ** Data model *)

Record KeyPair : Type := mkKeyPair { publicKey : Key; secretKey : Key }.

(** Modelled from the spec: the [SlashURL] class of [./url.js] is not part
    of the sources at hand.  The spec asks for a reversible text encoding of
    a public key whose parse gives back the key bytes; here the text is the
    scheme followed by the key in hex. *)
Record SlashURL : Type := mkSlashURL { slashtag_key : Key }.

Definition url_scheme : string := "slash://".

Fixpoint strip_prefix (p s : string) : option string :=
  match p, s with
  | EmptyString, _ => Some s
  | String a p', String b s' => if bool_decide (a = b) then strip_prefix p' s' else None
  | String _ _, EmptyString => None
  end.

(** [new SlashURL(string)]. *)
Definition SlashURL_parse (s : string) : Result SlashURL :=
  match strip_prefix url_scheme s with
  | Some rest =>
      match b4a_fromHex rest with
      | Some k => Ok (mkSlashURL k)
      | None => Err InvalidURL
      end
  | None => Err InvalidURL
  end.

(** [new SlashURL(key)] and [url.toString()]. *)
Definition SlashURL_of_key (k : Key) : SlashURL := mkSlashURL k.
Definition SlashURL_toString (u : SlashURL) : string :=
  url_scheme ++ b4a_toHex (slashtag_key u).

Record SwarmOpts : Type := mkSwarmOpts {
  relays : list string;
  bootstrap : list (string * nat)
}.

(** Modelled from the spec: the [SlashProtocol] class of [./protocol.js] is
    not part of the sources at hand.  The spec has a protocol descriptor
    carry a unique name, its instance be one object per name and identity,
    and a channel be created on every new connection. *)
Record ProtocolClass : Type := mkProtocolClass { protocol_name : string }.

(** A protocol instance, an object with an identity. *)
Record ProtocolInst : Type := mkProtocolInst { pi_id : nat; pi_name : string }.

(** The options of [drive(opts)]. *)
Record DriveOpts : Type := mkDriveOpts {
  do_name : option string;
  do_encrypted : bool;
  do_key : option Key;
  do_keyPair : option KeyPair;
  do_encryptionKey : option Key
}.

(** The object under study.  [swarm], [publicDrive] and the cached drives
    are references (object identities) into the world. *)
Record Slashtag : Type := mkSlashtag {
  keyPair : option KeyPair;
  remote : bool;
  url : SlashURL;
  key : Key;
  _swarmOpts : option SwarmOpts;
  store : Key;                                   (* store.namespace(this.key) *)
  _drives : gmap Key nat;
  _protocols : option (list (string * ProtocolInst));
  closed : bool;
  _ready : bool;
  swarm : option nat;
  publicDrive : option nat
}.

(** The options of the constructor. *)
Record Opts : Type := mkOpts {
  o_url : option string;
  o_key : option Key;
  o_keyPair : option KeyPair;
  o_store : bool;                                (* was a store passed in? *)
  o_protocols : option (list ProtocolClass);
  o_swarmOpts : option SwarmOpts
}.

Record PeerInfo : Type := mkPeerInfo {
  peer_publicKey : Key;
  peer_slashtag : option Slashtag
}.

(** A connection ([SecretStream]): an object with an identity. *)
Record Conn : Type := mkConn { conn_id : nat; remotePublicKey : Key }.

Record Connected : Type := mkConnected { connection : Conn; peerInfo : option PeerInfo }.

(** A [Hyperswarm] instance as far as the class looks into it. *)
Record Swarm : Type := mkSwarm {
  sw_dht : nat;
  sw_keyPair : option KeyPair;
  _allConnections : gmap Key Conn;
  peers : gmap string PeerInfo;
  sw_handlers : nat;                             (* 'connection' listeners *)
  sw_destroyed : bool
}.

(** Modelled from the spec: the drive collaborator is not part of the
    sources at hand.  The spec gives its interface ([ready], [get] to bytes
    or null, [put], [update], [findingPeers], the attributes [key] and
    [discoveryKey]); a handle is that much, and handles on one key share
    their content. *)
Record Drive : Type := mkDrive {
  drive_key : Key;
  discoveryKey : Key;
  writable : bool
}.

(** Calls made on the collaborators; the trace lists them oldest first.
    [EvEmitClose] records the [closed] flag the subscribers of ['close']
    find on the object when they are notified. *)
Inductive Event : Type :=
| EvCorestoreNew
| EvNamespace (k : Key)
| EvGoodbye
| EvDhtCreate (dht : nat)
| EvSwarmNew (sw dht : nat)
| EvSwarmOn (sw : nat)
| EvSwarmListen (sw : nat)
| EvJoinPeer (sw : nat) (k : Key)
| EvJoin (sw : nat) (topic : Key)
| EvFlush (sw : nat)
| EvSwarmDestroy (sw : nat)
| EvStoreClose
| EvReplicate (c : nat)
| EvEmitClose (closed_seen : bool)
| EvEmitConnection (c : nat)
| EvDriveNew (d : nat) (k : Key)
| EvDriveReady (d : nat)
| EvDriveUpdate (d : nat)
| EvFindingPeers (d : nat) (k : Key)
| EvPeersDone (d : nat)
| EvDrivePut (d : nat) (path : string)
| EvDriveGet (d : nat) (path : string)
| EvProtocolNew (p : nat) (name : string)
| EvCreateChannel (p c : nat).

#[global] Instance Event_eq_dec : EqDecision Event.
Proof. solve_decision. Defined.

(** A detached continuation waiting in the microtask queue: the rest of
    [_setupDiscovery(drive)] after its [await]. *)
Inductive Job : Type :=
| JobDiscovery (d : nat).

Record World : Type := mkWorld {
  this : Slashtag;
  next_id : nat;                                  (* next fresh object identity *)
  swarms : gmap nat Swarm;
  drives : gmap nat Drive;
  files : gmap Key (gmap string (list byte));     (* drive contents, by drive key *)
  net : list Key;                                 (* peers that accept a connection *)
  jobs : list Job;
  trace : list Event
}.

(** ** Field updates *)

Definition set_drives (v : gmap Key nat) (s : Slashtag) : Slashtag :=
  mkSlashtag (keyPair s) (remote s) (url s) (key s) (_swarmOpts s) (store s)
    v (_protocols s) (closed s) (_ready s) (swarm s) (publicDrive s).
Definition set_protocols (v : option (list (string * ProtocolInst))) (s : Slashtag) : Slashtag :=
  mkSlashtag (keyPair s) (remote s) (url s) (key s) (_swarmOpts s) (store s)
    (_drives s) v (closed s) (_ready s) (swarm s) (publicDrive s).
Definition set_closed (v : bool) (s : Slashtag) : Slashtag :=
  mkSlashtag (keyPair s) (remote s) (url s) (key s) (_swarmOpts s) (store s)
    (_drives s) (_protocols s) v (_ready s) (swarm s) (publicDrive s).
Definition set_ready (v : bool) (s : Slashtag) : Slashtag :=
  mkSlashtag (keyPair s) (remote s) (url s) (key s) (_swarmOpts s) (store s)
    (_drives s) (_protocols s) (closed s) v (swarm s) (publicDrive s).
Definition set_swarm (v : option nat) (s : Slashtag) : Slashtag :=
  mkSlashtag (keyPair s) (remote s) (url s) (key s) (_swarmOpts s) (store s)
    (_drives s) (_protocols s) (closed s) (_ready s) v (publicDrive s).
Definition set_publicDrive (v : option nat) (s : Slashtag) : Slashtag :=
  mkSlashtag (keyPair s) (remote s) (url s) (key s) (_swarmOpts s) (store s)
    (_drives s) (_protocols s) (closed s) (_ready s) (swarm s) v.

Definition set_this (v : Slashtag) (w : World) : World :=
  mkWorld v (next_id w) (swarms w) (drives w) (files w) (net w) (jobs w) (trace w).
Definition upd_this (f : Slashtag → Slashtag) (w : World) : World :=
  set_this (f (this w)) w.
Definition set_next_id (v : nat) (w : World) : World :=
  mkWorld (this w) v (swarms w) (drives w) (files w) (net w) (jobs w) (trace w).
Definition set_swarms (v : gmap nat Swarm) (w : World) : World :=
  mkWorld (this w) (next_id w) v (drives w) (files w) (net w) (jobs w) (trace w).
Definition set_drive_heap (v : gmap nat Drive) (w : World) : World :=
  mkWorld (this w) (next_id w) (swarms w) v (files w) (net w) (jobs w) (trace w).
Definition set_files (v : gmap Key (gmap string (list byte))) (w : World) : World :=
  mkWorld (this w) (next_id w) (swarms w) (drives w) v (net w) (jobs w) (trace w).
Definition set_jobs (v : list Job) (w : World) : World :=
  mkWorld (this w) (next_id w) (swarms w) (drives w) (files w) (net w) v (trace w).
Definition set_trace (v : list Event) (w : World) : World :=
  mkWorld (this w) (next_id w) (swarms w) (drives w) (files w) (net w) (jobs w) v.

Definition log (es : list Event) (w : World) : World := set_trace (trace w ++ es) w.
Definition enqueue (j : Job) (w : World) : World := set_jobs (jobs w ++ [j]) w.

(** ** Synchronous and asynchronous computations *)

(** A synchronous method: it runs to its end on the world and returns or
    throws. *)
Definition Sync (A : Type) : Type := World → World * Result A.

(** What is left of an [async] call after its synchronous prefix: settled
    ([Ret], [Throw]) or suspended at an [await]; the continuation runs in
    one piece on the world it is resumed in. *)
#[local] Unset Elimination Schemes.
Inductive Task (A : Type) : Type :=
| Ret (a : A)
| Throw (e : Error)
| Await (k : World → World * Task A).
#[local] Set Elimination Schemes.
Arguments Ret {A} a.
Arguments Throw {A} e.
Arguments Await {A} k.

(** Induction on a task goes through every world a suspended task may be
    resumed in. *)
Fixpoint Task_ind {A} (P : Task A → Prop)
    (HRet : ∀ a, P (Ret a)) (HThrow : ∀ e, P (Throw e))
    (HAwait : ∀ k, (∀ w, P (k w).2) → P (Await k)) (t : Task A) : P t :=
  match t with
  | Ret a => HRet a
  | Throw e => HThrow e
  | Await k => HAwait k (fun w => Task_ind P HRet HThrow HAwait (k w).2)
  end.

(** An [async] method: calling it runs its synchronous prefix. *)
Definition Async (A : Type) : Type := World → World * Task A.

Definition sret {A} (a : A) : Sync A := fun w => (w, Ok a).
Definition sthrow {A} (e : Error) : Sync A := fun w => (w, Err e).
Definition sbind {A B} (m : Sync A) (f : A → Sync B) : Sync B :=
  fun w => match m w with
           | (w1, Ok a) => f a w1
           | (w1, Err e) => (w1, Err e)
           end.
Definition gets {A} (f : World → A) : Sync A := fun w => (w, Ok (f w)).
Definition modify (f : World → World) : Sync unit := fun w => (f w, Ok tt).
Definition emit (es : list Event) : Sync unit := modify (log es).
Definition fresh : Sync nat := fun w => (set_next_id (S (next_id w)) w, Ok (next_id w)).

Definition ret {A} (a : A) : Async A := fun w => (w, Ret a).
Definition throw {A} (e : Error) : Async A := fun w => (w, Throw e).

(** A synchronous call made from inside an [async] body. *)
Definition call {A B} (m : Sync A) (f : A → Async B) : Async B :=
  fun w => match m w with
           | (w1, Ok a) => f a w1
           | (w1, Err e) => (w1, Throw e)
           end.

(** The rest [f] of an [async] body after [await t]: it never runs in the
    tick that issued the [await], also when [t] is already settled. *)
Fixpoint then_ {A B} (t : Task A) (f : A → Async B) : Task B :=
  match t with
  | Ret a => Await (f a)
  | Throw e => Throw e
  | Await k => Await (fun w => match k w with (w', t') => (w', then_ t' f) end)
  end.

(** [await m(); f]. *)
Definition await {A B} (m : Async A) (f : A → Async B) : Async B :=
  fun w => match m w with (w1, t) => (w1, then_ t f) end.

(** A collaborator's promise: it settles one tick after the call. *)
Definition later {A} (r : Result A) : Task A :=
  Await (fun w => (w, match r with Ok a => Ret a | Err e => Throw e end)).

Declare Scope js_scope.
Delimit Scope js_scope with js.
Notation "'let!' x ':=' m 'in' k" := (sbind m (fun x => k))
  (at level 10, x name, m at level 100, k at level 200) : js_scope.
Notation "'call!' x ':=' m 'in' k" := (call m (fun x => k))
  (at level 10, x name, m at level 100, k at level 200) : js_scope.
Notation "'await!' x ':=' m 'in' k" := (await m (fun x => k))
  (at level 10, x name, m at level 100, k at level 200) : js_scope.
Open Scope js_scope.

(** ** The microtask queue *)

(** The rest of [_setupDiscovery] after [await drive.findingPeers()]:
    [this.swarm?.flush().then(done, done)]. *)
Definition run_job (w : World) (j : Job) : World :=
  match j with
  | JobDiscovery d =>
      match swarm (this w) with
      | Some s => log [EvFlush s; EvPeersDone d] w
      | None => w
      end
  end.

(** Run the detached continuations queued so far, in order. *)
Definition drain (w : World) : World :=
  set_jobs [] (foldl run_job w (jobs w)).

(** Resume a task until it settles, nothing else being interleaved. *)
Fixpoint settle {A} (t : Task A) (w : World) : World * Result A :=
  match t with
  | Ret a => (drain w, Ok a)
  | Throw e => (drain w, Err e)
  | Await k => match k (drain w) with (w', t') => settle t' w' end
  end.

(** [await m()] from the top level. *)
Definition exec {A} (m : Async A) (w : World) : World * Result A :=
  match m w with (w1, t) => settle t w1 end.

(** Sequencing of two awaited calls. *)
Definition bind_result {A B} (r : World * Result A) (f : A → World → World * Result B)
    : World * Result B :=
  match r.2 with
  | Ok a => f a r.1
  | Err e => (r.1, Err e)
  end.

(** ** JSON

    The built-ins [JSON.stringify] and [JSON.parse] of the language, on the
    values that JSON text can carry.  A string is the sequence of the bytes
    of its UTF-8 encoding (a lone surrogate, which only an escape can
    produce, is the three bytes of its generalized encoding); a number is
    an IEEE 754 double; an object is the list of its own properties, a list
    in another order or with a key twice standing for the object its
    fields define one after the other.  Bytes that are no such encoding
    stand for no string of the language. *)

(** *** Numbers *)

Abbreviation Number := spec_float.

(** The double nearest to [m × 2^e], ties to even. *)
Definition double (neg : bool) (m : positive) (e : Z) : Number :=
  binary_round 53 1024 neg m e.

(** The Number value of the decimal [m × 10^e]: the double nearest to it,
    ties to even.  A quotient is rounded once, from its leading bits, some
    sixty more than a double keeps, and a last bit that tells whether
    anything is left below them. *)
Definition Number_of_decimal (neg : bool) (m : N) (e : Z) : Number :=
  match m with
  | N0 => S754_zero neg
  | Npos p =>
      match e with
      | Zneg d =>
          let D := (10 ^ Zpos d)%Z in
          let places := Z.max 0 (Z.log2_up D - Z.log2 (Zpos p) + 64) in
          let scaled := Z.shiftl (Zpos p) places in
          let sticky := if (scaled mod D =? 0)%Z then 0%Z else 1%Z in
          match (2 * (scaled / D) + sticky)%Z with
          | Zpos q => double neg q (- places - 1)
          | _ => S754_zero neg
          end
      | _ =>
          match (Zpos p * 10 ^ e)%Z with
          | Zpos q => double neg q 0
          | _ => S754_zero neg
          end
      end
  end.

Definition Number_of_Z (n : Z) : Number :=
  Number_of_decimal (n <? 0)%Z (Z.abs_N n) 0.

Definition Number_eqb (x y : Number) : bool :=
  match x, y with
  | S754_zero s, S754_zero s' => Bool.eqb s s'
  | S754_infinity s, S754_infinity s' => Bool.eqb s s'
  | S754_finite s m e, S754_finite s' m' e' => Bool.eqb s s' && (m =? m')%positive && (e =? e')%Z
  | _, _ => false
  end.

(** [x × 10^j] for the fraction [x = a / b]. *)
Definition scale10 (a b j : Z) : Z * Z :=
  match j with
  | Zneg d => (a, b * 10 ^ Zpos d)%Z
  | _ => (a * 10 ^ j, b)%Z
  end.

(** Is [a / b < 10^n]? *)
Definition below10 (a b n : Z) : bool :=
  let r := scale10 a b (- n) in (r.1 <? r.2)%Z.

(** The [n] with [10^(n-1) ≤ a / b < 10^n], looked for upwards from [n]. *)
Fixpoint magnitude (fuel : nat) (a b n : Z) : Z :=
  match fuel with
  | 0 => n
  | S fuel' => if below10 a b n then n else magnitude fuel' a b (n + 1)
  end.

(** [Number::toString] picks integers [n], [k] and [s] with [k ≥ 1],
    [10^(k-1) ≤ s < 10^k] and [s × 10^(n-k)] of Number value [x], [k] as
    small as possible and then [s × 10^(n-k)] as close to [x] as possible.
    For [x = a / b] of magnitude [n] the two candidates of [k] digits are
    the decimals next to [x] below and above. *)
Fixpoint shortest (fuel : nat) (x : Number) (a b n k : Z) : Z * Z * Z :=
  match fuel with
  | 0 => (0, n, k)%Z
  | S fuel' =>
      let r := scale10 a b (k - n) in
      let lo := (r.1 / r.2)%Z in
      let hi := (lo + 1)%Z in
      let twice := (2 * (r.1 mod r.2))%Z in
      let ok s := Number_eqb (Number_of_decimal false (Z.to_N s) (n - k)) x in
      let pick s := if (s =? 10 ^ k)%Z then (10 ^ (k - 1), n + 1, k)%Z else (s, n, k) in
      match ok lo, ok hi with
      | true, true =>
          if (twice <? r.2)%Z then pick lo
          else if (r.2 <? twice)%Z then pick hi
          else if Z.even lo then pick lo else pick hi
      | true, false => pick lo
      | false, true => pick hi
      | false, false => shortest fuel' x a b n (k + 1)%Z
      end
  end.

Fixpoint zeros (n : nat) : string :=
  match n with
  | 0 => EmptyString
  | S n' => String "0" (zeros n')
  end.

(** The text of the digits [s], [k] of them, with the decimal point after
    the [n]th. *)
Definition decimal_text (s n k : Z) : string :=
  let ds := pretty (Z.to_N s) in
  if ((k <=? n) && (n <=? 21))%Z then ds ++ zeros (Z.to_nat (n - k))
  else if ((0 <? n) && (n <=? 21))%Z then
    String.substring 0 (Z.to_nat n) ds ++ "." ++ String.substring (Z.to_nat n) (Z.to_nat (k - n)) ds
  else if ((-6 <? n) && (n <=? 0))%Z then "0." ++ zeros (Z.to_nat (- n)) ++ ds
  else
    let e := (n - 1)%Z in
    (if (k =? 1)%Z then ds
     else String.substring 0 1 ds ++ "." ++ String.substring 1 (Z.to_nat (k - 1)) ds)
    ++ "e" ++ (if (e <? 0)%Z then "-" else "+") ++ pretty (Z.abs_N e).

(** A number whose mantissa is not normalised stands for the double of its
    value. *)
Definition Number_canonical (x : Number) : Number :=
  match x with
  | S754_finite neg m e => double neg m e
  | _ => x
  end.

(** [Number::toString(x)] in radix 10. *)
Definition Number_toString (x : Number) : string :=
  match Number_canonical x with
  | S754_nan => "NaN"
  | S754_infinity neg => if neg then "-Infinity" else "Infinity"
  | S754_zero _ => "0"
  | S754_finite neg m e =>
      let a := match e with Zneg _ => Zpos m | _ => (Zpos m * 2 ^ e)%Z end in
      let b := match e with Zneg d => (2 ^ Zpos d)%Z | _ => 1%Z end in
      let bits := (Z.log2 (Zpos m) + e)%Z in
      let n := magnitude 4 a b (bits * 30103 / 100000) in
      let r := shortest 21 (S754_finite false m e) a b n 1 in
      (if neg then "-" else "") ++ decimal_text r.1.1 r.1.2 r.2
  end.

Definition Number_isFinite (x : Number) : bool :=
  match Number_canonical x with
  | S754_zero _ | S754_finite _ _ _ => true
  | _ => false
  end.

(** *** Values *)

#[local] Unset Elimination Schemes.
Inductive JSON : Type :=
| JNull
| JBool (b : bool)
| JNumber (x : Number)
| JString (s : string)
| JArray (l : list JSON)
| JObject (fields : list (string * JSON)).
#[local] Set Elimination Schemes.

(** *** The own properties of an object *)

Definition digit_value (c : ascii) : option N :=
  let n := N_of_ascii c in
  if ((48 <=? n) && (n <=? 57))%N then Some (n - 48)%N else None.

(** The digits at the head of [s]: their value after [acc], how many they
    are, and what follows them. *)
Fixpoint parse_digits (acc : N) (count : N) (s : string) : N * N * string :=
  match s with
  | String c s' =>
      match digit_value c with
      | Some d => parse_digits (acc * 10 + d) (count + 1) s'
      | None => (acc, count, s)
      end
  | EmptyString => (acc, count, s)
  end.

(** A property key that is an array index: the canonical decimal text of
    an integer below [2^32 - 1]. *)
Definition array_index (k : string) : option N :=
  match k with
  | EmptyString => None
  | String c rest =>
      let r := parse_digits 0 0 k in
      if bool_decide (r.2 = EmptyString) && (0 <? r.1.2)%N
         && (negb (bool_decide (c = "0"%char)) || bool_decide (rest = EmptyString))
         && (r.1.1 <? 4294967295)%N
      then Some r.1.1 else None
  end.

Fixpoint has_property {V} (k : string) (l : list (string * V)) : bool :=
  match l with
  | [] => false
  | (k', _) :: l' => bool_decide (k = k') || has_property k l'
  end.

Fixpoint set_property {V} (k : string) (v : V) (l : list (string * V)) : list (string * V) :=
  match l with
  | [] => []
  | (k', v') :: l' =>
      if bool_decide (k = k') then (k, v) :: l' else (k', v') :: set_property k v l'
  end.

Fixpoint add_index {V} (i : N) (k : string) (v : V) (l : list (string * V))
    : list (string * V) :=
  match l with
  | [] => [(k, v)]
  | (k', v') :: l' =>
      match array_index k' with
      | Some j => if (j <? i)%N then (k', v') :: add_index i k v l' else (k, v) :: l
      | None => (k, v) :: l
      end
  end.

(** [CreateDataProperty(object, k, v)] on the list of the own properties in
    their order: array indices ascending, then the other keys in the order
    they were created in; a key that is there keeps its place. *)
Definition define_property {V} (l : list (string * V)) (kv : string * V) : list (string * V) :=
  if has_property kv.1 l then set_property kv.1 kv.2 l
  else match array_index kv.1 with
       | Some i => add_index i kv.1 kv.2 l
       | None => l ++ [kv]
       end.

(** The own properties of the object the fields define, one after the
    other. *)
Definition own_properties {V} (fields : list (string * V)) : list (string * V) :=
  foldl define_property [] fields.

(** *** [JSON.stringify] *)

Definition hex4 (n : N) : string :=
  String (hex_digit (n / 4096 mod 16)%N) (String (hex_digit (n / 256 mod 16)%N)
    (String (hex_digit (n / 16 mod 16)%N) (String (hex_digit (n mod 16)%N) EmptyString))).

Definition unicode_escape (n : N) : string := String "\" (String "u" (hex4 n)).

(** [QuoteJSONString] without its quotes. *)
Fixpoint escape (s : string) : string :=
  match s with
  | EmptyString => EmptyString
  | String c s' =>
      let n := N_of_ascii c in
      if (n =? 34)%N then String "\" (String "034" (escape s'))
      else if (n =? 92)%N then String "\" (String "\" (escape s'))
      else if (n =? 8)%N then String "\" (String "b" (escape s'))
      else if (n =? 9)%N then String "\" (String "t" (escape s'))
      else if (n =? 10)%N then String "\" (String "n" (escape s'))
      else if (n =? 12)%N then String "\" (String "f" (escape s'))
      else if (n =? 13)%N then String "\" (String "r" (escape s'))
      else if (n <? 32)%N then unicode_escape n ++ escape s'
      else if (n =? 237)%N then
        match s' with
        | String c2 (String c3 s'') =>
            let n2 := N_of_ascii c2 in
            let n3 := N_of_ascii c3 in
            if ((160 <=? n2) && (n2 <=? 191) && (128 <=? n3) && (n3 <=? 191))%N
            then unicode_escape (53248 + (n2 - 128) * 64 + (n3 - 128))%N ++ escape s''
            else String c (escape s')
        | _ => String c (escape s')
        end
      else String c (escape s')
  end.

Definition quote (s : string) : string := String "034" (escape s ++ String "034" EmptyString).

Fixpoint join_with (sep : string) (l : list string) : string :=
  match l with
  | [] => EmptyString
  | [x] => x
  | x :: l' => x ++ sep ++ join_with sep l'
  end.

Fixpoint JSON_stringify (v : JSON) : string :=
  match v with
  | JNull => "null"
  | JBool true => "true"
  | JBool false => "false"
  | JNumber x => if Number_isFinite x then Number_toString x else "null"
  | JString s => quote s
  | JArray l => "[" ++ join_with "," (map JSON_stringify l) ++ "]"
  | JObject fs =>
      "{" ++ join_with ","
               (map (fun f => quote f.1 ++ ":" ++ f.2)
                  (own_properties (map (fun f => (f.1, JSON_stringify f.2)) fs))) ++ "}"
  end.

(** *** [JSON.parse] *)

Definition is_ws (c : ascii) : bool :=
  let n := N_of_ascii c in ((n =? 32) || (n =? 9) || (n =? 10) || (n =? 13))%N.

Fixpoint skip_ws (s : string) : string :=
  match s with
  | String c s' => if is_ws c then skip_ws s' else s
  | EmptyString => s
  end.

Definition hex_value_any (c : ascii) : option N :=
  let n := N_of_ascii c in
  if ((48 <=? n) && (n <=? 57))%N then Some (n - 48)%N
  else if ((97 <=? n) && (n <=? 102))%N then Some (n - 87)%N
  else if ((65 <=? n) && (n <=? 70))%N then Some (n - 55)%N
  else None.

(** What a string literal is made of: a character of the text as it
    stands, or the code unit an escape names. *)
Inductive Item : Type :=
| Plain (c : ascii)
| Unit16 (n : N).

(** The items of a string literal up to its closing quote. *)
Fixpoint parse_items (s : string) : option (list Item * string) :=
  match s with
  | EmptyString => None
  | String c s' =>
      let n := N_of_ascii c in
      if (n =? 34)%N then Some ([], s')
      else if (n <? 32)%N then None
      else if (n =? 92)%N then
        match s' with
        | String e s'' =>
            let simple (u : N) :=
              match parse_items s'' with
              | Some (r, rest) => Some (Unit16 u :: r, rest)
              | None => None
              end in
            let m := N_of_ascii e in
            if (m =? 34)%N then simple 34%N
            else if (m =? 92)%N then simple 92%N
            else if (m =? 47)%N then simple 47%N
            else if (m =? 98)%N then simple 8%N
            else if (m =? 102)%N then simple 12%N
            else if (m =? 110)%N then simple 10%N
            else if (m =? 114)%N then simple 13%N
            else if (m =? 116)%N then simple 9%N
            else if (m =? 117)%N then
              match s'' with
              | String h1 (String h2 (String h3 (String h4 s3))) =>
                  match hex_value_any h1, hex_value_any h2, hex_value_any h3, hex_value_any h4 with
                  | Some a, Some b, Some c', Some d =>
                      match parse_items s3 with
                      | Some (r, rest) =>
                          Some (Unit16 (a * 4096 + b * 256 + c' * 16 + d)%N :: r, rest)
                      | None => None
                      end
                  | _, _, _, _ => None
                  end
              | _ => None
              end
            else None
        | EmptyString => None
        end
      else match parse_items s' with
           | Some (r, rest) => Some (Plain c :: r, rest)
           | None => None
           end
  end.

(** The UTF-8 bytes of a code point; a surrogate gets the three bytes of
    its range. *)
Definition utf8 (cp : N) : string :=
  let byte n := ascii_of_N n in
  if (cp <? 128)%N then String (byte cp) EmptyString
  else if (cp <? 2048)%N then
    String (byte (192 + cp / 64)%N) (String (byte (128 + cp mod 64)%N) EmptyString)
  else if (cp <? 65536)%N then
    String (byte (224 + cp / 4096)%N)
      (String (byte (128 + cp / 64 mod 64)%N) (String (byte (128 + cp mod 64)%N) EmptyString))
  else
    String (byte (240 + cp / 262144)%N)
      (String (byte (128 + cp / 4096 mod 64)%N)
         (String (byte (128 + cp / 64 mod 64)%N) (String (byte (128 + cp mod 64)%N) EmptyString))).

Definition is_high (n : N) : bool := ((55296 <=? n) && (n <=? 56319))%N.
Definition is_low (n : N) : bool := ((56320 <=? n) && (n <=? 57343))%N.

(** The string of the items: a high surrogate followed by a low one is one
    code point. *)
Fixpoint string_of_items (l : list Item) : string :=
  match l with
  | [] => EmptyString
  | Plain c :: l' => String c (string_of_items l')
  | Unit16 n :: l' =>
      match l' with
      | Unit16 n' :: l'' =>
          if is_high n && is_low n'
          then utf8 (65536 + (n - 55296) * 1024 + (n' - 56320))%N ++ string_of_items l''
          else utf8 n ++ string_of_items l'
      | _ => utf8 n ++ string_of_items l'
      end
  end.

Definition parse_chars (s : string) : option (string * string) :=
  match parse_items s with
  | Some (items, rest) => Some (string_of_items items, rest)
  | None => None
  end.

(** The exponent part, if there is one. *)
Definition parse_exponent (s : string) : Z * string :=
  match s with
  | String c s1 =>
      if bool_decide (c = "e"%char) || bool_decide (c = "E"%char) then
        let signed :=
          match s1 with
          | String g s2 =>
              if bool_decide (g = "-"%char) then (true, s2)
              else if bool_decide (g = "+"%char) then (false, s2)
              else (false, s1)
          | EmptyString => (false, s1)
          end in
        let r := parse_digits 0 0 signed.2 in
        if (0 <? r.1.2)%N
        then ((if signed.1 then - Z.of_N r.1.1 else Z.of_N r.1.1)%Z, r.2)
        else (0%Z, s)
      else (0%Z, s)
  | EmptyString => (0%Z, s)
  end.

(** The Number value of the digits [m] (there are [count] of them) times
    [10^e]; what is sure to overflow or to vanish is not computed. *)
Definition Number_of_literal (neg : bool) (m count : N) (e : Z) : Number :=
  if (m =? 0)%N then S754_zero neg
  else if (310 <? e)%Z then S754_infinity neg
  else if (Z.of_N count + e <? -330)%Z then S754_zero neg
  else Number_of_decimal neg m e.

(** A number literal at the head of [s]: an optional minus, [0] or digits
    that do not start with [0], an optional fraction, an optional
    exponent. *)
Definition parse_number (s : string) : option (JSON * string) :=
  let signed :=
    match s with
    | String c s' => if bool_decide (c = "-"%char) then (true, s') else (false, s)
    | EmptyString => (false, s)
    end in
  match signed.2 with
  | String c s1 =>
      match digit_value c with
      | None => None
      | Some d =>
          let int := if (d =? 0)%N then (0%N, 1%N, s1) else parse_digits 0 0 signed.2 in
          let frac :=
            match int.2 with
            | String p (String c2 s2) =>
                if bool_decide (p = "."%char) && bool_decide (digit_value c2 ≠ None)
                then parse_digits int.1.1 0 (String c2 s2)
                else (int.1.1, 0%N, int.2)
            | _ => (int.1.1, 0%N, int.2)
            end in
          let exp := parse_exponent frac.2 in
          Some (JNumber (Number_of_literal signed.1 frac.1.1 (int.1.2 + frac.1.2)
                           (exp.1 - Z.of_N frac.1.2)),
                exp.2)
      end
  | EmptyString => None
  end.

Fixpoint parse_value (fuel : nat) (s : string) : option (JSON * string) :=
  match fuel with
  | 0 => None
  | S fuel' =>
      match skip_ws s with
      | String "n" (String "u" (String "l" (String "l" rest))) => Some (JNull, rest)
      | String "t" (String "r" (String "u" (String "e" rest))) => Some (JBool true, rest)
      | String "f" (String "a" (String "l" (String "s" (String "e" rest)))) =>
          Some (JBool false, rest)
      | String "034" rest =>
          match parse_chars rest with
          | Some (str, rest') => Some (JString str, rest')
          | None => None
          end
      | String "[" rest =>
          match skip_ws rest with
          | String "]" rest' => Some (JArray [], rest')
          | _ => match parse_elements fuel' rest with
                 | Some (l, rest') => Some (JArray l, rest')
                 | None => None
                 end
          end
      | String "{" rest =>
          match skip_ws rest with
          | String "}" rest' => Some (JObject [], rest')
          | _ => match parse_members fuel' rest with
                 | Some (l, rest') => Some (JObject (own_properties l), rest')
                 | None => None
                 end
          end
      | other => parse_number other
      end
  end
with parse_elements (fuel : nat) (s : string) : option (list JSON * string) :=
  match fuel with
  | 0 => None
  | S fuel' =>
      match parse_value fuel' s with
      | Some (v, rest) =>
          match skip_ws rest with
          | String "," rest' =>
              match parse_elements fuel' rest' with
              | Some (l, rest'') => Some (v :: l, rest'')
              | None => None
              end
          | String "]" rest' => Some ([v], rest')
          | _ => None
          end
      | None => None
      end
  end
with parse_members (fuel : nat) (s : string) : option (list (string * JSON) * string) :=
  match fuel with
  | 0 => None
  | S fuel' =>
      match skip_ws s with
      | String "034" rest =>
          match parse_chars rest with
          | Some (name, rest1) =>
              match skip_ws rest1 with
              | String ":" rest2 =>
                  match parse_value fuel' rest2 with
                  | Some (v, rest3) =>
                      match skip_ws rest3 with
                      | String "," rest4 =>
                          match parse_members fuel' rest4 with
                          | Some (l, rest5) => Some ((name, v) :: l, rest5)
                          | None => None
                          end
                      | String "}" rest4 => Some ([(name, v)], rest4)
                      | _ => None
                      end
                  | None => None
                  end
              | _ => None
              end
          | None => None
          end
      | _ => None
      end
  end.

(** [JSON.parse(text)]; it throws a [SyntaxError] on anything else than one
    JSON value. *)
Definition JSON_parse (s : string) : Result JSON :=
  match parse_value (2 * String.length s + 2) s with
  | Some (v, rest) =>
      match skip_ws rest with
      | EmptyString => Ok v
      | String _ _ => Err SyntaxError
      end
  | None => Err SyntaxError
  end.

(** The values that survive [JSON.parse(JSON.stringify(p))]. *)
Definition JSON_serializable (p : JSON) : Prop :=
  JSON_parse (JSON_stringify p) = Ok p.

(** The profile of the spec's scenario: an object with one [name] field. *)
Definition alice : JSON := JObject [("name", JString "alice")].

(** ** The collaborators *)

(** The [Map] of protocols keeps insertion order. *)
Fixpoint Map_get {V} (k : string) (m : list (string * V)) : option V :=
  match m with
  | [] => None
  | (k', v) :: m' => if bool_decide (k = k') then Some v else Map_get k m'
  end.

Fixpoint Map_set {V} (k : string) (v : V) (m : list (string * V)) : list (string * V) :=
  match m with
  | [] => [(k, v)]
  | (k', v') :: m' =>
      if bool_decide (k = k') then (k, v) :: m' else (k', v') :: Map_set k v m'
  end.

Definition lift {A} (r : Result A) : Sync A := fun w => (w, r).

Fixpoint forEach {A B} (l : list A) (f : A → Sync B) : Sync unit :=
  match l with
  | [] => sret tt
  | x :: l' => let! _ := f x in forEach l' f
  end.

(** A JavaScript string is falsy when empty. *)
Definition truthy (s : string) : bool := negb (bool_decide (s = EmptyString)).

Definition is_some {A} (o : option A) : bool :=
  match o with Some _ => true | None => false end.

(** [DHT.create(opts)]. *)
Definition DHT_create (o : option SwarmOpts) : Async nat :=
  fun w => (log [EvDhtCreate (next_id w)] (set_next_id (S (next_id w)) w),
            later (Ok (next_id w))).

(** [new Hyperswarm({ ...opts, keyPair, dht })]. *)
Definition Hyperswarm_new (o : option SwarmOpts) (kp : option KeyPair) (dht : nat) : Sync nat :=
  let! s := fresh in
  let! _ := modify (fun w => set_swarms (<[s := mkSwarm dht kp ∅ ∅ 0 false]> (swarms w)) w) in
  let! _ := emit [EvSwarmNew s dht] in
  sret s.

Definition add_handler (S0 : Swarm) : Swarm :=
  mkSwarm (sw_dht S0) (sw_keyPair S0) (_allConnections S0) (peers S0)
    (S (sw_handlers S0)) (sw_destroyed S0).

(** [swarm.on('connection', handler)]. *)
Definition swarm_on (s : nat) : Sync unit :=
  let! _ := modify (fun w => set_swarms (alter add_handler s (swarms w)) w) in
  emit [EvSwarmOn s].

(** [swarm.listen()]. *)
Definition swarm_listen (s : nat) : Async unit :=
  fun w => (log [EvSwarmListen s] w, later (Ok tt)).

(** [swarm.joinPeer(key)]: the transport-level connect request. *)
Definition swarm_joinPeer (s : nat) (k : Key) : Sync unit := emit [EvJoinPeer s k].

(** The attached remote identity of a peer is closed by the socket's
    ['close'] handler; it has no swarm, so [close()] only marks it. *)
Definition close_peer (p : PeerInfo) : PeerInfo :=
  mkPeerInfo (peer_publicKey p) (set_closed true <$> peer_slashtag p).

Definition destroy_swarm (S0 : Swarm) : Swarm :=
  mkSwarm (sw_dht S0) (sw_keyPair S0) ∅ (close_peer <$> peers S0) (sw_handlers S0) true.

(** [swarm.destroy()]: the live connections are closed with it. *)
Definition swarm_destroy (s : nat) : Async unit :=
  fun w => (log [EvSwarmDestroy s] (set_swarms (alter destroy_swarm s (swarms w)) w),
            later (Ok tt)).

(** [store.close()]. *)
Definition store_close : Async unit :=
  fun w => (log [EvStoreClose] w, later (Ok tt)).

Definition drive_lookup (d : nat) : Sync Drive :=
  fun w => (w, match drives w !! d with Some D => Ok D | None => Err TypeError end).

(** [drive.ready()], [drive.update()]. *)
Definition SlashDrive_ready (d : nat) : Async unit :=
  fun w => (log [EvDriveReady d] w, later (Ok tt)).
Definition SlashDrive_update (d : nat) : Async unit :=
  fun w => (log [EvDriveUpdate d] w, later (Ok tt)).

(** [drive.put(path, bytes)]: handles on one key share their content. *)
Definition SlashDrive_put (d : nat) (path : string) (bytes : list byte) : Async unit :=
  fun w =>
    match drives w !! d with
    | Some D =>
        if writable D then
          (log [EvDrivePut d path]
             (set_files (<[drive_key D :=
                             <[path := bytes]> (default ∅ (files w !! drive_key D))]> (files w)) w),
           later (Ok tt))
        else (w, later (Err DriveNotWritable))
    | None => (w, Throw TypeError)
    end.

(** [drive.get(path)]: the bytes, or [null]. *)
Definition SlashDrive_get (d : nat) (path : string) : Async (option (list byte)) :=
  fun w =>
    match drives w !! d with
    | Some D =>
        (log [EvDriveGet d path] w,
         later (Ok (files w !! drive_key D ≫= (fun fs => fs !! path))))
    | None => (w, Throw TypeError)
    end.

(** ** The class *)

Definition DRIVE_KEYS_profile : string := "profile.json".

(** What [connect(key)] accepts: [Uint8Array | SlashURL | string]. *)
Inductive Target : Type :=
| TKey (k : Key)
| TURL (u : SlashURL)
| TString (s : string).

(** The two hashes of the drive collaborator: the key of a drive named
    inside a store namespace, and the discovery topic of a drive key. *)
Class DriveHashes : Type := {
  derive_key : Key → string → Key;
  discovery_key : Key → Key
}.

Section Slashtag.

Context {hashes : DriveHashes}.

(** The object before its constructor has assigned anything. *)
Definition blank : Slashtag :=
  mkSlashtag None false (mkSlashURL []) [] None [] ∅ None false false None None.

(** [protocol(Protocol)] *)
Definition protocol (P : ProtocolClass) : Sync ProtocolInst :=
  let! r := gets (fun w => remote (this w)) in
  if r : bool then sthrow RemoteProtocol
  else
    let name := protocol_name P in
    let! found := gets (fun w => _protocols (this w) ≫= Map_get name) in
    match found with
    | Some p => sret p
    | None =>
        let! i := fresh in
        let! _ := emit [EvProtocolNew i name] in
        let p := mkProtocolInst i name in
        let! _ := modify (upd_this (fun s => set_protocols (Map_set name p <$> _protocols s) s)) in
        sret p
    end.

(** [opts.url ? new SlashURL(opts.url) : null] *)
Definition resolve_url (o : option string) : Result (option SlashURL) :=
  match o with
  | Some s =>
      if truthy s then
        match SlashURL_parse s with
        | Ok u => Ok (Some u)
        | Err e => Err e
        end
      else Ok None
  | None => Ok None
  end.

(** [opts.keyPair?.publicKey || opts.key || this.url?.slashtag.key] *)
Definition resolve_key (opts : Opts) (u : option SlashURL) : option Key :=
  match o_keyPair opts with
  | Some kp => Some (publicKey kp)
  | None =>
      match o_key opts with
      | Some k => Some k
      | None => slashtag_key <$> u
      end
  end.

(** [constructor(opts)], run on the freshly allocated [this]. *)
Definition constructor (opts : Opts) : Sync unit :=
  let! u := lift (resolve_url (o_url opts)) in
  match resolve_key opts u with
  | None => sthrow MissingKey
  | Some k =>
      let! _ := modify (set_this
        (mkSlashtag (o_keyPair opts) (negb (is_some (o_keyPair opts)))
           (default (SlashURL_of_key k) u) k (o_swarmOpts opts) k ∅ None
           false false None None)) in
      let! _ := emit ((if o_store opts then [] else [EvCorestoreNew]) ++ [EvNamespace k]) in
      let! r := gets (fun w => remote (this w)) in
      let! _ := (if r : bool then sret tt
                 else
                   let! _ := modify (upd_this (set_protocols (Some []))) in
                   forEach (default [] (o_protocols opts)) protocol) in
      let! _ := modify (upd_this (set_closed false)) in
      emit [EvGoodbye]
  end.

(** [new Slashtag(opts)] as an expression: the caller's [this] is kept. *)
Definition new_Slashtag (opts : Opts) : Sync Slashtag :=
  fun w =>
    let r := constructor opts (set_this blank w) in
    (set_this (this w) r.1,
     match r.2 with
     | Ok _ => Ok (this r.1)
     | Err e => Err e
     end).

(** [_setupProtocols(socket, peerInfo)] *)
Definition _setupProtocols (c : Conn) (p : PeerInfo) : Sync unit :=
  let! ps := gets (fun w => _protocols (this w)) in
  match ps with
  | None => sret tt
  | Some l => emit (map (fun e => EvCreateChannel (pi_id e.2) (conn_id c)) l)
  end.

(** [_handleConnection(socket, peerInfo)]; the returned record is the
    [peerInfo] object after the handler has attached the remote identity. *)
Definition _handleConnection (c : Conn) (p : PeerInfo) : Sync PeerInfo :=
  let! _ := emit [EvReplicate (conn_id c)] in
  let! o := gets (fun w => _swarmOpts (this w)) in
  let! peer := new_Slashtag (mkOpts None (Some (peer_publicKey p)) None false None o) in
  let p' := mkPeerInfo (peer_publicKey p) (Some peer) in
  let! _ := _setupProtocols c p' in
  let! _ := emit [EvEmitConnection (conn_id c)] in
  sret p'.

(** The swarm emitting ['connection'] to its [n] listeners. *)
Fixpoint dispatch (n : nat) (c : Conn) (p : PeerInfo) : Sync PeerInfo :=
  match n with
  | 0 => sret p
  | S n' => let! p' := _handleConnection c p in dispatch n' c p'
  end.

Definition open_connection (c : Conn) (p : PeerInfo) (S0 : Swarm) : Swarm :=
  mkSwarm (sw_dht S0) (sw_keyPair S0) (<[remotePublicKey c := c]> (_allConnections S0))
    (<[b4a_toHex (peer_publicKey p) := p]> (peers S0)) (sw_handlers S0) (sw_destroyed S0).

(** The network's answer to a connect request on swarm [s]: a peer that
    accepts is registered among the swarm's connections and announced to
    the ['connection'] listeners. *)
Definition deliver (s : nat) (k : Key) : Async (option Connected) :=
  fun w =>
    match swarms w !! s with
    | None => (w, Throw TypeError)
    | Some S0 =>
        if sw_destroyed S0 || negb (bool_decide (k ∈ net w)) then (w, Throw ConnectError)
        else
          let c := mkConn (next_id w) k in
          let p := mkPeerInfo k None in
          let w1 := set_swarms (<[s := open_connection c p S0]> (swarms w))
                      (set_next_id (S (next_id w)) w) in
          let r := dispatch (sw_handlers S0) c p w1 in
          let p' := match r.2 with Ok p' => p' | Err _ => p end in
          (set_swarms (alter (open_connection c p') s (swarms r.1)) r.1,
           Ret (Some (mkConnected c (Some p'))))
    end.

(** Modelled from the spec: [catchConnection(swarm, key)] of [./utils.js]
    is not part of the sources at hand.  The spec has [connect] wait for the
    connection to the key to be open and fail on a transport failure; the
    promise settles when the network has answered. *)
Definition catchConnection (s : nat) (k : Key) : Async (option Connected) :=
  fun w => (w, Await (deliver s k)).

(** [new SlashDrive({ ...opts, store })] *)
Definition SlashDrive_new (opts : DriveOpts) (ns : Key) : Sync nat :=
  let k := match do_key opts with
           | Some k => k
           | None =>
               match do_keyPair opts with
               | Some kp => publicKey kp
               | None => derive_key ns (default EmptyString (do_name opts))
               end
           end in
  let wr := is_some (do_keyPair opts) || negb (is_some (do_key opts)) in
  let! d := fresh in
  let! _ := modify (fun w =>
              set_drive_heap (<[d := mkDrive k (discovery_key k) wr]> (drives w)) w) in
  let! _ := emit [EvDriveNew d k] in
  sret d.

(** [_setupDiscovery(drive)] up to its [await]; the rest is queued. *)
Definition _setupDiscovery (d : nat) (D : Drive) : Sync unit :=
  let! sw := gets (fun w => swarm (this w)) in
  let! _ := match sw with
            | Some s => emit [EvJoin s (discoveryKey D)]
            | None => sret tt
            end in
  let! _ := emit [EvFindingPeers d (drive_key D)] in
  modify (enqueue (JobDiscovery d)).

(** [drive(opts)] after its [await this.ready()]. *)
Definition drive_rest (opts : DriveOpts) : Async nat :=
  call! ns := gets (fun w => store (this w)) in
  call! d := SlashDrive_new opts ns in
  await! _ := SlashDrive_ready d in
  call! D := drive_lookup d in
  call! existing := gets (fun w => _drives (this w) !! drive_key D) in
  match existing with
  | Some e => ret e
  | None =>
      call! _ := modify (upd_this (fun s => set_drives (<[drive_key D := d]> (_drives s)) s)) in
      call! _ := _setupDiscovery d D in
      await! _ := SlashDrive_update d in
      ret d
  end.

(** [drive(opts)], over the [ready] it awaits first. *)
Definition drive_body (ready : Async (option bool)) (opts : DriveOpts) : Async nat :=
  await! _ := ready in
  drive_rest opts.

(** [ready()], over the [drive] it calls for the public drive.  It resolves
    to [true] when memoized and to [undefined] otherwise. *)
Definition ready_body (drive : DriveOpts → Async nat) : Async (option bool) :=
  call! r := gets (fun w => _ready (this w)) in
  if r : bool then ret (Some true)
  else
    call! o := gets (fun w => _swarmOpts (this w)) in
    await! dht := DHT_create o in
    call! kp := gets (fun w => keyPair (this w)) in
    call! s := Hyperswarm_new o kp dht in
    call! _ := modify (upd_this (set_swarm (Some s))) in
    call! _ := swarm_on s in
    call! _ := modify (upd_this (set_ready true)) in
    call! k := gets (fun w => key (this w)) in
    await! d := drive (mkDriveOpts None false (Some k) kp None) in
    call! _ := modify (upd_this (set_publicDrive (Some d))) in
    ret None.

(** [ready] and [drive] call each other; [depth] bounds the nesting. *)
Fixpoint ready_at (depth : nat) : Async (option bool) :=
  match depth with
  | 0 => ready_body (fun _ => throw RangeError)
  | S n => ready_body (drive_body (ready_at n))
  end.

(** [ready()]: the call nested in its own [drive] finds [_ready] set. *)
Definition ready : Async (option bool) := ready_at 1.

(** [drive(opts)] *)
Definition drive (opts : DriveOpts) : Async nat := drive_body ready opts.

(** [listen()] after its [await this.ready()]. *)
Definition listen_rest : Async unit :=
  call! sw := gets (fun w => swarm (this w)) in
  match sw with
  | Some s => await! x := swarm_listen s in ret x
  | None => throw TypeError
  end.

(** [listen()] *)
Definition listen : Async unit :=
  call! r := gets (fun w => remote (this w)) in
  if r : bool then throw RemoteListen
  else
    await! _ := ready in
    listen_rest.

Definition resolve_target (t : Target) : Result Key :=
  match t with
  | TKey k => Ok k
  | TURL u => Ok (slashtag_key u)
  | TString s =>
      match SlashURL_parse s with
      | Ok u => Ok (slashtag_key u)
      | Err e => Err e
      end
  end.

(** [connect(key)] after its [await this.ready()], on the resolved key. *)
Definition connect_rest (k : Key) : Async (option Connected) :=
  call! sw := gets (fun w => swarm (this w)) in
  call! existing := gets (fun w =>
      s ← sw; S0 ← swarms w !! s; _allConnections S0 !! k) in
  match existing with
  | Some c =>
      call! p := gets (fun w =>
          s ← sw; S0 ← swarms w !! s; peers S0 !! b4a_toHex k) in
      ret (Some (mkConnected c p))
  | None =>
      match sw with
      | Some s =>
          fun w =>
            let waiting := catchConnection s k w in
            ((swarm_joinPeer s k waiting.1).1, waiting.2)
      | None => ret None
      end
  end.

(** [connect(key)]; [None] is [undefined]. *)
Definition connect (t : Target) : Async (option Connected) :=
  call! r := gets (fun w => remote (this w)) in
  if r : bool then throw RemoteConnect
  else
    call! k := lift (resolve_target t) in
    call! me := gets (fun w => key (this w)) in
    if b4a_equals k me then throw ConnectSelf
    else
      await! _ := ready in
      connect_rest k.

(** [setProfile(profile)] after its [await this.ready()]. *)
Definition setProfile_rest (profile : JSON) : Async unit :=
  call! pd := gets (fun w => publicDrive (this w)) in
  match pd with
  | Some d =>
      await! x := SlashDrive_put d DRIVE_KEYS_profile (b4a_from (JSON_stringify profile)) in
      ret x
  | None => ret tt
  end.

(** [setProfile(profile)] *)
Definition setProfile (profile : JSON) : Async unit :=
  await! _ := ready in
  setProfile_rest profile.

(** [getProfile()] after its [await this.ready()]; [None] is [null]. *)
Definition getProfile_rest : Async (option JSON) :=
  call! pd := gets (fun w => publicDrive (this w)) in
  await! result := match pd with
                   | Some d => SlashDrive_get d DRIVE_KEYS_profile
                   | None => ret None
                   end in
  match result with
  | None => ret None
  | Some bytes =>
      call! v := lift (JSON_parse (b4a_toString bytes)) in
      ret (Some v)
  end.

(** [getProfile()] *)
Definition getProfile : Async (option JSON) :=
  await! _ := ready in
  getProfile_rest.

(** [close()] *)
Definition close : Async unit :=
  call! c := gets (fun w => closed (this w)) in
  if c : bool then ret tt
  else
    call! _ := modify (upd_this (set_closed true)) in
    call! seen := gets (fun w => closed (this w)) in
    call! _ := emit [EvEmitClose seen] in
    call! sw := gets (fun w => swarm (this w)) in
    match sw with
    | None => ret tt
    | Some s =>
        await! _ := swarm_destroy s in
        await! _ := store_close in
        ret tt
    end.

(** The key a supplied url yields, if it yields one. *)
Definition url_key (opts : Opts) : option Key :=
  s ← o_url opts;
  match SlashURL_parse s with
  | Ok u => Some (slashtag_key u)
  | Err _ => None
  end.

(** A world with nothing in it but the peers that would accept a
    connection, and [new Slashtag(opts)] run in it. *)
Definition genesis (accepting : list Key) : World :=
  mkWorld blank 0 ∅ ∅ ∅ accepting [] [].

Definition create (opts : Opts) (accepting : list Key) : World * Result unit :=
  constructor opts (genesis accepting).

End Slashtag.

(** ** Calls in flight together *)

(** Issue the calls one after the other without awaiting any: each runs
    its synchronous prefix. *)
Fixpoint start_all {A} (ms : list (Async A)) (w : World) : World * list (Task A) :=
  match ms with
  | [] => (w, [])
  | m :: ms' =>
      match m w with
      | (w1, t) =>
          match start_all ms' w1 with
          | (w2, ts) => (w2, t :: ts)
          end
      end
  end.

(** The event loop resuming the suspended tasks in the order [schedule]
    names them. *)
Fixpoint interleave {A} (schedule : list nat) (ts : list (Task A)) (w : World)
    : World * list (Task A) :=
  match schedule with
  | [] => (w, ts)
  | i :: rest =>
      match ts !! i with
      | Some (Await k) =>
          match k (drain w) with
          | (w', t') => interleave rest (<[i := t']> ts) w'
          end
      | _ => interleave rest ts w
      end
  end.

Definition settled {A} (t : Task A) : bool :=
  match t with Await _ => false | _ => true end.

(** One call resumed [m] times in a row, as far as it is suspended. *)
Fixpoint resume {A} (m : nat) (t : Task A) (w : World) : World * Task A :=
  match m, t with
  | S m', Await k => match k (drain w) with (w', t') => resume m' t' w' end
  | _, _ => (w, t)
  end.

Definition count_events (f : Event → bool) (tr : list Event) : nat :=
  length (List.filter f tr).

Definition is_DhtCreate (e : Event) : bool :=
  match e with EvDhtCreate _ => true | _ => false end.
Definition is_SwarmNew (e : Event) : bool :=
  match e with EvSwarmNew _ _ => true | _ => false end.
Definition is_SwarmOn (e : Event) : bool :=
  match e with EvSwarmOn _ => true | _ => false end.
Definition is_DriveNew (e : Event) : bool :=
  match e with EvDriveNew _ _ => true | _ => false end.
Definition is_JoinPeer (e : Event) : bool :=
  match e with EvJoinPeer _ _ => true | _ => false end.
Definition is_Join (topic : Key) (e : Event) : bool :=
  match e with EvJoin _ t => bool_decide (t = topic) | _ => false end.
Definition is_FindingPeers (k : Key) (e : Event) : bool :=
  match e with EvFindingPeers _ k' => bool_decide (k' = k) | _ => false end.
Definition is_StoreClose (e : Event) : bool :=
  match e with EvStoreClose => true | _ => false end.
Definition is_SwarmDestroy (e : Event) : bool :=
  match e with EvSwarmDestroy _ => true | _ => false end.
Definition is_SwarmListen (e : Event) : bool :=
  match e with EvSwarmListen _ => true | _ => false end.
Definition is_ProtocolNew (e : Event) : bool :=
  match e with EvProtocolNew _ _ => true | _ => false end.
Definition is_DrivePut (e : Event) : bool :=
  match e with EvDrivePut _ _ => true | _ => false end.
Definition is_CorestoreNew (e : Event) : bool :=
  match e with EvCorestoreNew => true | _ => false end.
Definition is_Goodbye (e : Event) : bool :=
  match e with EvGoodbye => true | _ => false end.

(** ** The older class, [packages/slashtag/index.js] *)

Module Legacy.

Inductive Event : Type :=
| EvDhtConnect (socket : nat) (k : Key)
| EvReplicate (socket : nat)
| EvEmitConnection (socket : nat)
| EvCorestoreClose
| EvRemoveAllListeners
| EvServerClose
| EvSocketDestroy (socket : nat)
| EvDhtDestroy
| EvEmitClose (subscribers : nat)
| EvKeyPair
| EvDhtNew
| EvCreateServer
| EvCorestoreNew
| EvCorestoreGet (k : Key)
| EvServerListen (k : Key).

#[global] Instance legacy_event_eq_dec : EqDecision Event.
Proof. solve_decision. Defined.

Record Slashtag : Type := mkSlashtag {
  keyPair : KeyPair;
  key : Key;
  _shouldDestroyDHT : bool;
  sockets : gmap Key Conn;
  listening : bool;
  _closing : bool;                  (* the promise of [_close()] exists *)
  closed : bool;
  subscribers : nat                 (* listeners registered with [on] *)
}.

Record World : Type := mkWorld {
  this : Slashtag;
  next_id : nat;
  trace : list Event
}.

Definition upd (f : Slashtag → Slashtag) (es : list Event) (w : World) : World :=
  mkWorld (f (this w)) (next_id w) (trace w ++ es).

Definition set_sockets (v : gmap Key Conn) (s : Slashtag) : Slashtag :=
  mkSlashtag (keyPair s) (key s) (_shouldDestroyDHT s) v (listening s) (_closing s)
    (closed s) (subscribers s).
Definition set_listening (v : bool) (s : Slashtag) : Slashtag :=
  mkSlashtag (keyPair s) (key s) (_shouldDestroyDHT s) (sockets s) v (_closing s)
    (closed s) (subscribers s).
Definition set_closing (v : bool) (s : Slashtag) : Slashtag :=
  mkSlashtag (keyPair s) (key s) (_shouldDestroyDHT s) (sockets s) (listening s) v
    (closed s) (subscribers s).
Definition set_closed (v : bool) (s : Slashtag) : Slashtag :=
  mkSlashtag (keyPair s) (key s) (_shouldDestroyDHT s) (sockets s) (listening s)
    (_closing s) v (subscribers s).
Definition set_subscribers (v : nat) (s : Slashtag) : Slashtag :=
  mkSlashtag (keyPair s) (key s) (_shouldDestroyDHT s) (sockets s) (listening s)
    (_closing s) (closed s) v.

(** Where the [async] function [_close()] stands: not called, suspended at
    one of its four [await]s, or returned. *)
Inductive Teardown : Type :=
| NotStarted
| AtCorestoreClose                  (* await this.corestore.close() *)
| AtUnlisten                        (* await this.unlisten() *)
| AtSocketDestroy                   (* await socket.destroy(), in the loop *)
| AtDhtDestroy                      (* await (this._shouldDestroyDHT && ...) *)
| Finished.

#[global] Instance legacy_teardown_eq_dec : EqDecision Teardown.
Proof. solve_decision. Defined.

(** The object with its teardown. *)
Record Running : Type := mkRunning { world : World; teardown : Teardown }.

Inductive Target : Type :=
| TKey (k : Key)
| TString (s : string).

(** The options of the constructor; [o_dht] tells whether a DHT was
    passed in. *)
Record Opts : Type := mkOpts {
  o_keyPair : option KeyPair;
  o_bootstrap : option (list (string * nat));
  o_dht : bool
}.

(** [constructor(opts)]; [generated] is the pair [keyPair()] returns when
    it is called. *)
Definition constructor (opts : Opts) (generated : KeyPair) : World :=
  let kp := default generated (o_keyPair opts) in
  mkWorld (mkSlashtag kp (publicKey kp) (negb (o_dht opts)) ∅ false false false 0) 0
    (match o_keyPair opts with Some _ => [] | None => [EvKeyPair] end
     ++ (if o_dht opts then [] else [EvDhtNew])
     ++ [EvCreateServer; EvCorestoreNew; EvCorestoreGet (publicKey kp)]).

(** [on('close', listener)] *)
Definition on (w : World) : World :=
  upd (fun s => set_subscribers (S (subscribers s)) s) [] w.

(** [listen()]: the promise of [server.listen] is kept in [listening]. *)
Definition listen (w : World) : World :=
  if listening (this w) then w
  else upd (set_listening true) [EvServerListen (publicKey (keyPair (this w)))] w.

(** [unlisten()] *)
Definition unlisten (w : World) : World := upd (set_listening false) [EvServerClose] w.

(** How often a call was made. *)
Definition occurrences (e : Event) (tr : list Event) : nat :=
  length (List.filter (fun x => bool_decide (x = e)) tr).

Definition is_EmitClose (e : Event) : bool :=
  match e with EvEmitClose _ => true | _ => false end.

(** The [DHT] has been asked to destroy itself, or would have been. *)
Definition past_sockets (s : Teardown) : bool :=
  match s with AtDhtDestroy | Finished => true | _ => false end.

(** Every socket of the registry is registered under its own remote
    public key. *)
Definition keyed (w : World) : Prop :=
  ∀ k c, sockets (this w) !! k = Some c → remotePublicKey c = k.

Section Legacy.

(** [parse] and [decode] of the url package. *)
Context (parse decode : string → Result Key).

Definition starts_with_slash (s : string) : bool := is_some (strip_prefix "slash" s).

Definition resolve (t : Target) : Result Key :=
  match t with
  | TKey k => Ok k
  | TString s => if starts_with_slash s then parse s else decode s
  end.

(** [_handleConnection(socket)] *)
Definition _handleConnection (socket : Conn) (w : World) : World * Conn :=
  let w1 := upd id [EvReplicate (conn_id socket)] w in
  let w2 := upd (fun s => set_sockets (<[remotePublicKey socket := socket]> (sockets s)) s)
              [EvEmitConnection (conn_id socket)] w1 in
  (w2, socket).

(** [connect(key)]; the socket [dht.connect] returns carries the key it
    was asked for as its [remotePublicKey]. *)
Definition connect (t : Target) (w : World) : World * Result Conn :=
  match resolve t with
  | Err e => (w, Err e)
  | Ok _key =>
      match sockets (this w) !! _key with
      | Some existing => (w, Ok existing)
      | None =>
          let socket := mkConn (next_id w) _key in
          let w1 := mkWorld (this w) (S (next_id w))
                      (trace w ++ [EvDhtConnect (conn_id socket) _key]) in
          let r := _handleConnection socket w1 in
          (r.1, Ok r.2)
      end
  end.

(** The ['close'] handler of a socket. *)
Definition socket_closed (socket : Conn) (w : World) : World :=
  upd (fun s => set_sockets (delete (remotePublicKey socket) (sockets s)) s) [] w.

(** [close()] up to its return: [_close()] has run up to its first
    [await], so [corestore.close()] has been called; its promise is kept
    and the listeners are removed. *)
Definition close_prefix (w : World) : World :=
  if _closing (this w) then w
  else
    let w1 := upd (set_closing true) [EvCorestoreClose] w in
    upd (set_subscribers 0) [EvRemoveAllListeners] w1.

(** The server handing a new socket from peer [k] to [_handleConnection]. *)
Definition incoming (k : Key) (w : World) : World * Conn :=
  _handleConnection (mkConn (next_id w) k) (mkWorld (this w) (S (next_id w)) (trace w)).

(** [close()]: a first call starts [_close()], which is suspended at its
    first [await] when the call returns. *)
Definition close (r : Running) : Running :=
  if _closing (this (world r)) then r
  else mkRunning (close_prefix (world r)) AtCorestoreClose.

(** [_close()] resumed from the [await] it is suspended at, up to the next
    one.  [next] is what the iteration over [this.sockets.values()] yields
    when the loop asks it for a socket, [None] when it is done: what a
    [HashMap] yields while its entries come and go is not settled by the
    sources at hand.  [socket.destroy()] is the call only: the ['close']
    event of the socket is a turn of its own.  The calls that are awaited
    are taken to resolve. *)
Definition resume (next : option Conn) (r : Running) : Running :=
  let w := world r in
  match teardown r with
  | NotStarted | Finished => r
  | AtCorestoreClose => mkRunning (unlisten w) AtUnlisten
  | AtUnlisten | AtSocketDestroy =>
      match next with
      | Some socket =>
          mkRunning (upd id [EvSocketDestroy (conn_id socket)] w) AtSocketDestroy
      | None =>
          mkRunning (if _shouldDestroyDHT (this w) then upd id [EvDhtDestroy] w else w)
            AtDhtDestroy
      end
  | AtDhtDestroy =>
      let w1 := upd (set_closed true) [] w in
      mkRunning (upd id [EvEmitClose (subscribers (this w1))] w1) Finished
  end.

(** One turn of the event loop: a call on the object, an event of the
    server or of a socket, or the resumption of [_close()]. *)
Inductive Turn : Type :=
| CallOn
| CallListen
| CallUnlisten
| CallConnect (t : Target)
| CallClose
| ServerConnection (k : Key)
| SocketClosed (socket : Conn)
| Resume (next : option Conn).

Definition is_CallOn (t : Turn) : bool :=
  match t with CallOn => true | _ => false end.

Definition is_CallClose (t : Turn) : bool :=
  match t with CallClose => true | _ => false end.

(** How many listeners [on] has registered after the first [close()]. *)
Fixpoint registered_after_close (ts : list Turn) : nat :=
  match ts with
  | [] => 0
  | t :: ts' =>
      if is_CallClose t then length (List.filter is_CallOn ts')
      else registered_after_close ts'
  end.

Definition turn (r : Running) (t : Turn) : Running :=
  let w := world r in
  match t with
  | CallOn => mkRunning (on w) (teardown r)
  | CallListen => mkRunning (listen w) (teardown r)
  | CallUnlisten => mkRunning (unlisten w) (teardown r)
  | CallConnect target => mkRunning (connect target w).1 (teardown r)
  | CallClose => close r
  | ServerConnection k => mkRunning (incoming k w).1 (teardown r)
  | SocketClosed socket => mkRunning (socket_closed socket w) (teardown r)
  | Resume next => resume next r
  end.

Definition run (ts : list Turn) (r : Running) : Running := foldl turn r ts.

(** The object [new Slashtag(opts)] builds, and where it is after the
    turns [ts]. *)
Definition new (opts : Opts) (generated : KeyPair) : Running :=
  mkRunning (constructor opts generated) NotStarted.

Definition life (opts : Opts) (generated : KeyPair) (ts : list Turn) : Running :=
  run ts (new opts generated).

(** [await close()] with nothing else happening in between, the iteration
    yielding [yields]. *)
Definition close_alone (yields : list Conn) : list Turn :=
  CallClose :: Resume None :: map (fun c => Resume (Some c)) yields
    ++ [Resume None; Resume None].

(** What holds of the object all along its life: the registry is keyed
    by the sockets' own keys, the identity is the one of the constructor,
    the DHT is owned exactly when none was passed in, [_closing] is set
    exactly when [_close()] has been started and [closed] exactly when it
    has returned. *)
Record coherent (opts : Opts) (generated : KeyPair) (r : Running) : Prop := {
  coherent_keyed : keyed (world r);
  coherent_keyPair : keyPair (this (world r)) = default generated (o_keyPair opts);
  coherent_key : key (this (world r)) = publicKey (keyPair (this (world r)));
  coherent_dht : _shouldDestroyDHT (this (world r)) = negb (o_dht opts);
  coherent_closing :
    _closing (this (world r)) = negb (bool_decide (teardown r = NotStarted));
  coherent_closed : closed (this (world r)) = bool_decide (teardown r = Finished)
}.

(** The account of the teardown after the turns [ts]: [_closing] is set
    exactly when [close()] was called; the store was closed once if it is
    set and never otherwise; the DHT was destroyed once if the teardown
    got that far and the object owns it, and never otherwise; ['close'] was
    emitted once if the object is closed and never otherwise; and since the
    first [close()] there are no more listeners than [on] has registered
    after it, at any emission either. *)
Record accounted (opts : Opts) (ts : list Turn) (r : Running) : Prop := {
  accounted_closing : _closing (this (world r)) = existsb is_CallClose ts;
  accounted_store :
    occurrences EvCorestoreClose (trace (world r))
      = if _closing (this (world r)) then 1 else 0;
  accounted_dht :
    occurrences EvDhtDestroy (trace (world r))
      = if past_sockets (teardown r) && negb (o_dht opts) then 1 else 0;
  accounted_emit :
    length (List.filter is_EmitClose (trace (world r)))
      = if closed (this (world r)) then 1 else 0;
  accounted_listeners :
    _closing (this (world r)) = true →
    (subscribers (this (world r)) ≤ registered_after_close ts)%nat;
  accounted_notified :
    ∀ n, EvEmitClose n ∈ trace (world r) → (n ≤ registered_after_close ts)%nat
}.

End Legacy.

End Legacy.

(** ** Worlds between calls *)

Section Worlds.

Context {hashes : DriveHashes}.

(** The first [ready()] in one piece: what it leaves of a world in which
    nothing is queued and the public drive is not cached. *)
Definition ready_init (w : World) : World :=
  let n := next_id w in
  let s := S n in
  let d := S (S n) in
  let k := key (this w) in
  mkWorld
    (set_publicDrive (Some d)
       (set_drives (<[k := d]> (_drives (this w)))
          (set_ready true (set_swarm (Some s) (this w)))))
    (S (S (S n)))
    (alter add_handler s (<[s := mkSwarm n (keyPair (this w)) ∅ ∅ 0 false]> (swarms w)))
    (<[d := mkDrive k (discovery_key k) (is_some (keyPair (this w)) || false)]> (drives w))
    (files w) (net w) []
    (trace w ++ [EvDhtCreate n; EvSwarmNew s n; EvSwarmOn s; EvDriveNew d k;
                 EvDriveReady d; EvJoin s (discovery_key k); EvFindingPeers d k;
                 EvDriveUpdate d; EvFlush s; EvPeersDone d]).

(** The session of a world in which [ready()] has run: the swarm, and the
    public drive on the identity's own key, writable when the identity can
    sign, a handle allocated in the past. *)
Definition session (w : World) : Prop :=
  ∃ s d D, swarm (this w) = Some s ∧ publicDrive (this w) = Some d ∧
           drives w !! d = Some D ∧ drive_key D = key (this w) ∧
           writable D = is_some (keyPair (this w)) ∧ d < next_id w.

(** What holds of a world between two calls that are awaited one after the
    other: nothing is queued, no drive is cached before [ready()] has run,
    and after it the session is there. *)
Record settled_world (w : World) : Prop := {
  settled_jobs : jobs w = [];
  settled_identity : remote (this w) = negb (is_some (keyPair (this w)));
  settled_fresh : _ready (this w) = false → _drives (this w) = ∅;
  settled_session : _ready (this w) = true → session w
}.

(** [protocol] touches the registry, the allocator and the trace only. *)
Definition protocols_frame (w w' : World) : Prop :=
  w' = set_trace (trace w') (set_next_id (next_id w')
         (upd_this (set_protocols (_protocols (this w'))) w)).

(** The handlers of a new connection log, and change nothing else. *)
Definition trace_frame (w w' : World) : Prop := w' = set_trace (trace w') w.

(** The same world with the [closed] flag forced to [b]. *)
Definition with_closed (b : bool) (w : World) : World := upd_this (set_closed b) w.

Definition map_world {A} (f : World → World) (r : World * Result A) : World * Result A :=
  (f r.1, r.2).

(** A call that neither reads nor writes the [closed] flag: run alone, it
    does the same whatever the flag is. *)
Definition closed_blind {A} (m : Async A) : Prop :=
  ∀ b w, exec m (with_closed b w) = map_world (with_closed b) (exec m w).

Definition closed_blind_sync {A} (m : Sync A) : Prop :=
  ∀ b w, m (with_closed b w) = map_world (with_closed b) (m w).

(** The bytes under [profile.json] in the identity's own drive. *)
Definition stored_profile (w : World) : option (list byte) :=
  files w !! key (this w) ≫= (fun fs => fs !! DRIVE_KEYS_profile).

(** What the caller of [getProfile()] holds once it has resolved: [null]
    when nothing was found, which is also what the text [null] parses to. *)
Definition profile_value (r : option JSON) : JSON := default JNull r.

(** The key [drive(opts)] resolves to. *)
Definition resolved_key (opts : DriveOpts) (w : World) : Key :=
  match do_key opts with
  | Some k => k
  | None =>
      match do_keyPair opts with
      | Some kp => publicKey kp
      | None => derive_key (store (this w)) (default EmptyString (do_name opts))
      end
  end.

Definition new_handle (opts : DriveOpts) (w : World) : Drive :=
  mkDrive (resolved_key opts w) (discovery_key (resolved_key opts w))
    (is_some (do_keyPair opts) || negb (is_some (do_key opts))).

(** [drive(opts)] after [ready()], in one piece, when the key is cached:
    the handle just built is dropped. *)
Definition drive_hit (opts : DriveOpts) (w : World) : World :=
  let d := next_id w in
  mkWorld (this w) (S d) (swarms w) (<[d := new_handle opts w]> (drives w))
    (files w) (net w) []
    (trace w ++ [EvDriveNew d (resolved_key opts w); EvDriveReady d]).

(** The same when the key is not cached, on swarm [s]. *)
Definition drive_miss (opts : DriveOpts) (s : nat) (w : World) : World :=
  let d := next_id w in
  let k := resolved_key opts w in
  mkWorld (set_drives (<[k := d]> (_drives (this w))) (this w)) (S d) (swarms w)
    (<[d := new_handle opts w]> (drives w)) (files w) (net w) []
    (trace w ++ [EvDriveNew d k; EvDriveReady d; EvJoin s (discovery_key k);
                 EvFindingPeers d k; EvDriveUpdate d; EvFlush s; EvPeersDone d]).

(** How often the discovery topic of key [k] was joined, and how often a
    drive on key [k] was asked for its finding-peers acknowledgement. *)
Definition announcements (k : Key) (tr : list Event) : nat :=
  count_events (is_Join (discovery_key k)) tr.
Definition acknowledgements (k : Key) (tr : list Event) : nat :=
  count_events (is_FindingPeers k) tr.

(** What the methods keep besides: the registry of protocols exists on a
    local identity and only there; a cached drive is a handle allocated in
    the past on the key it is cached under; and once [ready()] has run the
    public drive is the drive cached under the identity's own key. *)
Record steady (w : World) : Prop := {
  steady_settled : settled_world w;
  steady_registry : is_some (_protocols (this w)) = negb (remote (this w));
  steady_cache : ∀ K d, _drives (this w) !! K = Some d →
                   d < next_id w ∧ drive_key <$> drives w !! d = Some K;
  steady_public : _ready (this w) = true →
                  _drives (this w) !! key (this w) = publicDrive (this w)
}.

(** A method that leaves [w'] of [w] keeps the invariant, evicts and
    replaces no cached drive, leaves the identity on its key and its store,
    and does not take the session back. *)
Definition keeps (w w' : World) : Prop :=
  steady w' ∧ _drives (this w) ⊆ _drives (this w') ∧
  key (this w') = key (this w) ∧ keyPair (this w') = keyPair (this w) ∧
  remote (this w') = remote (this w) ∧ store (this w') = store (this w) ∧
  (_ready (this w) = true → _ready (this w') = true).

(** *** Calls of [drive] in flight together *)

(** [drive(opts)] once its [drive.ready()] has resolved: the check of the
    cache and what follows, [d] being the handle the call built. *)
Definition drive_checked (d : nat) : unit → Async nat := fun _ =>
  call! D := drive_lookup d in
  call! existing := gets (fun w => _drives (this w) !! drive_key D) in
  match existing with
  | Some e => ret e
  | None =>
      call! _ := modify (upd_this (fun s => set_drives (<[drive_key D := d]> (_drives s)) s)) in
      call! _ := _setupDiscovery d D in
      await! _ := SlashDrive_update d in
      ret d
  end.

(** Where a [drive(opts)] call on key [K], issued on an identity on which
    [ready()] has run, can be in world [w]: the task it is suspended in or
    has settled to, with the number of resumptions it takes at most to
    settle. *)
Inductive drive_stage (opts : DriveOpts) (K : Key) (w : World) : nat → Task nat → Prop :=
| stage_issued :
    drive_stage opts K w 5 (Await (drive_rest opts))
| stage_building d wr :
    drives w !! d = Some (mkDrive K (discovery_key K) wr) → d < next_id w →
    drive_stage opts K w 4 (then_ (later (Ok tt)) (drive_checked d))
| stage_built d wr :
    drives w !! d = Some (mkDrive K (discovery_key K) wr) → d < next_id w →
    drive_stage opts K w 3 (then_ (Ret tt) (drive_checked d))
| stage_updating d :
    _drives (this w) !! K = Some d →
    drive_stage opts K w 2 (then_ (later (Ok tt)) (fun _ => ret d))
| stage_updated d :
    _drives (this w) !! K = Some d →
    drive_stage opts K w 1 (then_ (Ret tt) (fun _ => ret d))
| stage_resolved d :
    _drives (this w) !! K = Some d →
    drive_stage opts K w 0 (Ret d).

(** What holds of the world all along a run of such calls that starts with
    the topic of [K] joined [a0] times: the options resolve to [K], the
    swarm is there, and the topic has been joined once more exactly when a
    drive on [K] is cached. *)
Record drive_run (opts : DriveOpts) (K : Key) (a0 : nat) (w : World) : Prop := {
  run_key : resolved_key opts w = K;
  run_swarm : is_some (swarm (this w)) = true;
  run_announced :
    announcements K (trace w)
      = a0 + match _drives (this w) !! K with Some _ => 1 | None => 0 end
}.

(** What a resumption may change: handles are added, the cache entry of
    [K], once set, stays. *)
Record drive_grows (K : Key) (w w' : World) : Prop := {
  grows_next : (next_id w ≤ next_id w')%nat;
  grows_heap : ∀ d, d < next_id w → drives w' !! d = drives w !! d;
  grows_cache : ∀ d, _drives (this w) !! K = Some d → _drives (this w') !! K = Some d
}.

End Worlds.

(** ** Sample identities *)

Module Sample.

Definition keyA : Key := [x01; x02].
Definition keyB : Key := [x03; x04].
Definition kpA : KeyPair := mkKeyPair keyA [x09].

(** Stand-ins for the two hashes. *)
Definition hashes : DriveHashes :=
  {| derive_key ns name := (ns ++ b4a_from name)%list;
     discovery_key k := x00 :: k |}.

Definition local_opts : Opts := mkOpts None None (Some kpA) false None None.
Definition remote_opts : Opts := mkOpts None (Some keyB) None false None None.
Definition no_opts : Opts := mkOpts None None None false None None.

(** [new Slashtag({ keyPair })] and [new Slashtag({ key })], with a peer
    [keyB] on the network. *)
Definition local_world : World := (create local_opts [keyB]).1.
Definition remote_world : World := (create remote_opts []).1.

Definition chat : ProtocolClass := mkProtocolClass "chat".

Definition keyC : Key := [x05; x06].
Definition drive_opts : DriveOpts := mkDriveOpts None false (Some keyC) None None.

(** The local identity after [await ready()], after [await close()], and
    after [await connect(keyB)]. *)
Definition ready_world : World := (exec (ready (hashes := hashes)) local_world).1.
Definition closed_world : World := (exec close local_world).1.
Definition connected_world : World :=
  (exec (connect (hashes := hashes) (TKey keyB)) local_world).1.
Definition connB : Conn := mkConn 3 keyB.
Definition connectedB : Connected :=
  match (exec (connect (hashes := hashes) (TKey keyB)) local_world).2 with
  | Ok (Some c) => c
  | _ => mkConnected connB None
  end.

(** Two [ready()] calls issued together, then resumed in turn. *)
Definition two_ready : World * list (Task (option bool)) :=
  start_all [ready (hashes := hashes); ready (hashes := hashes)] local_world.
Definition round_robin : list nat := [0; 1; 0; 1; 0; 1; 0; 1; 0; 1; 0; 1; 0; 1; 0; 1].
Definition two_ready_done : World * list (Task (option bool)) :=
  interleave round_robin two_ready.2 two_ready.1.

(** A remote and a local identity given protocols, one of them twice. *)
Definition remote_chat_opts : Opts := mkOpts None (Some keyB) None false (Some [chat]) None.
Definition mail : ProtocolClass := mkProtocolClass "mail".
Definition local_chat_opts : Opts :=
  mkOpts None None (Some kpA) false (Some [chat; mail; chat]) None.

(** A second drive, on the key of the peer. *)
Definition drive_opts_B : DriveOpts := mkDriveOpts None false (Some keyB) None None.

(** Two calls resumed in turn, five times each. *)
Definition five_rounds : list nat := [0; 1; 0; 1; 0; 1; 0; 1; 0; 1].

(** The older class: an object that generates its key pair and its DHT,
    after the server has accepted a socket from [keyB], and two sockets of
    that peer. *)
Definition legacy_opts : Legacy.Opts := Legacy.mkOpts None None false.
Definition legacy_world : Legacy.World := Legacy.constructor legacy_opts kpA.
Definition legacy_parse (s : string) : Result Key := Err InvalidURL.
Definition legacy_accepted : Legacy.World := (Legacy.incoming keyB legacy_world).1.
Definition socket1 : Conn := mkConn 0 keyB.
Definition socket2 : Conn := mkConn 1 keyB.

(** Identities named by a url, alone and beside a key and a key pair that
    name other keys. *)
Definition keyC_url : string := "slash://0506".
Definition url_opts : Opts := mkOpts (Some keyC_url) None None false None None.
Definition key_url_opts : Opts := mkOpts (Some keyC_url) (Some keyB) None false None None.
Definition all_opts : Opts := mkOpts (Some keyC_url) (Some keyB) (Some kpA) false None None.

(** A profile with a control character in a string and a number that is
    not an integer, and the local identity with given bytes stored under
    [profile.json] in its own drive. *)
Definition bob : JSON :=
  JObject [("name", JString (String "009" "bob"));
           ("height", JNumber (Number_of_decimal false 185 (-2)))].
Definition with_profile (bytes : list byte) : World :=
  set_files {[keyA := {[DRIVE_KEYS_profile := bytes]}]} local_world.

(** One [ready()] resumed twice: the flag is set, the public drive is not
    there yet. *)
Definition ready_midway : World :=
  (interleave [0; 0] (start_all [ready (hashes := hashes)] local_world).2
     (start_all [ready (hashes := hashes)] local_world).1).1.

End Sample.

(** * Properties *)

Close Scope string_scope.

(** ** The microtask queue only adds to the trace *)

Lemma foldl_run_job_frame (js : list Job) (w : World) :
  let w' := foldl run_job w js in
  this w' = this w ∧ next_id w' = next_id w ∧ swarms w' = swarms w ∧
  drives w' = drives w ∧ files w' = files w ∧ net w' = net w ∧ jobs w' = jobs w.
Proof.
  revert w. induction js as [|j js IH]; intros w; simpl; [tauto|].
  destruct (IH (run_job w j)) as (H1 & H2 & H3 & H4 & H5 & H6 & H7).
  rewrite H1, H2, H3, H4, H5, H6, H7.
  destruct j; simpl. destruct (swarm (this w)); simpl; tauto.
Qed.

Lemma drain_this w : this (drain w) = this w.
Proof. unfold drain; simpl. apply (foldl_run_job_frame (jobs w) w). Qed.
Lemma drain_next_id w : next_id (drain w) = next_id w.
Proof. unfold drain; simpl. apply (foldl_run_job_frame (jobs w) w). Qed.
Lemma drain_swarms w : swarms (drain w) = swarms w.
Proof. unfold drain; simpl. apply (foldl_run_job_frame (jobs w) w). Qed.
Lemma drain_drives w : drives (drain w) = drives w.
Proof. unfold drain; simpl. apply (foldl_run_job_frame (jobs w) w). Qed.
Lemma drain_files w : files (drain w) = files w.
Proof. unfold drain; simpl. apply (foldl_run_job_frame (jobs w) w). Qed.
Lemma drain_net w : net (drain w) = net w.
Proof. unfold drain; simpl. apply (foldl_run_job_frame (jobs w) w). Qed.
Lemma drain_jobs w : jobs (drain w) = [].
Proof. reflexivity. Qed.

Lemma World_eta (w : World) :
  w = mkWorld (this w) (next_id w) (swarms w) (drives w) (files w) (net w) (jobs w) (trace w).
Proof. by destruct w. Qed.

(** With nothing queued, a tick boundary changes nothing. *)
Lemma drain_quiet w : jobs w = [] → drain w = w.
Proof. intros H. unfold drain. rewrite H. simpl. rewrite (World_eta w) at 2. by rewrite H. Qed.

Lemma drain_idem w : drain (drain w) = drain w.
Proof. apply drain_quiet, drain_jobs. Qed.

(** Remove the tick boundaries of a world with an empty queue. *)
Ltac quiesce := rewrite ?drain_quiet by (simpl; done).

Ltac queue_empty :=
  simpl; repeat match goal with H : jobs _ = [] |- _ => rewrite H end; done.

Lemma World_ext (a b : World) :
  this a = this b → next_id a = next_id b → swarms a = swarms b → drives a = drives b →
  files a = files b → net a = net b → jobs a = jobs b → trace a = trace b → a = b.
Proof. destruct a, b. simpl. by intros -> -> -> -> -> -> -> ->. Qed.

(** The one continuation [drive] leaves queued runs at the next tick. *)
Lemma drain_one (w : World) (d s : nat) :
  jobs w = [JobDiscovery d] → swarm (this w) = Some s →
  drain w = set_jobs [] (log [EvFlush s; EvPeersDone d] w).
Proof. intros Hj Hs. unfold drain. rewrite Hj. simpl. by rewrite Hs. Qed.

(** Run what is queued at a tick boundary. *)
Ltac drain_step :=
  match goal with
  | |- context [drain ?x] =>
      first [ rewrite (drain_quiet x) by queue_empty
            | erewrite (drain_one x) by (first [queue_empty | simpl; eassumption]) ]
  end.

(** Two worlds written out are equal field by field. *)
Ltac same_world :=
  apply World_ext; simpl; try done; repeat rewrite <- app_assoc; reflexivity.

Lemma count_events_app (f : Event → bool) (a b : list Event) :
  count_events f (a ++ b) = count_events f a + count_events f b.
Proof. unfold count_events. by rewrite List.filter_app, length_app. Qed.

Lemma count_events_nil (f : Event → bool) : count_events f [] = 0.
Proof. reflexivity. Qed.

Lemma count_events_cons (f : Event → bool) (e : Event) (l : list Event) :
  count_events f (e :: l) = (if f e then 1 else 0) + count_events f l.
Proof. unfold count_events. simpl. by destruct (f e). Qed.

Ltac count_trace :=
  rewrite ?count_events_app, ?count_events_cons, ?count_events_nil; simpl.

(** ** Keys and urls *)

Lemma hex_byte_roundtrip (b : byte) (s : string) :
  b4a_fromHex (String (hex_digit (Byte.to_N b / 16))
                 (String (hex_digit (Byte.to_N b mod 16)) s))
  = cons b <$> b4a_fromHex s.
Proof. destruct b; cbn; by destruct (b4a_fromHex s). Qed.

Lemma hex_roundtrip (k : Key) : b4a_fromHex (b4a_toHex k) = Some k.
Proof.
  induction k as [|b k IH]; [done|].
  cbn [b4a_toHex]. by rewrite hex_byte_roundtrip, IH.
Qed.

Lemma strip_prefix_app (p s : string) : strip_prefix p (String.append p s) = Some s.
Proof.
  induction p as [|a p IH]; simpl; [done|]. by rewrite bool_decide_eq_true_2.
Qed.

(** The url of a key parses back to the key, as the spec asks of the
    encoding. *)
Lemma SlashURL_roundtrip (u : SlashURL) : SlashURL_parse (SlashURL_toString u) = Ok u.
Proof.
  unfold SlashURL_parse, SlashURL_toString. rewrite strip_prefix_app, hex_roundtrip.
  by destruct u.
Qed.

(** ** JSON text *)

Example alice_text : String.length (JSON_stringify alice) = 16.
Proof. reflexivity. Qed.

Example alice_serializable : JSON_serializable alice.
Proof. vm_compute. reflexivity. Qed.

Example array_serializable :
  JSON_serializable
    (JArray [JNumber (Number_of_Z (-12)); JNull; JBool true; JObject [];
             JString "a b"; JNumber (Number_of_decimal false 15 (-1))]).
Proof. vm_compute. reflexivity. Qed.

(** Control characters are written as escapes and read back from them; a
    control character that stands in a string literal as it is, is an
    error. *)
Example control_characters_escaped :
  JSON_stringify (JString (String "009" (String "001" "a")))
    = String "034" ("\t\u0001a" ++ String "034" EmptyString) ∧
  JSON_serializable (JString (String "009" (String "001" "a"))) ∧
  JSON_parse (String "034" (String "009" (String "034" EmptyString))) = Err SyntaxError.
Proof. vm_compute. by split_and!. Qed.

(** Number literals: no leading zero; fractions and exponents are read;
    the value is the nearest double, printed with as few digits as give it
    back. *)
Example number_literals :
  JSON_parse "01" = Err SyntaxError ∧
  JSON_parse "1.5" = Ok (JNumber (Number_of_decimal false 15 (-1))) ∧
  JSON_parse "1e3" = Ok (JNumber (Number_of_Z 1000)) ∧
  JSON_parse "9007199254740993" = Ok (JNumber (Number_of_Z 9007199254740992)) ∧
  JSON_stringify (JNumber (Number_of_decimal false 1 (-1))) = "0.1" ∧
  JSON_stringify (JNumber (Number_of_Z (10 ^ 21))) = "1e+21" ∧
  JSON_stringify (JNumber (S754_zero true)) = "0" ∧
  JSON_stringify (JNumber (S754_infinity false)) = "null".
Proof. vm_compute. by split_and!. Qed.

(** A key that comes twice keeps its first place and its last value, and
    array indices come first. *)
Example object_properties :
  own_properties [("b", 1); ("a", 2); ("1", 3); ("b", 4)] = [("1", 3); ("b", 4); ("a", 2)].
Proof. reflexivity. Qed.

(** ** Awaiting, seen from a caller that runs alone *)

Lemma settle_then {A B} (t : Task A) (f : A → Async B) (w : World) :
  settle (then_ t f) w = bind_result (settle t w) (fun a => exec (f a)).
Proof.
  revert w. induction t as [a|e|k IH] using Task_ind; intros w; try reflexivity.
  simpl. specialize (IH (drain w)). by destruct (k (drain w)) as [w' t'].
Qed.

Lemma exec_await {A B} (m : Async A) (f : A → Async B) (w : World) :
  exec (await m f) w = bind_result (exec m w) (fun a => exec (f a)).
Proof. unfold exec, await. destruct (m w) as [w1 t]. apply settle_then. Qed.

Lemma bind_result_ok {A B} (w : World) (a : A) (f : A → World → World * Result B) :
  bind_result (w, Ok a) f = f a w.
Proof. reflexivity. Qed.

Lemma bind_result_err {A B} (w : World) (e : Error) (f : A → World → World * Result B) :
  bind_result (w, @Err A e) f = (w, Err e).
Proof. reflexivity. Qed.

Lemma exec_call_ok {A B} (m : Sync A) (f : A → Async B) (w w1 : World) (a : A) :
  m w = (w1, Ok a) → exec (call m f) w = exec (f a) w1.
Proof. intros H. unfold exec, call. by rewrite H. Qed.

Lemma exec_call_err {A B} (m : Sync A) (f : A → Async B) (w w1 : World) (e : Error) :
  m w = (w1, Err e) → exec (call m f) w = (drain w1, Err e).
Proof. intros H. unfold exec, call. by rewrite H. Qed.

Lemma exec_gets {A B} (g : World → A) (f : A → Async B) (w : World) :
  exec (call (gets g) f) w = exec (f (g w)) w.
Proof. by apply exec_call_ok. Qed.

Lemma exec_modify {B} (g : World → World) (f : unit → Async B) (w : World) :
  exec (call (modify g) f) w = exec (f tt) (g w).
Proof. by apply exec_call_ok. Qed.

Lemma exec_emit {B} (es : list Event) (f : unit → Async B) (w : World) :
  exec (call (emit es) f) w = exec (f tt) (log es w).
Proof. by apply exec_call_ok. Qed.

Lemma exec_lift_ok {A B} (a : A) (f : A → Async B) (w : World) :
  exec (call (lift (Ok a)) f) w = exec (f a) w.
Proof. by apply exec_call_ok. Qed.

Lemma exec_lift_err {A B} (e : Error) (f : A → Async B) (w : World) :
  exec (call (lift (@Err A e)) f) w = (drain w, Err e).
Proof. by apply exec_call_err. Qed.

Lemma exec_ret {A} (a : A) w : exec (ret a) w = (drain w, Ok a).
Proof. reflexivity. Qed.

Lemma exec_throw {A} (e : Error) w : exec (@throw A e) w = (drain w, Err e).
Proof. reflexivity. Qed.

Lemma settle_later {A} (r : Result A) w : settle (later r) w = (drain w, r).
Proof. destruct r; simpl; by rewrite drain_idem. Qed.

(** Whatever a caller awaits alone leaves nothing queued. *)
Lemma settle_quiescent {A} (t : Task A) w : jobs (settle t w).1 = [].
Proof.
  revert w. induction t as [a|e|k IH] using Task_ind; intros w; try reflexivity.
  simpl. specialize (IH (drain w)). by destruct (k (drain w)) as [w' t'].
Qed.

Lemma exec_quiescent {A} (m : Async A) w : jobs (exec m w).1 = [].
Proof. unfold exec. destruct (m w) as [w1 t]. apply settle_quiescent. Qed.

(** ** The collaborators, awaited *)

Lemma exec_DHT_create (o : option SwarmOpts) (w : World) :
  exec (DHT_create o) w =
    (drain (log [EvDhtCreate (next_id w)] (set_next_id (S (next_id w)) w)), Ok (next_id w)).
Proof. unfold exec, DHT_create. apply settle_later. Qed.

Lemma exec_swarm_listen (s : nat) (w : World) :
  exec (swarm_listen s) w = (drain (log [EvSwarmListen s] w), Ok tt).
Proof. unfold exec, swarm_listen. apply settle_later. Qed.

Lemma exec_swarm_destroy (s : nat) (w : World) :
  exec (swarm_destroy s) w =
    (drain (log [EvSwarmDestroy s] (set_swarms (alter destroy_swarm s (swarms w)) w)), Ok tt).
Proof. unfold exec, swarm_destroy. apply settle_later. Qed.

Lemma exec_store_close (w : World) :
  exec store_close w = (drain (log [EvStoreClose] w), Ok tt).
Proof. unfold exec, store_close. apply settle_later. Qed.

Lemma exec_SlashDrive_ready (d : nat) (w : World) :
  exec (SlashDrive_ready d) w = (drain (log [EvDriveReady d] w), Ok tt).
Proof. unfold exec, SlashDrive_ready. apply settle_later. Qed.

Lemma exec_SlashDrive_update (d : nat) (w : World) :
  exec (SlashDrive_update d) w = (drain (log [EvDriveUpdate d] w), Ok tt).
Proof. unfold exec, SlashDrive_update. apply settle_later. Qed.

Lemma exec_SlashDrive_put (d : nat) (D : Drive) (path : string) (bytes : list byte) (w : World) :
  drives w !! d = Some D →
  exec (SlashDrive_put d path bytes) w =
    if writable D then
      (drain (log [EvDrivePut d path]
                (set_files (<[drive_key D :=
                                <[path := bytes]> (default ∅ (files w !! drive_key D))]>
                              (files w)) w)), Ok tt)
    else (drain w, Err DriveNotWritable).
Proof.
  intros HD. unfold exec, SlashDrive_put. rewrite HD.
  destruct (writable D); apply settle_later.
Qed.

Lemma exec_SlashDrive_get (d : nat) (D : Drive) (path : string) (w : World) :
  drives w !! d = Some D →
  exec (SlashDrive_get d path) w =
    (drain (log [EvDriveGet d path] w), Ok (files w !! drive_key D ≫= (fun fs => fs !! path))).
Proof. intros HD. unfold exec, SlashDrive_get. rewrite HD. apply settle_later. Qed.

Lemma Hyperswarm_new_run (o : option SwarmOpts) (kp : option KeyPair) (dht : nat) (w : World) :
  Hyperswarm_new o kp dht w =
    (log [EvSwarmNew (next_id w) dht]
       (set_swarms (<[next_id w := mkSwarm dht kp ∅ ∅ 0 false]> (swarms w))
          (set_next_id (S (next_id w)) w)), Ok (next_id w)).
Proof. reflexivity. Qed.

Lemma swarm_on_run (s : nat) (w : World) :
  swarm_on s w = (log [EvSwarmOn s] (set_swarms (alter add_handler s (swarms w)) w), Ok tt).
Proof. reflexivity. Qed.

Arguments exec : simpl never.
Arguments bind_result : simpl never.
Arguments ready_at : simpl never.
Arguments drain : simpl never.

(** One step of a method run alone. *)
Ltac exec_step :=
  first [ rewrite exec_gets | rewrite exec_modify | rewrite exec_emit
        | rewrite exec_await | rewrite bind_result_ok | rewrite bind_result_err
        | rewrite exec_lift_ok | rewrite exec_lift_err
        | rewrite exec_SlashDrive_ready | rewrite exec_SlashDrive_update
        | rewrite exec_DHT_create | rewrite exec_swarm_listen
        | rewrite exec_swarm_destroy | rewrite exec_store_close
        | rewrite exec_ret | rewrite exec_throw ];
  repeat drain_step; simpl.

(** ** The [closed] flag is read by [close] alone *)

Lemma with_closed_foldl (b : bool) (js : list Job) (w : World) :
  foldl run_job (with_closed b w) js = with_closed b (foldl run_job w js).
Proof.
  revert w. induction js as [|j js IH]; intros w; simpl; [done|].
  rewrite <- IH. f_equal. destruct j. simpl. by destruct (swarm (this w)).
Qed.

Lemma with_closed_drain (b : bool) (w : World) :
  drain (with_closed b w) = with_closed b (drain w).
Proof. unfold drain. simpl. by rewrite with_closed_foldl. Qed.

Lemma blind_ret {A} (a : A) : closed_blind (ret a).
Proof. intros b w. rewrite !exec_ret. unfold map_world. simpl. by rewrite with_closed_drain. Qed.

Lemma blind_throw {A} (e : Error) : closed_blind (@throw A e).
Proof. intros b w. rewrite !exec_throw. unfold map_world. simpl. by rewrite with_closed_drain. Qed.

Lemma blind_call {A B} (m : Sync A) (f : A → Async B) :
  closed_blind_sync m → (∀ a, closed_blind (f a)) → closed_blind (call m f).
Proof.
  intros Hm Hf b w. unfold exec, call. rewrite (Hm b w). unfold map_world.
  destruct (m w) as [w1 [a|e]]; simpl.
  - apply (Hf a b w1).
  - by rewrite with_closed_drain.
Qed.

Lemma blind_await {A B} (m : Async A) (f : A → Async B) :
  closed_blind m → (∀ a, closed_blind (f a)) → closed_blind (await m f).
Proof.
  intros Hm Hf b w. rewrite !exec_await, (Hm b w). unfold bind_result, map_world.
  destruct (exec m w) as [w1 [a|e]]; simpl; [apply (Hf a b w1)|done].
Qed.

Lemma blind_later {A} (g : World → World) (r : World → Result A) :
  (∀ b w, g (with_closed b w) = with_closed b (g w)) →
  (∀ b w, r (with_closed b w) = r w) →
  closed_blind (fun w => (g w, later (r w))).
Proof.
  intros Hg Hr b w. unfold exec. rewrite !settle_later, Hg, Hr. unfold map_world. simpl.
  by rewrite with_closed_drain.
Qed.

Lemma blind_gets {A} (g : World → A) :
  (∀ b w, g (with_closed b w) = g w) → closed_blind_sync (gets g).
Proof. intros Hg b w. unfold gets, map_world. simpl. by rewrite Hg. Qed.

Lemma blind_modify (g : World → World) :
  (∀ b w, g (with_closed b w) = with_closed b (g w)) → closed_blind_sync (modify g).
Proof. intros Hg b w. unfold modify, map_world. simpl. by rewrite Hg. Qed.

Lemma blind_emit (es : list Event) : closed_blind_sync (emit es).
Proof. by apply blind_modify. Qed.

Lemma blind_lift {A} (r : Result A) : closed_blind_sync (lift r).
Proof. done. Qed.

Lemma blind_sret {A} (a : A) : closed_blind_sync (sret a).
Proof. done. Qed.

Lemma blind_sthrow {A} (e : Error) : closed_blind_sync (@sthrow A e).
Proof. done. Qed.

Lemma blind_fresh : closed_blind_sync fresh.
Proof. done. Qed.

Lemma blind_sbind {A B} (m : Sync A) (f : A → Sync B) :
  closed_blind_sync m → (∀ a, closed_blind_sync (f a)) → closed_blind_sync (sbind m f).
Proof.
  intros Hm Hf b w. unfold sbind. rewrite (Hm b w). unfold map_world.
  destruct (m w) as [w1 [a|e]]; simpl; [apply (Hf a b w1)|done].
Qed.

(** Show a method blind to the [closed] flag, call by call. *)
Ltac blind :=
  repeat first
    [ apply blind_ret | apply blind_throw | apply blind_sret | apply blind_sthrow
    | apply blind_fresh | apply blind_emit | apply blind_lift
    | solve [apply blind_gets; intros; reflexivity]
    | solve [apply blind_modify; intros; reflexivity]
    | solve [apply blind_later; intros; reflexivity]
    | apply blind_call; [|intros ?]
    | apply blind_await; [|intros ?]
    | apply blind_sbind; [|intros ?]
    | match goal with
      | |- closed_blind (if ?x then _ else _) => destruct x
      | |- closed_blind (match ?x with _ => _ end) => destruct x
      | |- closed_blind_sync (if ?x then _ else _) => destruct x
      | |- closed_blind_sync (match ?x with _ => _ end) => destruct x
      end ].

Ltac exec_run := repeat exec_step; repeat drain_step.

Section Properties.

Context {hashes : DriveHashes}.

Lemma SlashDrive_new_run (opts : DriveOpts) (w : World) :
  SlashDrive_new opts (store (this w)) w =
    (log [EvDriveNew (next_id w) (resolved_key opts w)]
       (set_drive_heap (<[next_id w := new_handle opts w]> (drives w))
          (set_next_id (S (next_id w)) w)), Ok (next_id w)).
Proof. reflexivity. Qed.

Lemma _setupDiscovery_run (d : nat) (D : Drive) (s : nat) (w : World) :
  swarm (this w) = Some s →
  _setupDiscovery d D w =
    (enqueue (JobDiscovery d)
       (log [EvFindingPeers d (drive_key D)] (log [EvJoin s (discoveryKey D)] w)), Ok tt).
Proof. intros Hs. unfold _setupDiscovery, sbind, gets. by rewrite Hs. Qed.

Lemma drive_lookup_run (d : nat) (D : Drive) (w : World) :
  drives w !! d = Some D → drive_lookup d w = (w, Ok D).
Proof. intros HD. unfold drive_lookup. by rewrite HD. Qed.

(** ** Drives, after [ready] *)

Lemma exec_drive_rest_hit (opts : DriveOpts) (w : World) (e : nat) :
  jobs w = [] → _drives (this w) !! resolved_key opts w = Some e →
  exec (drive_rest opts) w = (drive_hit opts w, Ok e).
Proof.
  intros Hj Hc. unfold drive_rest. exec_step.
  rewrite (exec_call_ok _ _ _ _ _ (SlashDrive_new_run opts w)).
  do 3 exec_step. quiesce.
  erewrite exec_call_ok; [|apply drive_lookup_run; simpl; apply lookup_insert_eq].
  exec_step. simpl. rewrite Hc. exec_step. quiesce. f_equal. same_world.
Qed.

Lemma exec_drive_rest_miss (opts : DriveOpts) (w : World) (s : nat) :
  jobs w = [] → _drives (this w) !! resolved_key opts w = None →
  swarm (this w) = Some s →
  exec (drive_rest opts) w = (drive_miss opts s w, Ok (next_id w)).
Proof.
  intros Hj Hc Hs. unfold drive_rest. exec_step.
  rewrite (exec_call_ok _ _ _ _ _ (SlashDrive_new_run opts w)).
  do 3 exec_step. quiesce.
  erewrite exec_call_ok; [|apply drive_lookup_run; simpl; apply lookup_insert_eq].
  exec_step. simpl. rewrite Hc. exec_step.
  erewrite exec_call_ok; [|apply (_setupDiscovery_run _ _ s); simpl; exact Hs].
  do 4 exec_step. repeat drain_step. f_equal. same_world.
Qed.

(** ** Becoming ready *)

Lemma ready_at_memo (n : nat) (w : World) :
  _ready (this w) = true → ready_at n w = (w, Ret (Some true)).
Proof. intros Hr. destruct n; unfold ready_at, ready_body, call, gets; simpl; by rewrite Hr. Qed.

Lemma exec_ready_at_memo (n : nat) (w : World) :
  jobs w = [] → _ready (this w) = true → exec (ready_at n) w = (w, Ok (Some true)).
Proof.
  intros Hj Hr. unfold exec. rewrite (ready_at_memo n w Hr). simpl. by quiesce.
Qed.

(** A later [ready()] is answered from the flag. *)
Lemma exec_ready_memo (w : World) :
  jobs w = [] → _ready (this w) = true → exec ready w = (w, Ok (Some true)).
Proof. apply exec_ready_at_memo. Qed.

(** The first [ready()] in closed form. *)
Lemma exec_ready_init (w : World) :
  jobs w = [] → _ready (this w) = false → _drives (this w) !! key (this w) = None →
  exec ready w = (ready_init w, Ok None).
Proof.
  intros Hj Hr Hd. unfold ready.
  change (ready_at 1) with (ready_body (drive_body (ready_at 0))). unfold ready_body.
  exec_step. rewrite Hr. do 5 exec_step. quiesce.
  rewrite (exec_call_ok _ _ _ _ _ (Hyperswarm_new_run _ _ _ _)). exec_step.
  rewrite (exec_call_ok _ _ _ _ _ (swarm_on_run _ _)). do 3 exec_step.
  unfold drive_body. exec_step. rewrite exec_ready_at_memo by (simpl; done). exec_step.
  erewrite exec_drive_rest_miss; [|simpl; done|simpl; exact Hd|simpl; reflexivity].
  do 3 exec_step. quiesce. f_equal. same_world.
Qed.

Lemma ready_init_settled (w : World) :
  remote (this w) = negb (is_some (keyPair (this w))) → settled_world (ready_init w).
Proof.
  intros Hid. split; simpl; try done.
  intros _. eexists _, _, _. simpl. rewrite lookup_insert_eq. repeat split; [|lia].
  simpl. by rewrite orb_false_r.
Qed.

(** [ready()] from a settled world: it resolves, the world stays settled,
    the session is up, and the identity and the stored files are as before. *)
Lemma exec_ready_settled (w : World) :
  settled_world w →
  ∃ w1 r, exec ready w = (w1, Ok r) ∧ settled_world w1 ∧ _ready (this w1) = true ∧
          files w1 = files w ∧ key (this w1) = key (this w) ∧
          keyPair (this w1) = keyPair (this w) ∧ remote (this w1) = remote (this w) ∧
          net w1 = net w.
Proof.
  intros Hw. pose proof Hw as [Hj Hid Hf Hs]. destruct (_ready (this w)) eqn:Hr.
  - exists w, (Some true). rewrite (exec_ready_memo w Hj Hr).
    split; [done|]. split; [exact Hw|]. by repeat split.
  - exists (ready_init w), None. rewrite (exec_ready_init w Hj Hr).
    + split; [done|]. split; [by apply ready_init_settled|]. by repeat split.
    + rewrite Hf by done. apply lookup_empty.
Qed.

(** ** The guards of [connect] *)

(** C10: [connect] checks that the identity is not remote, resolves the
    target and compares it with its own key before it awaits [ready]: on a
    remote identity, and on a target that is the identity's own key, the
    call is rejected in its synchronous prefix, before any suspension, and
    the world (no DHT, no swarm, no connection, no event) is the one it was
    called in. *)
Theorem connect_validates_before_ready (w : World) (t : Target) :
  (remote (this w) = true → connect t w = (w, Throw RemoteConnect)) ∧
  (remote (this w) = false → resolve_target t = Ok (key (this w)) →
   connect t w = (w, Throw ConnectSelf)).
Proof.
  split.
  - intros Hr. unfold connect, call, gets. simpl. by rewrite Hr.
  - intros Hr Ht. unfold connect, call, gets, lift. simpl.
    rewrite Hr, Ht. simpl. unfold b4a_equals. by rewrite bool_decide_eq_true_2.
Qed.

(** ** Closing *)

Lemma close_when_closed (w : World) :
  closed (this w) = true → close w = (w, Ret tt).
Proof. intros Hc. unfold close, call, gets. simpl. by rewrite Hc. Qed.

Lemma close_prefix_no_session (w : World) :
  closed (this w) = false → swarm (this w) = None →
  close w = (log [EvEmitClose true] (upd_this (set_closed true) w), Ret tt).
Proof. intros Hc Hs. unfold close, call, gets, modify, emit. simpl. by rewrite Hc, Hs. Qed.

Lemma close_prefix_session (w : World) (s : nat) :
  closed (this w) = false → swarm (this w) = Some s →
  (close w).1 =
    log [EvSwarmDestroy s]
      (set_swarms (alter destroy_swarm s (swarms w))
         (log [EvEmitClose true] (upd_this (set_closed true) w))).
Proof. intros Hc Hs. unfold close, call, gets, modify, emit. simpl. by rewrite Hc, Hs. Qed.

(** C9: when no swarm session exists ([ready] never ran), [close] marks
    the identity closed, notifies the subscribers of ['close'] and returns
    in its synchronous prefix: the trace gains that one event, [store.close]
    is never called, the store handle stays as it was. *)
Theorem close_without_session_leaves_store_open (w : World) :
  closed (this w) = false → swarm (this w) = None →
  ∃ w', close w = (w', Ret tt) ∧
        closed (this w') = true ∧
        trace w' = trace w ++ [EvEmitClose true] ∧
        count_events is_StoreClose (trace w') = count_events is_StoreClose (trace w) ∧
        store (this w') = store (this w) ∧ swarm (this w') = None.
Proof.
  intros Hc Hs. eexists. split; [by apply close_prefix_no_session|].
  simpl. repeat split; try done.
  rewrite count_events_app.
  change (count_events is_StoreClose [EvEmitClose true]) with 0. lia.
Qed.

Lemma exec_close_closed (w : World) :
  jobs w = [] → closed (this w) = true → exec close w = (w, Ok tt).
Proof.
  intros Hj Hc. unfold exec. rewrite (close_when_closed w Hc). simpl. by rewrite drain_quiet.
Qed.

Lemma exec_close_no_session (w : World) :
  jobs w = [] → closed (this w) = false → swarm (this w) = None →
  exec close w = (log [EvEmitClose true] (upd_this (set_closed true) w), Ok tt).
Proof.
  intros Hj Hc Hs. unfold exec. rewrite (close_prefix_no_session w Hc Hs). simpl.
  by rewrite drain_quiet.
Qed.

Lemma exec_close_session (w : World) (s : nat) :
  jobs w = [] → closed (this w) = false → swarm (this w) = Some s →
  exec close w =
    (log [EvStoreClose]
       (log [EvSwarmDestroy s]
          (set_swarms (alter destroy_swarm s (swarms w))
             (log [EvEmitClose true] (upd_this (set_closed true) w)))), Ok tt).
Proof.
  intros Hj Hc Hs. unfold close. exec_step. rewrite Hc. repeat exec_step. rewrite Hs.
  repeat exec_step. done.
Qed.

(** C6: [close] is idempotent and ordered.  On a world with nothing
    queued, a call resolves without throwing and leaves the identity
    closed; a second call changes nothing; and the calls it makes are, in
    this order: the ['close'] notification, seen by subscribers with the
    flag already set, then [swarm.destroy()], then [store.close()]; with
    no session ([ready] never ran) the notification is all of it; on an
    identity already closed nothing is called. *)
Theorem close_idempotent_in_order (w : World) :
  jobs w = [] →
  (exec close w).2 = Ok tt ∧
  closed (this (exec close w).1) = true ∧
  exec close (exec close w).1 = ((exec close w).1, Ok tt) ∧
  trace (exec close w).1 =
    trace w ++
      (if closed (this w) then []
       else EvEmitClose true ::
            match swarm (this w) with
            | Some s => [EvSwarmDestroy s; EvStoreClose]
            | None => []
            end).
Proof.
  intros Hj.
  destruct (closed (this w)) eqn:Hc.
  - rewrite (exec_close_closed w Hj Hc). simpl.
    rewrite Hc, app_nil_r, (exec_close_closed w Hj Hc). done.
  - destruct (swarm (this w)) as [s|] eqn:Hs.
    + rewrite (exec_close_session w s Hj Hc Hs). simpl.
      split; [done|]. split; [done|]. split; [|by rewrite <- !app_assoc].
      by apply exec_close_closed.
    + rewrite (exec_close_no_session w Hj Hc Hs). simpl.
      split; [done|]. split; [done|]. split; [|done].
      by apply exec_close_closed.
Qed.

(** ** Registering protocols *)


Lemma protocols_frame_refl w : protocols_frame w w.
Proof. unfold protocols_frame. by destruct w as [[] ?]. Qed.

Lemma protocols_frame_trans w1 w2 w3 :
  protocols_frame w1 w2 → protocols_frame w2 w3 → protocols_frame w1 w3.
Proof. unfold protocols_frame. intros H12 H23. rewrite H23, H12. reflexivity. Qed.

Lemma protocol_frame (P : ProtocolClass) (w : World) : protocols_frame w (protocol P w).1.
Proof.
  unfold protocol, sbind, gets, sthrow, sret, fresh, emit, modify. simpl.
  destruct (remote (this w)); simpl; [apply protocols_frame_refl|].
  destruct (_protocols (this w) ≫= Map_get (protocol_name P)); simpl;
    [apply protocols_frame_refl|].
  unfold protocols_frame. reflexivity.
Qed.

Lemma forEach_protocol_frame (l : list ProtocolClass) (w : World) :
  protocols_frame w (forEach l protocol w).1.
Proof.
  revert w. induction l as [|P l IH]; intros w; simpl; [apply protocols_frame_refl|].
  unfold sbind. pose proof (protocol_frame P w) as HP.
  destruct (protocol P w) as [w1 [p|e]]; simpl in *; [|exact HP].
  eapply protocols_frame_trans; [exact HP|apply IH].
Qed.

(** On a local identity the loop of the constructor cannot throw. *)
Lemma protocol_local_ok (P : ProtocolClass) (w : World) :
  remote (this w) = false → ∃ p, (protocol P w).2 = Ok p.
Proof.
  intros Hr. unfold protocol, sbind, gets, sthrow, sret, fresh, emit, modify. simpl.
  rewrite Hr. destruct (_protocols (this w) ≫= Map_get (protocol_name P)); simpl; eauto.
Qed.

(** What the constructor leaves behind: no session, not closed. *)
Lemma constructor_fresh (opts : Opts) (w w' : World) :
  constructor opts w = (w', Ok tt) →
  swarm (this w') = None ∧ closed (this w') = false ∧ _ready (this w') = false ∧
  _drives (this w') = ∅ ∧ publicDrive (this w') = None ∧
  remote (this w') = negb (is_some (keyPair (this w'))) ∧ jobs w' = jobs w.
Proof.
  unfold constructor, sbind, lift. simpl.
  destruct (resolve_url (o_url opts)) as [u|e]; simpl; [|discriminate].
  destruct (resolve_key opts u) as [k|]; simpl; [|discriminate].
  unfold gets, modify, emit, sret. simpl.
  destruct (is_some (o_keyPair opts)) eqn:Hkp; simpl.
  - unfold sbind. simpl.
    match goal with |- context [forEach ?l protocol ?w0] =>
      pose proof (forEach_protocol_frame l w0) as HF;
      destruct (forEach l protocol w0) as [w1 [[]|e]] end; simpl in *; [|discriminate].
    intros [= <-]. rewrite HF. simpl. by rewrite Hkp.
  - intros [= <-]. simpl. by rewrite Hkp.
Qed.

(** ** Construction *)

Lemma parse_empty : SlashURL_parse EmptyString = Err InvalidURL.
Proof. reflexivity. Qed.

Lemma parse_error (s : string) (e : Error) : SlashURL_parse s = Err e → e = InvalidURL.
Proof.
  unfold SlashURL_parse. destruct (strip_prefix url_scheme s) as [rest|]; [|congruence].
  destruct (b4a_fromHex rest); congruence.
Qed.

Lemma resolve_url_key (opts : Opts) (u : option SlashURL) :
  resolve_url (o_url opts) = Ok u → slashtag_key <$> u = url_key opts.
Proof.
  unfold resolve_url, url_key. destruct (o_url opts) as [s|]; simpl; [|by intros [= <-]].
  destruct (truthy s) eqn:Ht.
  - destruct (SlashURL_parse s); [by intros [= <-]|discriminate].
  - intros [= <-]. unfold truthy in Ht. apply negb_false_iff, bool_decide_eq_true in Ht.
    subst s. by rewrite parse_empty.
Qed.

Lemma resolve_url_error (opts : Opts) (e : Error) :
  resolve_url (o_url opts) = Err e → e = InvalidURL ∧ url_key opts = None.
Proof.
  unfold resolve_url, url_key. destruct (o_url opts) as [s|]; simpl; [|discriminate].
  destruct (truthy s); [|discriminate].
  unfold SlashURL_parse. destruct (strip_prefix url_scheme s) as [rest|]; simpl.
  - destruct (b4a_fromHex rest); [discriminate|]. by intros [= <-].
  - by intros [= <-].
Qed.

(** The key the constructor assigns, when it returns. *)
Lemma constructor_key (opts : Opts) (w w' : World) :
  constructor opts w = (w', Ok tt) →
  ∃ u, resolve_url (o_url opts) = Ok u ∧ resolve_key opts u = Some (key (this w')).
Proof.
  unfold constructor, sbind, lift. simpl.
  destruct (resolve_url (o_url opts)) as [u|e]; simpl; [|discriminate].
  destruct (resolve_key opts u) as [k|] eqn:Hk; simpl; [|discriminate].
  unfold gets, modify, emit, sret. simpl. intros Hc. exists u. split; [done|]. f_equal.
  destruct (is_some (o_keyPair opts)); simpl in Hc.
  - unfold sbind in Hc. simpl in Hc.
    match type of Hc with context [forEach ?l protocol ?w0] =>
      pose proof (forEach_protocol_frame l w0) as HF;
      destruct (forEach l protocol w0) as [w1 [[]|e]] end; simpl in *; [|discriminate].
    injection Hc as <-. rewrite HF. done.
  - by injection Hc as <-.
Qed.

(** On a local identity the loop over [opts.protocols] runs to its end. *)
Lemma forEach_protocol_ok (l : list ProtocolClass) (w : World) :
  remote (this w) = false → (forEach l protocol w).2 = Ok tt.
Proof.
  revert w. induction l as [|P l IH]; intros w Hr; simpl; [done|].
  unfold sbind. pose proof (protocol_frame P w) as HP.
  destruct (protocol_local_ok P w Hr) as [p Hp].
  destruct (protocol P w) as [w1 r]; simpl in *. subst r.
  apply IH. rewrite HP. exact Hr.
Qed.

(** The constructor returns whenever the url, if one is supplied, parses
    and one of the three options yields a key. *)
Lemma constructor_returns (opts : Opts) (u : option SlashURL) (k : Key) (w : World) :
  resolve_url (o_url opts) = Ok u → resolve_key opts u = Some k →
  ∃ w', constructor opts w = (w', Ok tt) ∧ key (this w') = k.
Proof.
  intros Hu Hk.
  assert (Hret : ∃ w', constructor opts w = (w', Ok tt)).
  { unfold constructor, sbind at 1, lift. rewrite Hu. simpl. rewrite Hk.
    unfold sbind, gets, modify, emit, sret. simpl.
    destruct (is_some (o_keyPair opts)); simpl; [|by eexists].
    match goal with |- context [forEach ?l protocol ?w0] =>
      pose proof (forEach_protocol_ok l w0 eq_refl) as HF;
      destruct (forEach l protocol w0) as [w1 r] end.
    simpl in HF. subst r. simpl. by eexists. }
  destruct Hret as [w' Hc]. exists w'. split; [done|].
  destruct (constructor_key opts w w' Hc) as (u' & Hu' & Hk'). congruence.
Qed.

(** C7: the constructor takes the public key from [keyPair], else from
    [key], else from [url], the first one supplied winning.  Whenever a
    supplied url parses and one of the three yields a key, the constructor
    returns an object on the key the precedence gives; whenever it returns,
    the key is that one; and when none of the three yields a key it
    throws, in the constructor itself, an error of the invalid-identity
    kind, and the world is left as it was: no object. *)
Theorem constructor_resolves_key_by_precedence (opts : Opts) (w : World) :
  ((∀ s, o_url opts = Some s → s = EmptyString ∨ ∃ u, SlashURL_parse s = Ok u) →
   ∀ k, match o_keyPair opts, o_key opts with
        | Some kp, _ => k = publicKey kp
        | None, Some k0 => k = k0
        | None, None => url_key opts = Some k
        end →
        ∃ w', constructor opts w = (w', Ok tt) ∧ key (this w') = k) ∧
  (∀ w', constructor opts w = (w', Ok tt) →
     match o_keyPair opts, o_key opts with
     | Some kp, _ => key (this w') = publicKey kp
     | None, Some k => key (this w') = k
     | None, None => url_key opts = Some (key (this w'))
     end) ∧
  (o_keyPair opts = None → o_key opts = None → url_key opts = None →
   ∃ e, constructor opts w = (w, Err e) ∧ InvalidIdentity e = true).
Proof.
  split; [|split].
  - intros Hurl k Hk.
    assert (Hu : ∃ u, resolve_url (o_url opts) = Ok u).
    { unfold resolve_url. destruct (o_url opts) as [s|]; [|by eexists].
      destruct (Hurl s eq_refl) as [->|[u Hp]]; [by eexists|].
      rewrite Hp. destruct (truthy s); by eexists. }
    destruct Hu as [u Hu]. apply (constructor_returns opts u); [done|].
    unfold resolve_key. apply resolve_url_key in Hu.
    destruct (o_keyPair opts) as [kp|]; [by subst|].
    destruct (o_key opts) as [k0|]; [by subst|]. congruence.
  - intros w' Hc. destruct (constructor_key opts w w' Hc) as (u & Hu & Hk).
    unfold resolve_key in Hk. apply resolve_url_key in Hu.
    destruct (o_keyPair opts) as [kp|]; [congruence|].
    destruct (o_key opts) as [k|]; [congruence|]. congruence.
  - intros Hkp Hkey Hurl. unfold constructor, sbind, lift. simpl.
    destruct (resolve_url (o_url opts)) as [u|e] eqn:Hu; simpl.
    + apply resolve_url_key in Hu. unfold resolve_key. rewrite Hkp, Hkey, Hu, Hurl.
      by exists MissingKey.
    + apply resolve_url_error in Hu as [-> _]. by exists InvalidURL.
Qed.

(** A url that is supplied is parsed whatever else is: when it does not
    parse, the constructor throws before it looks at [keyPair] and [key]. *)
Lemma constructor_rejects_bad_url (opts : Opts) (s : string) (w : World) :
  o_url opts = Some s → s ≠ EmptyString → url_key opts = None →
  constructor opts w = (w, Err InvalidURL).
Proof.
  intros Hs Hne Hu. unfold constructor, sbind, lift. simpl.
  unfold url_key in Hu. rewrite Hs in *. simpl in *.
  unfold truthy. rewrite bool_decide_eq_false_2 by done. simpl.
  destruct (SlashURL_parse s) as [u|e] eqn:Hp; [done|]. by rewrite (parse_error s e Hp).
Qed.

(** ** The profile *)

Lemma exec_setProfile_rest (w : World) (d : nat) (D : Drive) (p : JSON) :
  jobs w = [] → publicDrive (this w) = Some d → drives w !! d = Some D →
  writable D = true →
  exec (setProfile_rest p) w =
    (log [EvDrivePut d DRIVE_KEYS_profile]
       (set_files (<[drive_key D :=
                       <[DRIVE_KEYS_profile := b4a_from (JSON_stringify p)]>
                         (default ∅ (files w !! drive_key D))]> (files w)) w), Ok tt).
Proof.
  intros Hj Hp Hd Hw. unfold setProfile_rest. exec_step. rewrite Hp. exec_step.
  rewrite (exec_SlashDrive_put d D) by done. rewrite Hw. repeat exec_step. done.
Qed.

Lemma exec_getProfile_rest (w : World) (d : nat) (D : Drive) :
  jobs w = [] → publicDrive (this w) = Some d → drives w !! d = Some D →
  drive_key D = key (this w) →
  exec getProfile_rest w =
    (log [EvDriveGet d DRIVE_KEYS_profile] w,
     match stored_profile w with
     | None => Ok None
     | Some bytes =>
         match JSON_parse (b4a_toString bytes) with
         | Ok v => Ok (Some v)
         | Err e => Err e
         end
     end).
Proof.
  intros Hj Hp Hd Hk. unfold stored_profile. rewrite <- Hk.
  unfold getProfile_rest. exec_step. rewrite Hp. exec_step.
  rewrite (exec_SlashDrive_get d D) by done. exec_step.
  destruct (files w !! drive_key D ≫= _) as [bytes|]; simpl; [|by exec_step].
  destruct (JSON_parse (b4a_toString bytes)); simpl; by repeat exec_step.
Qed.

Lemma b4a_roundtrip (s : string) : b4a_toString (b4a_from s) = s.
Proof. apply String.string_of_list_byte_of_string. Qed.

(** C8: on a local identity, [getProfile()] after [setProfile(p)] resolves
    to [p] for every [p] that JSON text carries faithfully, the text being
    stored under [profile.json] in the identity's own drive; and where
    nothing is stored under that key, [getProfile()] resolves to [null]
    and does not throw. *)
Theorem profile_roundtrip_or_null (w : World) (p : JSON) :
  settled_world w →
  (remote (this w) = false → JSON_serializable p →
   (exec (setProfile p) w).2 = Ok tt ∧
   stored_profile (exec (setProfile p) w).1 = Some (b4a_from (JSON_stringify p)) ∧
   (exec getProfile (exec (setProfile p) w).1).2 = Ok (Some p)) ∧
  (stored_profile w = None → (exec getProfile w).2 = Ok None).
Proof.
  intros Hw.
  destruct (exec_ready_settled w Hw)
    as (w1 & r & Hready & Hw1 & Hr1 & Hfiles & Hkey & Hkp & Hrem & Hnet).
  destruct Hw1 as [Hj1 Hid1 Hf1 Hs1].
  destruct (Hs1 Hr1) as (s & d & D & Hsw & Hpd & Hd & Hdk & Hwr & Hlt).
  split.
  - intros Hlocal Hser.
    assert (HwrT : writable D = true).
    { rewrite Hwr. rewrite <- Hrem, Hid1 in Hlocal. by apply negb_false_iff in Hlocal. }
    unfold setProfile. rewrite exec_await, Hready. unfold bind_result. simpl.
    rewrite (exec_setProfile_rest w1 d D p Hj1 Hpd Hd HwrT). simpl.
    split; [done|].
    assert (Hstored : stored_profile
              (log [EvDrivePut d DRIVE_KEYS_profile]
                 (set_files (<[drive_key D :=
                    <[DRIVE_KEYS_profile := b4a_from (JSON_stringify p)]>
                      (default ∅ (files w1 !! drive_key D))]> (files w1)) w1))
            = Some (b4a_from (JSON_stringify p))).
    { unfold stored_profile. simpl. rewrite Hdk, lookup_insert_eq. simpl.
      by rewrite lookup_insert_eq. }
    split; [done|].
    unfold getProfile. rewrite exec_await, exec_ready_memo by done.
    unfold bind_result. simpl.
    rewrite (exec_getProfile_rest _ d D) by done. simpl.
    rewrite Hstored, b4a_roundtrip, Hser. done.
  - intros Hnone.
    unfold getProfile. rewrite exec_await, Hready. unfold bind_result. simpl.
    rewrite (exec_getProfile_rest w1 d D) by done. simpl.
    unfold stored_profile in *. by rewrite Hfiles, Hkey, Hnone.
Qed.

(** ** Drives *)

Lemma exec_drive_again (opts : DriveOpts) (w : World) (e : nat) :
  jobs w = [] → _ready (this w) = true →
  _drives (this w) !! resolved_key opts w = Some e →
  exec (drive opts) w = (drive_hit opts w, Ok e).
Proof.
  intros Hj Hr Hc. unfold drive, drive_body.
  rewrite exec_await, exec_ready_memo, bind_result_ok by done.
  by apply exec_drive_rest_hit.
Qed.

(** C5: two [drive({ key: K })] calls, awaited one after the other from a
    world in which no drive on [K] is cached yet, resolve to one and the
    same handle, which is the one cached under [K]; the second call builds a
    handle and drops it.  Across both calls the discovery topic of [K] is
    joined once and the finding-peers acknowledgement of a drive on [K] is
    asked for once, all of it in the first call. *)
Theorem drive_twice_one_handle_one_announcement (w : World) (opts : DriveOpts) (K : Key) :
  settled_world w → Inj (=) (=) discovery_key →
  do_key opts = Some K → _drives (this w) !! K = None →
  ∃ d w1 w2,
    exec (drive opts) w = (w1, Ok d) ∧ exec (drive opts) w1 = (w2, Ok d) ∧
    _drives (this w2) !! K = Some d ∧ w2 = drive_hit opts w1 ∧
    announcements K (trace w1) = S (announcements K (trace w)) ∧
    acknowledgements K (trace w1) = S (acknowledgements K (trace w)) ∧
    announcements K (trace w2) = announcements K (trace w1) ∧
    acknowledgements K (trace w2) = acknowledgements K (trace w1).
Proof.
  intros Hw Hinj Hk Hnone. pose proof Hw as [Hj Hid Hf Hs].
  assert (HK : ∀ w', resolved_key opts w' = K) by (intros w'; unfold resolved_key; by rewrite Hk).
  assert (Hhit : ∀ w1 d, jobs w1 = [] → _ready (this w1) = true →
                 _drives (this w1) !! K = Some d →
                 exec (drive opts) w1 = (drive_hit opts w1, Ok d) ∧
                 _drives (this (drive_hit opts w1)) !! K = Some d ∧
                 announcements K (trace (drive_hit opts w1)) = announcements K (trace w1) ∧
                 acknowledgements K (trace (drive_hit opts w1))
                   = acknowledgements K (trace w1)).
  { intros w1 d Hj1 Hr1 Hc1. split; [apply exec_drive_again; by rewrite ?HK|].
    split; [done|]. unfold announcements, acknowledgements. simpl.
    count_trace. split; lia. }
  unfold drive at 1, drive_body. rewrite exec_await.
  destruct (_ready (this w)) eqn:Hr.
  - destruct (Hs eq_refl) as (s & d0 & D0 & Hsw & _).
    rewrite exec_ready_memo, bind_result_ok by done.
    rewrite (exec_drive_rest_miss opts w s) by (by rewrite ?HK).
    destruct (Hhit (drive_miss opts s w) (next_id w)) as (H1 & H2 & H3 & H4);
      [done|done|by simpl; rewrite HK, lookup_insert_eq|].
    eexists _, _, _. split; [done|]. split; [exact H1|]. split; [exact H2|].
    split; [done|]. split; [|split; [|by split]].
    + unfold announcements. simpl. rewrite HK. count_trace.
      rewrite bool_decide_eq_true_2 by done. lia.
    + unfold acknowledgements. simpl. rewrite HK. count_trace.
      rewrite bool_decide_eq_true_2 by done. lia.
  - rewrite exec_ready_init, bind_result_ok; [|done|done|by rewrite Hf; [apply lookup_empty|]].
    destruct (decide (key (this w) = K)) as [Heq|Hne].
    + rewrite (exec_drive_rest_hit opts (ready_init w) (S (S (next_id w))))
        by (by simpl; rewrite ?HK, ?Heq, ?lookup_insert_eq).
      destruct (Hhit (drive_hit opts (ready_init w)) (S (S (next_id w))))
        as (H1 & H2 & H3 & H4); [done|done|by simpl; rewrite Heq, lookup_insert_eq|].
      eexists _, _, _. split; [done|]. split; [exact H1|]. split; [exact H2|].
      split; [done|]. split; [|split; [|by split]].
      * unfold announcements. simpl. rewrite Heq. count_trace.
        rewrite bool_decide_eq_true_2 by done. lia.
      * unfold acknowledgements. simpl. rewrite Heq. count_trace.
        rewrite bool_decide_eq_true_2 by done. lia.
    + rewrite (exec_drive_rest_miss opts (ready_init w) (S (next_id w)))
        by (by simpl; rewrite ?HK, ?Hf, ?lookup_insert_ne, ?lookup_empty).
      destruct (Hhit (drive_miss opts (S (next_id w)) (ready_init w)) (S (S (S (next_id w)))))
        as (H1 & H2 & H3 & H4); [done|done|by simpl; rewrite HK, lookup_insert_eq|].
      eexists _, _, _. split; [done|]. split; [exact H1|]. split; [exact H2|].
      split; [done|]. split; [|split; [|by split]].
      * unfold announcements. simpl. rewrite HK. count_trace.
        rewrite (bool_decide_eq_true_2 (discovery_key K = discovery_key K)) by done.
        rewrite bool_decide_eq_false_2 by (intros HH; by apply Hinj in HH). lia.
      * unfold acknowledgements. simpl. rewrite HK. count_trace.
        rewrite (bool_decide_eq_true_2 (K = K)) by done.
        rewrite bool_decide_eq_false_2 by done. lia.
Qed.

(** ** Connections *)

Lemma trace_frame_refl w : trace_frame w w.
Proof. unfold trace_frame. by destruct w. Qed.

Lemma trace_frame_trans w1 w2 w3 :
  trace_frame w1 w2 → trace_frame w2 w3 → trace_frame w1 w3.
Proof. unfold trace_frame. intros H12 H23. rewrite H23, H12. reflexivity. Qed.

Lemma handleConnection_frame (c : Conn) (p : PeerInfo) (w : World) :
  trace_frame w (_handleConnection c p w).1.
Proof.
  unfold _handleConnection, _setupProtocols, sbind, gets, emit, modify, sret. simpl.
  destruct (_protocols (this w)); simpl; unfold trace_frame; apply World_ext; done.
Qed.

Lemma dispatch_frame (n : nat) (c : Conn) (p : PeerInfo) (w : World) :
  trace_frame w (dispatch n c p w).1.
Proof.
  revert p w. induction n as [|n IH]; intros p w; simpl; [apply trace_frame_refl|].
  unfold sbind. pose proof (handleConnection_frame c p w) as HF.
  destruct (_handleConnection c p w) as [w1 [p'|e]]; simpl in *; [|done].
  eapply trace_frame_trans; [exact HF|apply IH].
Qed.

Arguments deliver : simpl never.
Arguments dispatch : simpl never.

(** What the network's answer leaves: a connection that is delivered is in
    the swarm's registry under the key it was asked for; the identity and
    the drives are untouched. *)
Lemma deliver_outcome (s : nat) (k : Key) (w : World) :
  match (deliver s k w).2 with
  | Ret (Some r) =>
      this (deliver s k w).1 = this w ∧ jobs (deliver s k w).1 = jobs w ∧
      drives (deliver s k w).1 = drives w ∧ next_id (deliver s k w).1 = S (next_id w) ∧
      ∃ S1, swarms (deliver s k w).1 !! s = Some S1 ∧
            _allConnections S1 !! k = Some (connection r)
  | Ret None => False
  | Throw _ => (deliver s k w).1 = w
  | Await _ => False
  end.
Proof.
  unfold deliver. destruct (swarms w !! s) as [S0|] eqn:HS; [|done].
  destruct (sw_destroyed S0 || negb (bool_decide (k ∈ net w))); [done|].
  match goal with |- context [dispatch ?n ?c ?p ?w0] =>
    pose proof (dispatch_frame n c p w0) as HF;
    destruct (dispatch n c p w0) as [w1 rp] end.
  cbn [fst snd] in *.
  assert (Hsw : swarms w1 =
            <[s := open_connection (mkConn (next_id w) k) (mkPeerInfo k None) S0]> (swarms w))
    by (by rewrite HF).
  assert (Hth : this w1 = this w) by (by rewrite HF).
  assert (Hjb : jobs w1 = jobs w) by (by rewrite HF).
  assert (Hdr : drives w1 = drives w) by (by rewrite HF).
  assert (Hid : next_id w1 = S (next_id w)) by (by rewrite HF).
  split; [done|]. split; [done|]. split; [done|]. split; [done|].
  simpl. rewrite Hsw, lookup_alter_eq, lookup_insert_eq. simpl.
  eexists. split; [done|]. simpl. by rewrite lookup_insert_eq.
Qed.

Lemma exec_connect_rest_found (w : World) (k : Key) (s : nat) (S0 : Swarm) (c : Conn) :
  jobs w = [] → swarm (this w) = Some s → swarms w !! s = Some S0 →
  _allConnections S0 !! k = Some c →
  exec (connect_rest k) w = (w, Ok (Some (mkConnected c (peers S0 !! b4a_toHex k)))).
Proof.
  intros Hj Hs HS Hc. unfold connect_rest. exec_step. rewrite Hs. exec_step.
  rewrite HS. simpl. rewrite Hc. repeat exec_step. by rewrite HS.
Qed.

(** A [connect] that got past [ready] and resolved to a connection leaves
    that connection registered on the identity's swarm. *)
Lemma exec_connect_rest_success (w w1 : World) (k : Key) (r1 : Connected) :
  jobs w = [] → exec (connect_rest k) w = (w1, Ok (Some r1)) →
  jobs w1 = [] ∧ this w1 = this w ∧
  ∃ s S1, swarm (this w) = Some s ∧ swarms w1 !! s = Some S1 ∧
          _allConnections S1 !! k = Some (connection r1).
Proof.
  intros Hj. unfold connect_rest. exec_step.
  destruct (swarm (this w)) as [s|] eqn:Hs; simpl; [|exec_step; simpl; by repeat exec_step].
  exec_step.
  assert (Hdeliver :
    exec (λ w0, let waiting := catchConnection s k w0 in
                ((swarm_joinPeer s k waiting.1).1, waiting.2)) w = (w1, Ok (Some r1)) →
    jobs w1 = [] ∧ this w1 = this w ∧
    ∃ s0 S1, Some s = Some s0 ∧ swarms w1 !! s0 = Some S1 ∧
             _allConnections S1 !! k = Some (connection r1)).
  { unfold exec, catchConnection, swarm_joinPeer, emit, modify. simpl.
    rewrite (drain_quiet (log [EvJoinPeer s k] w)) by done.
    pose proof (deliver_outcome s k (log [EvJoinPeer s k] w)) as HD.
    destruct (deliver s k (log [EvJoinPeer s k] w)) as [w' [[r|]|e|k']];
      cbn [fst snd] in *; try done.
    destruct HD as (Hth & Hjb & _ & _ & S1 & HS1 & Hc1).
    intros [= <- <-]. simpl in Hjb, Hth. rewrite drain_quiet by (by rewrite Hjb).
    split; [by rewrite Hjb|]. split; [done|]. by exists s, S1. }
  destruct (swarms w !! s) as [S0|] eqn:HS; simpl.
  - destruct (_allConnections S0 !! k) as [c|] eqn:Hc; simpl.
    + repeat exec_step. rewrite HS. intros [= <- <-]. simpl. eauto 10.
    + by apply Hdeliver.
  - by apply Hdeliver.
Qed.

(** [connect] run alone, guard by guard. *)
Lemma exec_connect_eq (t : Target) (w : World) :
  exec (connect t) w =
    if remote (this w) then (drain w, Err RemoteConnect)
    else match resolve_target t with
         | Err e => (drain w, Err e)
         | Ok k =>
             if b4a_equals k (key (this w)) then (drain w, Err ConnectSelf)
             else bind_result (exec ready w) (fun _ => exec (connect_rest k))
         end.
Proof.
  unfold connect. rewrite exec_gets. simpl.
  destruct (remote (this w)); [by rewrite exec_throw|].
  destruct (resolve_target t) as [k|e]; [|by rewrite exec_lift_err].
  rewrite exec_lift_ok, exec_gets. simpl.
  destruct (b4a_equals k (key (this w))); [by rewrite exec_throw|].
  by rewrite exec_await.
Qed.

(** C4: when [connect(X)] has resolved to a connection, a second
    [connect(X)] awaited after it, nothing having closed the connection in
    between, resolves to the same connection object; it finds it in the
    swarm's registry and makes no call at all on the collaborators, so no
    second [joinPeer]: the world, trace included, is left as it was. *)
Theorem connect_twice_same_connection (w w1 : World) (t : Target) (r1 : Connected) :
  settled_world w → exec (connect t) w = (w1, Ok (Some r1)) →
  ∃ r2 w2, exec (connect t) w1 = (w2, Ok (Some r2)) ∧
           connection r2 = connection r1 ∧ w2 = w1 ∧
           count_events is_JoinPeer (trace w2) = count_events is_JoinPeer (trace w1).
Proof.
  intros Hw. rewrite !exec_connect_eq.
  destruct (remote (this w)) eqn:Hrem; [done|].
  destruct (resolve_target t) as [k|e] eqn:Ht; [|done].
  destruct (b4a_equals k (key (this w))) eqn:Hself; [done|].
  destruct (exec_ready_settled w Hw)
    as (wr & r & Hready & Hwr & Hr & _ & Hkey & _ & Hrem' & _).
  rewrite Hready, bind_result_ok. intros Hfirst.
  destruct Hwr as [Hjr _ _ _].
  destruct (exec_connect_rest_success wr w1 k r1 Hjr Hfirst)
    as (Hj1 & Hth & s & S1 & Hs & HS1 & Hc1).
  exists (mkConnected (connection r1) (peers S1 !! b4a_toHex k)), w1.
  split; [|done].
  rewrite Hth, Hrem', Hrem, Hkey, Hself.
  rewrite exec_ready_memo, bind_result_ok by (by rewrite ?Hth).
  apply (exec_connect_rest_found w1 k s S1); by rewrite ?Hth.
Qed.

(** ** After [close] *)

Lemma blind_protocol (P : ProtocolClass) : closed_blind_sync (protocol P).
Proof. unfold protocol. blind. Qed.

Lemma blind_new_Slashtag (opts : Opts) : closed_blind_sync (new_Slashtag opts).
Proof. intros b w. reflexivity. Qed.

Lemma blind_handleConnection (c : Conn) (p : PeerInfo) :
  closed_blind_sync (_handleConnection c p).
Proof.
  unfold _handleConnection, _setupProtocols. blind. apply blind_new_Slashtag.
Qed.

Lemma blind_dispatch (n : nat) (c : Conn) (p : PeerInfo) :
  closed_blind_sync (dispatch n c p).
Proof.
  revert p. induction n as [|n IH]; intros p; simpl; [apply blind_sret|].
  apply blind_sbind; [apply blind_handleConnection|]. intros p'. apply IH.
Qed.

Lemma blind_deliver (s : nat) (k : Key) (b : bool) (w : World) :
  deliver s k (with_closed b w) = (with_closed b (deliver s k w).1, (deliver s k w).2).
Proof.
  unfold deliver. simpl. destruct (swarms w !! s) as [S0|]; [|done].
  destruct (sw_destroyed S0 || negb (bool_decide (k ∈ net w))); [done|].
  match goal with |- context [dispatch ?n ?c ?p (set_swarms ?x (set_next_id ?y _))] =>
    change (set_swarms x (set_next_id y (with_closed b w)))
      with (with_closed b (set_swarms x (set_next_id y w)));
    rewrite (blind_dispatch n c p b (set_swarms x (set_next_id y w)));
    destruct (dispatch n c p (set_swarms x (set_next_id y w))) as [w1 rp] end.
  reflexivity.
Qed.

Lemma deliver_settled (s : nat) (k : Key) (w : World) : settled (deliver s k w).2 = true.
Proof.
  unfold deliver. destruct (swarms w !! s) as [S0|]; [|done].
  by destruct (sw_destroyed S0 || negb (bool_decide (k ∈ net w))).
Qed.

Lemma blind_join_and_wait (s : nat) (k : Key) :
  closed_blind (λ w, let waiting := catchConnection s k w in
                     ((swarm_joinPeer s k waiting.1).1, waiting.2)).
Proof.
  intros b w. unfold exec, catchConnection, swarm_joinPeer, emit, modify. simpl.
  change (log [EvJoinPeer s k] (with_closed b w))
    with (with_closed b (log [EvJoinPeer s k] w)).
  rewrite with_closed_drain, blind_deliver.
  pose proof (deliver_settled s k (drain (log [EvJoinPeer s k] w))) as Hset.
  destruct (deliver s k (drain (log [EvJoinPeer s k] w))) as [w' [r|e|k']];
    simpl in *; try done; unfold map_world; simpl; by rewrite with_closed_drain.
Qed.

Lemma blind_drive_rest (opts : DriveOpts) : closed_blind (drive_rest opts).
Proof.
  unfold drive_rest, SlashDrive_new, SlashDrive_ready, SlashDrive_update, drive_lookup,
    _setupDiscovery.
  blind. intros b w. reflexivity.
Qed.

Lemma blind_drive_body (rdy : Async (option bool)) (opts : DriveOpts) :
  closed_blind rdy → closed_blind (drive_body rdy opts).
Proof.
  intros Hr. unfold drive_body. apply blind_await; [exact Hr|]. intros _.
  apply blind_drive_rest.
Qed.

Lemma blind_ready_body (drv : DriveOpts → Async nat) :
  (∀ o, closed_blind (drv o)) → closed_blind (ready_body drv).
Proof.
  intros Hd. unfold ready_body.
  apply blind_call; [by apply blind_gets|]. intros [|]; [apply blind_ret|].
  apply blind_call; [by apply blind_gets|]. intros o.
  apply blind_await; [unfold DHT_create; by apply blind_later|]. intros dht.
  apply blind_call; [by apply blind_gets|]. intros kp.
  apply blind_call; [unfold Hyperswarm_new; blind|]. intros s.
  apply blind_call; [by apply blind_modify|]. intros _.
  apply blind_call; [unfold swarm_on; blind|]. intros _.
  apply blind_call; [by apply blind_modify|]. intros _.
  apply blind_call; [by apply blind_gets|]. intros k.
  apply blind_await; [apply Hd|]. intros d.
  apply blind_call; [by apply blind_modify|]. intros _. apply blind_ret.
Qed.

Lemma blind_ready_at (n : nat) : closed_blind (ready_at n).
Proof.
  induction n as [|n IH]; simpl; apply blind_ready_body; intros o.
  - apply blind_throw.
  - by apply blind_drive_body.
Qed.

Lemma blind_connect_rest (k : Key) : closed_blind (connect_rest k).
Proof. unfold connect_rest. blind. apply blind_join_and_wait. Qed.

(** C1, as the code has it: once the flag is set a further [close] does
    nothing; [connect], [drive] and [protocol] never look at the [closed]
    flag, which [close] alone reads.  On one and the same world they do the
    same, resolve or throw the same, whether the flag is set or not, and
    leave the flag as they found it: after [close] they are neither
    rejected nor turned into no-ops. *)
Theorem closed_flag_not_consulted (b : bool) (w : World)
    (t : Target) (o : DriveOpts) (P : ProtocolClass) :
  close (with_closed true w) = (with_closed true w, Ret tt) ∧
  exec (connect t) (with_closed b w) = map_world (with_closed b) (exec (connect t) w) ∧
  exec (drive o) (with_closed b w) = map_world (with_closed b) (exec (drive o) w) ∧
  protocol P (with_closed b w) = map_world (with_closed b) (protocol P w).
Proof.
  split; [by apply close_when_closed|]. split; [|split].
  - revert b w. change (closed_blind (connect t)). unfold connect.
    apply blind_call; [by apply blind_gets|]. intros [|]; [apply blind_throw|].
    apply blind_call; [apply blind_lift|]. intros k.
    apply blind_call; [by apply blind_gets|]. intros me.
    destruct (b4a_equals k me); [apply blind_throw|].
    apply blind_await; [apply blind_ready_at|]. intros _. apply blind_connect_rest.
  - revert b w. change (closed_blind (drive o)). apply blind_drive_body, blind_ready_at.
  - apply blind_protocol.
Qed.

(** ** Settled worlds are the worlds between calls *)

(** The constructor leaves a settled world. *)
Lemma constructor_settled (opts : Opts) (w w' : World) :
  jobs w = [] → constructor opts w = (w', Ok tt) → settled_world w'.
Proof.
  intros Hj Hc. destruct (constructor_fresh opts w w' Hc) as (_ & _ & Hr & Hd & _ & Hid & Hj').
  split; [by rewrite Hj'|done|done|by rewrite Hr].
Qed.

(** A step that leaves the identity and the handles allocated so far as
    they were keeps a world with a session settled. *)
Lemma settled_step (w w' : World) :
  settled_world w → _ready (this w) = true → jobs w' = [] →
  remote (this w') = remote (this w) → keyPair (this w') = keyPair (this w) →
  key (this w') = key (this w) → _ready (this w') = true →
  swarm (this w') = swarm (this w) → publicDrive (this w') = publicDrive (this w) →
  next_id w ≤ next_id w' →
  (∀ d, d < next_id w → drives w' !! d = drives w !! d) →
  settled_world w'.
Proof.
  intros [Hj Hid Hf Hs] Hr Hj' Hrem Hkp Hkey Hr' Hsw Hpd Hle Hdr.
  destruct (Hs Hr) as (s & d & D & H1 & H2 & H3 & H4 & H5 & H6).
  split; [done|by rewrite Hrem, Hkp|by rewrite Hr'|].
  intros _. exists s, d, D. rewrite Hsw, Hpd, Hkey, Hkp, Hdr by done.
  repeat split; try done. lia.
Qed.

Lemma exec_drive_settled (opts : DriveOpts) (w : World) :
  settled_world w →
  ∃ d, (exec (drive opts) w).2 = Ok d ∧ settled_world (exec (drive opts) w).1.
Proof.
  intros Hw. unfold drive, drive_body. rewrite exec_await.
  destruct (exec_ready_settled w Hw) as (wr & r & -> & Hwr & Hr & _).
  rewrite bind_result_ok. pose proof Hwr as [Hj _ _ Hs].
  destruct (Hs Hr) as (s & d0 & D0 & Hsw & _).
  destruct (_drives (this wr) !! resolved_key opts wr) as [e|] eqn:Hc.
  - rewrite (exec_drive_rest_hit opts wr e Hj Hc). exists e. split; [done|].
    apply (settled_step wr); simpl; try done; [lia|].
    intros d Hd. rewrite lookup_insert_ne; [done|lia].
  - rewrite (exec_drive_rest_miss opts wr s Hj Hc Hsw). eexists. split; [done|].
    apply (settled_step wr); simpl; try done; [lia|].
    intros d Hd. rewrite lookup_insert_ne; [done|lia].
Qed.

Lemma exec_setProfile_settled (p : JSON) (w : World) :
  settled_world w → settled_world (exec (setProfile p) w).1.
Proof.
  intros Hw. unfold setProfile. rewrite exec_await.
  destruct (exec_ready_settled w Hw) as (wr & r & -> & Hwr & Hr & _).
  rewrite bind_result_ok. pose proof Hwr as [Hj _ _ Hs].
  destruct (Hs Hr) as (s & d & D & _ & Hpd & Hd & _).
  unfold setProfile_rest. exec_step. rewrite Hpd. exec_step.
  rewrite (exec_SlashDrive_put d D) by done.
  destruct (writable D); lazy iota; exec_run; [|done].
  apply (settled_step wr); simpl; try done.
Qed.

Lemma exec_connect_settled (t : Target) (w : World) :
  settled_world w → settled_world (exec (connect t) w).1.
Proof.
  intros Hw. pose proof Hw as [Hj0 _ _ _]. rewrite exec_connect_eq.
  destruct (remote (this w)); [by rewrite drain_quiet|].
  destruct (resolve_target t) as [k|e]; [|by rewrite drain_quiet].
  destruct (b4a_equals k (key (this w))); [by rewrite drain_quiet|].
  destruct (exec_ready_settled w Hw) as (wr & r & -> & Hwr & Hr & _).
  rewrite bind_result_ok. pose proof Hwr as [Hj _ _ Hs].
  unfold connect_rest. exec_step.
  destruct (swarm (this wr)) as [s|] eqn:Hsw; simpl; [|exec_run; simpl; exact Hwr].
  exec_step.
  destruct (swarms wr !! s ≫= _) as [c|]; simpl; [exec_run; simpl; exact Hwr|].
  unfold exec, catchConnection, swarm_joinPeer, emit, modify. simpl.
  rewrite (drain_quiet (log [EvJoinPeer s k] wr)) by done.
  pose proof (deliver_outcome s k (log [EvJoinPeer s k] wr)) as HD.
  destruct (deliver s k (log [EvJoinPeer s k] wr)) as [w' [[c|]|e|k']];
    cbn [settle fst snd] in *; try done.
  - destruct HD as (Hth & Hjb & Hdr & Hid & _). simpl in Hth, Hjb, Hdr, Hid.
    rewrite drain_quiet by (by rewrite Hjb).
    apply (settled_step wr); rewrite ?Hth, ?Hjb, ?Hdr, ?Hid; simpl; try done. lia.
  - subst w'. rewrite drain_quiet by done.
    apply (settled_step wr); simpl; try done.
Qed.

Lemma exec_close_settled (w : World) :
  settled_world w → settled_world (exec close w).1.
Proof.
  intros Hw. pose proof Hw as [Hj Hid Hf Hs].
  destruct (closed (this w)) eqn:Hc; [by rewrite exec_close_closed|].
  destruct (swarm (this w)) as [s|] eqn:Hsw.
  - rewrite (exec_close_session w s) by done. by split.
  - rewrite exec_close_no_session by done. by split.
Qed.

Lemma protocol_settled (P : ProtocolClass) (w : World) :
  settled_world w → settled_world (protocol P w).1.
Proof.
  intros Hw. pose proof Hw as [Hj Hid Hf Hs].
  unfold protocol, sbind, gets, sthrow, sret, fresh, emit, modify. simpl.
  destruct (remote (this w)) eqn:Hrem; simpl; [done|].
  destruct (_protocols (this w) ≫= Map_get (protocol_name P)); simpl; [done|].
  split; simpl; try done; [by rewrite Hrem|].
  intros Hr. destruct (Hs Hr) as (s & d & D & H1 & H2 & H3 & H4 & H5 & H6).
  exists s, d, D. simpl. repeat split; try done. lia.
Qed.

(** ** Remote identities *)

(** The three guarded methods reject a remote identity before anything
    else: nothing is awaited, the world is the one they were called in. *)
Lemma remote_guards (w : World) (t : Target) (P : ProtocolClass) :
  remote (this w) = true →
  listen w = (w, Throw RemoteListen) ∧
  connect t w = (w, Throw RemoteConnect) ∧
  protocol P w = (w, Err RemoteProtocol).
Proof.
  intros Hr. unfold listen, connect, protocol, call, sbind, gets. simpl. by rewrite Hr.
Qed.

(** [setProfile] has no such guard: on an identity on which [ready] has
    not run it starts the session, whether the identity is remote or not. *)
Lemma setProfile_prefix (p : JSON) (w : World) :
  _ready (this w) = false →
  (setProfile p w).1 = log [EvDhtCreate (next_id w)] (set_next_id (S (next_id w)) w) ∧
  settled (setProfile p w).2 = false.
Proof.
  intros Hr. unfold setProfile, await, ready, ready_at, ready_body, call, gets, DHT_create.
  simpl. by rewrite Hr.
Qed.

(** ** Calls of [ready] in flight together *)

(** A [ready()] that finds the flag unset asks for a DHT of its own and
    suspends, the flag still unset. *)
Lemma ready_prefix (w : World) :
  _ready (this w) = false →
  (ready w).1 = log [EvDhtCreate (next_id w)] (set_next_id (S (next_id w)) w) ∧
  settled (ready w).2 = false.
Proof.
  intros Hr. unfold ready, ready_at, ready_body, await, call, gets, DHT_create.
  simpl. by rewrite Hr.
Qed.

(** [n] calls issued before any of them is resumed create [n] DHTs. *)
Lemma start_all_ready_creates_a_dht_each (n : nat) (w : World) :
  _ready (this w) = false →
  count_events is_DhtCreate (trace (start_all (replicate n ready) w).1)
    = count_events is_DhtCreate (trace w) + n.
Proof.
  revert w. induction n as [|n IH]; intros w Hr; simpl; [lia|].
  destruct (ready_prefix w Hr) as [Hw _].
  destruct (ready w) as [w1 t1]. simpl in Hw. subst w1.
  match goal with |- context [start_all ?l ?w0] =>
    specialize (IH w0 Hr); destruct (start_all l w0) as [w2 ts] end.
  simpl in *. rewrite IH. count_trace. lia.
Qed.

(** Awaited one after the other, a second [ready()] does nothing. *)
Lemma ready_twice_in_sequence (w : World) :
  settled_world w →
  exec ready (exec ready w).1 = ((exec ready w).1, Ok (Some true)).
Proof.
  intros Hw. destruct (exec_ready_settled w Hw) as (w1 & r & -> & [Hj _ _ _] & Hr & _).
  by apply exec_ready_memo.
Qed.

End Properties.

(** ** The older class *)

Section LegacyProperties.

Context (parse decode : string → Result Key).

(** [connect] twice: the socket registered by the first call is returned
    by the second, which asks the DHT for nothing. *)
Lemma legacy_connect_twice (w w1 : Legacy.World) (t : Legacy.Target) (c1 : Conn) :
  Legacy.connect parse decode t w = (w1, Ok c1) →
  Legacy.connect parse decode t w1 = (w1, Ok c1).
Proof.
  unfold Legacy.connect. destruct (Legacy.resolve parse decode t) as [k|e]; [|done].
  destruct (Legacy.sockets (Legacy.this w) !! k) as [c|] eqn:Hc.
  - intros [= <- <-]. by rewrite Hc.
  - intros [= <- <-]. simpl. by rewrite lookup_insert_eq.
Qed.

Lemma legacy_run_cons (t : Legacy.Turn) (ts : list Legacy.Turn) (r : Legacy.Running) :
  Legacy.run parse decode (t :: ts) r
    = Legacy.run parse decode ts (Legacy.turn parse decode r t).
Proof. reflexivity. Qed.

Lemma legacy_run_app (ts ts' : list Legacy.Turn) (r : Legacy.Running) :
  Legacy.run parse decode (ts ++ ts') r
    = Legacy.run parse decode ts' (Legacy.run parse decode ts r).
Proof. unfold Legacy.run. apply foldl_app. Qed.

(** The loop of the teardown: each resumption destroys the socket the
    iteration hands it, and touches nothing else. *)
Lemma legacy_run_yields (yields : list Conn) (r : Legacy.Running) :
  Legacy.teardown r = Legacy.AtUnlisten ∨ Legacy.teardown r = Legacy.AtSocketDestroy →
  (Legacy.teardown (Legacy.run parse decode (map (fun c => Legacy.Resume (Some c)) yields) r)
     = Legacy.AtUnlisten ∨
   Legacy.teardown (Legacy.run parse decode (map (fun c => Legacy.Resume (Some c)) yields) r)
     = Legacy.AtSocketDestroy) ∧
  Legacy.this
    (Legacy.world (Legacy.run parse decode (map (fun c => Legacy.Resume (Some c)) yields) r))
    = Legacy.this (Legacy.world r) ∧
  Legacy.trace
    (Legacy.world (Legacy.run parse decode (map (fun c => Legacy.Resume (Some c)) yields) r))
    = Legacy.trace (Legacy.world r)
      ++ map (fun c => Legacy.EvSocketDestroy (conn_id c)) yields.
Proof.
  revert r. induction yields as [|c l IH]; intros r Hr.
  - simpl. by rewrite app_nil_r.
  - assert (Hstep : Legacy.turn parse decode r (Legacy.Resume (Some c))
                    = Legacy.mkRunning
                        (Legacy.upd id [Legacy.EvSocketDestroy (conn_id c)] (Legacy.world r))
                        Legacy.AtSocketDestroy).
    { simpl. unfold Legacy.resume. by destruct Hr as [-> | ->]. }
    cbn [map]. rewrite legacy_run_cons.
    destruct (IH (Legacy.turn parse decode r (Legacy.Resume (Some c)))) as (H1 & H2 & H3).
    { rewrite Hstep. by right. }
    split; [exact H1|]. rewrite H2, H3, Hstep. simpl. by rewrite <- app_assoc.
Qed.

Lemma legacy_close_again (r : Legacy.Running) :
  Legacy._closing (Legacy.this (Legacy.world r)) = true → Legacy.close r = r.
Proof. intros Hc. unfold Legacy.close. by rewrite Hc. Qed.

(** [close] in the older class runs the other way round.  Awaited with
    nothing else happening in between: the store is closed first, the
    listeners are removed before anything is awaited, the server is closed,
    the sockets the iteration yields are destroyed, the DHT is destroyed if
    the object owns it, and ['close'] is emitted last, to no subscriber.  A
    second call returns the promise of the first. *)
Lemma legacy_close_order (r : Legacy.Running) (yields : list Conn) :
  Legacy.teardown r = Legacy.NotStarted →
  Legacy._closing (Legacy.this (Legacy.world r)) = false →
  Legacy.trace (Legacy.world (Legacy.run parse decode (Legacy.close_alone yields) r)) =
    Legacy.trace (Legacy.world r)
    ++ [Legacy.EvCorestoreClose; Legacy.EvRemoveAllListeners; Legacy.EvServerClose]
    ++ map (fun c => Legacy.EvSocketDestroy (conn_id c)) yields
    ++ (if Legacy._shouldDestroyDHT (Legacy.this (Legacy.world r))
        then [Legacy.EvDhtDestroy] else [])
    ++ [Legacy.EvEmitClose 0] ∧
  Legacy.teardown (Legacy.run parse decode (Legacy.close_alone yields) r) = Legacy.Finished ∧
  Legacy.closed
    (Legacy.this (Legacy.world (Legacy.run parse decode (Legacy.close_alone yields) r))) = true ∧
  Legacy._closing
    (Legacy.this (Legacy.world (Legacy.run parse decode (Legacy.close_alone yields) r))) = true ∧
  Legacy.sockets
    (Legacy.this (Legacy.world (Legacy.run parse decode (Legacy.close_alone yields) r)))
    = Legacy.sockets (Legacy.this (Legacy.world r)).
Proof.
  intros Ht Hc. unfold Legacy.close_alone.
  rewrite !legacy_run_cons, legacy_run_app.
  set (r2 := Legacy.turn parse decode (Legacy.turn parse decode r Legacy.CallClose)
               (Legacy.Resume None)).
  assert (H2 : r2 = Legacy.mkRunning
                      (Legacy.unlisten (Legacy.close_prefix (Legacy.world r)))
                      Legacy.AtUnlisten).
  { unfold r2. simpl. unfold Legacy.close. by rewrite Hc. }
  destruct (legacy_run_yields yields r2) as (H3 & H4 & H5); [rewrite H2; by left|].
  set (r3 := Legacy.run parse decode _ r2) in *.
  rewrite H2 in H4, H5. unfold Legacy.close_prefix in H4, H5. rewrite Hc in H4, H5.
  simpl in H4, H5. rewrite !legacy_run_cons.
  assert (H6 : Legacy.turn parse decode r3 (Legacy.Resume None)
               = Legacy.mkRunning
                   (if Legacy._shouldDestroyDHT (Legacy.this (Legacy.world r3))
                    then Legacy.upd id [Legacy.EvDhtDestroy] (Legacy.world r3)
                    else Legacy.world r3)
                   Legacy.AtDhtDestroy).
  { simpl. unfold Legacy.resume. by destruct H3 as [-> | ->]. }
  rewrite H6. simpl. unfold Legacy.resume. simpl. rewrite H4. simpl.
  destruct (Legacy._shouldDestroyDHT (Legacy.this (Legacy.world r))); simpl;
    rewrite ?H4, H5, <- ?app_assoc; simpl; by rewrite <- ?app_assoc.
Qed.

End LegacyProperties.

(** * Runs on the sample identities *)

Section Runs.

#[local] Existing Instance Sample.hashes.

Lemma sample_discovery_inj : Inj (=) (=) (discovery_key (DriveHashes := Sample.hashes)).
Proof. intros a b H. by injection H. Qed.

(** C1, as stated, fails: on a local identity closed before [ready] ever
    ran, [protocol] still builds and registers an instance, [drive] still
    resolves to a new drive and [connect] still resolves to a new
    connection, starting the session on the way. *)
Lemma operations_after_close_still_succeed :
  closed (this Sample.closed_world) = true ∧
  (protocol Sample.chat Sample.closed_world).2
    = Ok (mkProtocolInst 0 (protocol_name Sample.chat)) ∧
  _protocols (this (protocol Sample.chat Sample.closed_world).1)
    = Some [(protocol_name Sample.chat, mkProtocolInst 0 (protocol_name Sample.chat))] ∧
  (exec (drive Sample.drive_opts) Sample.closed_world).2 = Ok 3 ∧
  _drives (this (exec (drive Sample.drive_opts) Sample.closed_world).1) !! Sample.keyC
    = Some 3 ∧
  match (exec (connect (TKey Sample.keyB)) Sample.closed_world).2 with
  | Ok (Some c) => connection c = Sample.connB
  | _ => False
  end ∧
  count_events is_DhtCreate
    (trace (exec (connect (TKey Sample.keyB)) Sample.closed_world).1) = 1.
Proof. vm_compute. repeat split; reflexivity. Qed.

(** C2 fails on the code: the flag [_ready] is set after the first
    [await], so two calls issued together both find it unset.  Each creates
    a DHT and a swarm and wires a listener; both build a public drive
    handle; and a call that arrives once the flag is set resolves at once,
    before the public drive is assigned. *)
Theorem concurrent_ready_initializes_twice :
  count_events is_DhtCreate (trace Sample.local_world) = 0 ∧
  count_events is_DhtCreate (trace Sample.two_ready.1) = 2 ∧
  map settled Sample.two_ready_done.2 = [true; true] ∧
  count_events is_DhtCreate (trace Sample.two_ready_done.1) = 2 ∧
  count_events is_SwarmNew (trace Sample.two_ready_done.1) = 2 ∧
  count_events is_SwarmOn (trace Sample.two_ready_done.1) = 2 ∧
  count_events is_DriveNew (trace Sample.two_ready_done.1) = 2 ∧
  _ready (this Sample.ready_midway) = true ∧
  publicDrive (this Sample.ready_midway) = None ∧
  ready Sample.ready_midway = (Sample.ready_midway, Ret (Some true)).
Proof. vm_compute. repeat split; reflexivity. Qed.

(** C3 fails on the code for [setProfile]: on a remote identity it throws
    no remote-identity error; it starts the session (a DHT, a swarm, the
    public drive) and fails only when the read-only drive refuses the
    write. *)
Theorem setProfile_runs_on_remote_identity :
  remote (this Sample.remote_world) = true ∧
  settled (setProfile alice Sample.remote_world).2 = false ∧
  (exec (setProfile alice) Sample.remote_world).2 = Err DriveNotWritable ∧
  RemoteIdentityError DriveNotWritable = false ∧
  count_events is_DhtCreate (trace (exec (setProfile alice) Sample.remote_world).1) = 1 ∧
  count_events is_SwarmNew (trace (exec (setProfile alice) Sample.remote_world).1) = 1 ∧
  _ready (this (exec (setProfile alice) Sample.remote_world).1) = true.
Proof. vm_compute. repeat split; reflexivity. Qed.

(** ** The theorems at the sample identities *)

Lemma connect_validates_before_ready_witness :
  (remote (this Sample.remote_world) = true ∧
   connect (TKey Sample.keyA) Sample.remote_world
     = (Sample.remote_world, Throw RemoteConnect)) ∧
  (remote (this Sample.local_world) = false ∧
   resolve_target (TKey Sample.keyA) = Ok (key (this Sample.local_world)) ∧
   connect (TKey Sample.keyA) Sample.local_world
     = (Sample.local_world, Throw ConnectSelf)).
Proof.
  split.
  - split; [reflexivity|].
    apply (connect_validates_before_ready Sample.remote_world (TKey Sample.keyA)).
    reflexivity.
  - split; [reflexivity|]. split; [reflexivity|].
    apply (connect_validates_before_ready Sample.local_world (TKey Sample.keyA));
      reflexivity.
Defined.

Lemma close_without_session_leaves_store_open_witness :
  ∃ w', close Sample.local_world = (w', Ret tt) ∧
        closed (this w') = true ∧
        trace w' = trace Sample.local_world ++ [EvEmitClose true] ∧
        count_events is_StoreClose (trace w')
          = count_events is_StoreClose (trace Sample.local_world) ∧
        store (this w') = store (this Sample.local_world) ∧ swarm (this w') = None.
Proof.
  apply (close_without_session_leaves_store_open Sample.local_world); reflexivity.
Defined.

Lemma close_idempotent_in_order_witness :
  jobs Sample.ready_world = [] ∧
  swarm (this Sample.ready_world) = Some 1 ∧
  trace (exec close Sample.ready_world).1
    = trace Sample.ready_world ++ [EvEmitClose true; EvSwarmDestroy 1; EvStoreClose] ∧
  exec close (exec close Sample.ready_world).1 = ((exec close Sample.ready_world).1, Ok tt).
Proof.
  split; [vm_compute; reflexivity|]. split; [vm_compute; reflexivity|].
  destruct (close_idempotent_in_order Sample.ready_world) as (_ & _ & Hagain & Htrace);
    [vm_compute; reflexivity|].
  split; [exact Htrace|exact Hagain].
Defined.

Lemma constructor_resolves_key_by_precedence_witness :
  (∃ w', constructor Sample.local_opts (genesis []) = (w', Ok tt) ∧
         key (this w') = publicKey Sample.kpA) ∧
  (∃ w', constructor Sample.remote_opts (genesis []) = (w', Ok tt) ∧
         key (this w') = Sample.keyB) ∧
  (∃ w', constructor Sample.url_opts (genesis []) = (w', Ok tt) ∧
         key (this w') = Sample.keyC) ∧
  (∃ w', constructor Sample.key_url_opts (genesis []) = (w', Ok tt) ∧
         key (this w') = Sample.keyB) ∧
  (∃ w', constructor Sample.all_opts (genesis []) = (w', Ok tt) ∧
         key (this w') = publicKey Sample.kpA) ∧
  key (this Sample.local_world) = publicKey Sample.kpA ∧
  ∃ e, constructor Sample.no_opts (genesis []) = (genesis [], Err e) ∧
       InvalidIdentity e = true.
Proof.
  assert (Hurl : ∀ s, Some Sample.keyC_url = Some s →
                   s = EmptyString ∨ ∃ u, SlashURL_parse s = Ok u)
    by (intros s [= <-]; right; eexists; reflexivity).
  split_and!.
  - apply (proj1 (constructor_resolves_key_by_precedence Sample.local_opts (genesis [])));
      [intros s Hs; discriminate Hs|reflexivity].
  - apply (proj1 (constructor_resolves_key_by_precedence Sample.remote_opts (genesis [])));
      [intros s Hs; discriminate Hs|reflexivity].
  - apply (proj1 (constructor_resolves_key_by_precedence Sample.url_opts (genesis [])));
      [exact Hurl|reflexivity].
  - apply (proj1 (constructor_resolves_key_by_precedence Sample.key_url_opts (genesis [])));
      [exact Hurl|reflexivity].
  - apply (proj1 (constructor_resolves_key_by_precedence Sample.all_opts (genesis [])));
      [exact Hurl|reflexivity].
  - apply (proj1 (proj2 (constructor_resolves_key_by_precedence Sample.local_opts
                           (genesis [Sample.keyB]))) Sample.local_world).
    reflexivity.
  - apply (proj2 (proj2 (constructor_resolves_key_by_precedence Sample.no_opts (genesis []))));
      reflexivity.
Defined.

Lemma sample_local_settled : settled_world Sample.local_world.
Proof. split; [reflexivity|reflexivity|intros _; reflexivity|intros H; discriminate H]. Defined.

Lemma profile_roundtrip_or_null_witness :
  (exec (setProfile alice) Sample.local_world).2 = Ok tt ∧
  (exec getProfile (exec (setProfile alice) Sample.local_world).1).2 = Ok (Some alice) ∧
  (exec getProfile Sample.local_world).2 = Ok None.
Proof.
  destruct (profile_roundtrip_or_null Sample.local_world alice sample_local_settled)
    as [Hset Hnone].
  destruct Hset as (H1 & _ & H3); [reflexivity|vm_compute; reflexivity|].
  split; [exact H1|]. split; [exact H3|]. apply Hnone. reflexivity.
Defined.

Lemma drive_twice_one_handle_one_announcement_witness :
  ∃ d w1 w2,
    exec (drive Sample.drive_opts) Sample.local_world = (w1, Ok d) ∧
    exec (drive Sample.drive_opts) w1 = (w2, Ok d) ∧
    _drives (this w2) !! Sample.keyC = Some d ∧ w2 = drive_hit Sample.drive_opts w1 ∧
    announcements Sample.keyC (trace w1)
      = S (announcements Sample.keyC (trace Sample.local_world)) ∧
    acknowledgements Sample.keyC (trace w1)
      = S (acknowledgements Sample.keyC (trace Sample.local_world)) ∧
    announcements Sample.keyC (trace w2) = announcements Sample.keyC (trace w1) ∧
    acknowledgements Sample.keyC (trace w2) = acknowledgements Sample.keyC (trace w1).
Proof.
  apply (drive_twice_one_handle_one_announcement Sample.local_world Sample.drive_opts
           Sample.keyC sample_local_settled sample_discovery_inj); reflexivity.
Defined.

Lemma connect_twice_same_connection_witness :
  ∃ r2 w2,
    exec (connect (TKey Sample.keyB)) Sample.connected_world = (w2, Ok (Some r2)) ∧
    connection r2 = connection Sample.connectedB ∧ w2 = Sample.connected_world ∧
    count_events is_JoinPeer (trace w2)
      = count_events is_JoinPeer (trace Sample.connected_world).
Proof.
  apply (connect_twice_same_connection Sample.local_world Sample.connected_world
           (TKey Sample.keyB) Sample.connectedB sample_local_settled).
  vm_compute. reflexivity.
Defined.

End Runs.

(** * Further properties of the class *)

(** ** The protocol [Map] *)

Lemma Map_get_set_eq {V} (k : string) (v : V) (m : list (string * V)) :
  Map_get k (Map_set k v m) = Some v.
Proof.
  induction m as [|[k' v'] m IH]; simpl.
  - by rewrite bool_decide_eq_true_2.
  - destruct (bool_decide (k = k')) eqn:Hk; simpl.
    + by rewrite bool_decide_eq_true_2.
    + by rewrite Hk.
Qed.

Lemma Map_get_set_ne {V} (k k0 : string) (v : V) (m : list (string * V)) :
  k0 ≠ k → Map_get k0 (Map_set k v m) = Map_get k0 m.
Proof.
  intros Hne. induction m as [|[k' v'] m IH]; simpl.
  - by rewrite bool_decide_eq_false_2.
  - destruct (bool_decide (k = k')) eqn:Hk; simpl.
    + apply bool_decide_eq_true in Hk. subst k'. by rewrite !bool_decide_eq_false_2.
    + by rewrite IH.
Qed.

Lemma Map_get_None {V} (k : string) (m : list (string * V)) :
  Map_get k m = None ↔ k ∉ m.*1.
Proof.
  induction m as [|[k' v'] m IH]; simpl.
  - split; [intros _; apply not_elem_of_nil|done].
  - rewrite not_elem_of_cons. destruct (bool_decide (k = k')) eqn:Hk.
    + apply bool_decide_eq_true in Hk. split; [done|]. by intros [? _].
    + apply bool_decide_eq_false in Hk. rewrite IH. tauto.
Qed.

Lemma Map_set_fresh {V} (k : string) (v : V) (m : list (string * V)) :
  Map_get k m = None → Map_set k v m = m ++ [(k, v)].
Proof.
  induction m as [|[k' v'] m IH]; simpl; [done|].
  destruct (bool_decide (k = k')); [done|]. intros H. by rewrite IH.
Qed.

Section MoreProperties.

Context {hashes : DriveHashes}.

(** ** [ready], [listen] *)

(** X1: [ready()] awaited on an identity on which it never ran resolves to
    [undefined], having created one DHT and one swarm with one
    ['connection'] listener and cached the public drive under the
    identity's own key; awaited again, it resolves to [true] and leaves the
    world as it was. *)
Theorem ready_first_undefined_then_true (w : World) :
  settled_world w → _ready (this w) = false →
  ∃ w1 s d,
    exec ready w = (w1, Ok None) ∧
    swarm (this w1) = Some s ∧ publicDrive (this w1) = Some d ∧
    _drives (this w1) !! key (this w) = Some d ∧
    sw_handlers <$> swarms w1 !! s = Some 1 ∧
    count_events is_DhtCreate (trace w1) = S (count_events is_DhtCreate (trace w)) ∧
    count_events is_SwarmNew (trace w1) = S (count_events is_SwarmNew (trace w)) ∧
    count_events is_DriveNew (trace w1) = S (count_events is_DriveNew (trace w)) ∧
    exec ready w1 = (w1, Ok (Some true)).
Proof.
  intros [Hj Hid Hf Hs] Hr.
  exists (ready_init w), (S (next_id w)), (S (S (next_id w))).
  rewrite exec_ready_init by (rewrite ?Hf; done).
  split; [done|]. split; [done|]. split; [done|].
  split; [simpl; apply lookup_insert_eq|].
  split; [simpl; by rewrite lookup_alter_eq, lookup_insert_eq|].
  simpl. count_trace.
  split; [lia|]. split; [lia|]. split; [lia|].
  by apply exec_ready_memo.
Qed.

(** X2: on a local identity [listen()] brings the session up as [ready()]
    does and then asks the swarm to listen; nothing remembers that it did:
    a second [listen()] asks the swarm again. *)
Theorem listen_starts_session_and_listens (w : World) :
  settled_world w → remote (this w) = false →
  ∃ s, swarm (this (exec ready w).1) = Some s ∧
       exec listen w = (log [EvSwarmListen s] (exec ready w).1, Ok tt) ∧
       exec listen (exec listen w).1
         = (log [EvSwarmListen s; EvSwarmListen s] (exec ready w).1, Ok tt).
Proof.
  intros Hw Hrem.
  destruct (exec_ready_settled w Hw)
    as (w1 & r & Hready & Hw1 & Hr1 & _ & _ & _ & Hrem1 & _).
  rewrite Hready. cbn [fst]. pose proof Hw1 as [Hj1 _ _ Hs1].
  destruct (Hs1 Hr1) as (s & d & D & Hsw & _).
  exists s. split; [done|].
  assert (Hfirst : exec listen w = (log [EvSwarmListen s] w1, Ok tt)).
  { unfold listen. rewrite exec_gets, Hrem, exec_await, Hready, bind_result_ok.
    unfold listen_rest. rewrite exec_gets, Hsw. by repeat exec_step. }
  split; [done|]. rewrite Hfirst. cbn [fst].
  unfold listen. rewrite exec_gets. simpl. rewrite Hrem1, Hrem.
  rewrite exec_await, exec_ready_memo, bind_result_ok by done.
  unfold listen_rest. rewrite exec_gets. simpl. rewrite Hsw.
  repeat exec_step. f_equal. same_world.
Qed.

(** ** Protocols *)

(** X3: an identity constructed without a key pair is remote.  Protocols
    handed to its constructor are passed over without an error: there is no
    registry, no instance is built, and [listen] and [protocol] reject it
    in their first statement, the world left as it was. *)
Theorem remote_identity_registers_no_protocol
    (opts : Opts) (w w' : World) (P : ProtocolClass) :
  o_keyPair opts = None → constructor opts w = (w', Ok tt) →
  remote (this w') = true ∧ _protocols (this w') = None ∧
  count_events is_ProtocolNew (trace w') = count_events is_ProtocolNew (trace w) ∧
  listen w' = (w', Throw RemoteListen) ∧
  protocol P w' = (w', Err RemoteProtocol).
Proof.
  intros Hkp. unfold constructor, sbind, lift. simpl.
  destruct (resolve_url (o_url opts)) as [u|e]; simpl; [|discriminate].
  destruct (resolve_key opts u) as [k|]; simpl; [|discriminate].
  unfold gets, modify, emit, sret. rewrite Hkp. simpl. intros [= <-].
  split; [done|]. split; [done|]. split; [|done].
  simpl. count_trace. destruct (o_store opts); simpl; count_trace; lia.
Qed.

(** [protocol] on a local identity, by cases on the registry. *)
Lemma protocol_hit (P : ProtocolClass) (w : World) (p : ProtocolInst) :
  remote (this w) = false →
  _protocols (this w) ≫= Map_get (protocol_name P) = Some p →
  protocol P w = (w, Ok p).
Proof.
  intros Hrem Hget. unfold protocol, sbind, gets, sret. simpl. by rewrite Hrem, Hget.
Qed.

Lemma protocol_miss (P : ProtocolClass) (w : World) :
  remote (this w) = false →
  _protocols (this w) ≫= Map_get (protocol_name P) = None →
  protocol P w =
    (upd_this (fun s => set_protocols
                 (Map_set (protocol_name P) (mkProtocolInst (next_id w) (protocol_name P))
                    <$> _protocols s) s)
       (log [EvProtocolNew (next_id w) (protocol_name P)] (set_next_id (S (next_id w)) w)),
     Ok (mkProtocolInst (next_id w) (protocol_name P))).
Proof.
  intros Hrem Hget. unfold protocol, sbind, gets, sret, fresh, emit, modify. simpl.
  by rewrite Hrem, Hget.
Qed.

(** X4: on a local identity [protocol(P)] returns one instance per protocol
    name.  A class registered under a name already taken, [P] itself or
    another class [Q] of that name, is not instantiated: the call returns the
    registered instance and changes nothing.  The instances registered
    under other names are kept. *)
Theorem protocol_one_instance_per_name
    (w : World) (P Q : ProtocolClass) (reg : list (string * ProtocolInst)) :
  remote (this w) = false → _protocols (this w) = Some reg →
  protocol_name Q = protocol_name P →
  ∃ p, (protocol P w).2 = Ok p ∧
       protocol Q (protocol P w).1 = ((protocol P w).1, Ok p) ∧
       count_events is_ProtocolNew (trace (protocol P w).1)
         = count_events is_ProtocolNew (trace w)
           + (match Map_get (protocol_name P) reg with Some _ => 0 | None => 1 end) ∧
       ∀ R, protocol_name R ≠ protocol_name P →
            _protocols (this (protocol P w).1) ≫= Map_get (protocol_name R)
              = Map_get (protocol_name R) reg.
Proof.
  intros Hrem Hreg HQ.
  destruct (Map_get (protocol_name P) reg) as [p|] eqn:Hget.
  - assert (Hhit : _protocols (this w) ≫= Map_get (protocol_name P) = Some p)
      by (by rewrite Hreg).
    rewrite (protocol_hit P w p Hrem Hhit). exists p. cbn [fst snd].
    split; [done|]. split; [apply protocol_hit; [done|by rewrite HQ]|].
    split; [lia|]. intros R _. by rewrite Hreg.
  - assert (Hmiss : _protocols (this w) ≫= Map_get (protocol_name P) = None)
      by (by rewrite Hreg).
    rewrite (protocol_miss P w Hrem Hmiss). eexists. cbn [fst snd].
    split; [done|]. split.
    + apply protocol_hit; [done|]. simpl. rewrite Hreg, HQ. simpl.
      apply Map_get_set_eq.
    + split; [simpl; count_trace; lia|].
      intros R HR. simpl. rewrite Hreg. simpl. by apply Map_get_set_ne.
Qed.

(** Registering protocols makes no call but the construction of the
    instances. *)
Lemma protocol_count (f : Event → bool) (P : ProtocolClass) (w : World) :
  (∀ i name, f (EvProtocolNew i name) = false) →
  count_events f (trace (protocol P w).1) = count_events f (trace w).
Proof.
  intros Hf. unfold protocol, sbind, gets, sthrow, sret, fresh, emit, modify. simpl.
  destruct (remote (this w)); simpl; [done|].
  destruct (_protocols (this w) ≫= Map_get (protocol_name P)); simpl; [done|].
  count_trace. rewrite Hf. lia.
Qed.

Lemma forEach_protocol_count (f : Event → bool) (l : list ProtocolClass) (w : World) :
  (∀ i name, f (EvProtocolNew i name) = false) →
  count_events f (trace (forEach l protocol w).1) = count_events f (trace w).
Proof.
  intros Hf. revert w. induction l as [|P l IH]; intros w; simpl; [done|].
  unfold sbind. pose proof (protocol_count f P w Hf) as HP.
  destruct (protocol P w) as [w1 [p|e]]; simpl in *; [|done].
  by rewrite IH.
Qed.

(** The loop of the constructor over [opts.protocols]: the registry grows
    by the names not yet in it, each getting one instance. *)
Lemma forEach_protocol_registry (l : list ProtocolClass) (w : World)
    (reg : list (string * ProtocolInst)) :
  remote (this w) = false → _protocols (this w) = Some reg → NoDup reg.*1 →
  ∃ w' reg',
    forEach l protocol w = (w', Ok tt) ∧ remote (this w') = false ∧
    _protocols (this w') = Some reg' ∧ NoDup reg'.*1 ∧
    (∀ name, name ∈ reg'.*1 ↔ name ∈ reg.*1 ∨ name ∈ protocol_name <$> l) ∧
    count_events is_ProtocolNew (trace w') + length reg
      = count_events is_ProtocolNew (trace w) + length reg' ∧
    keyPair (this w') = keyPair (this w) ∧ key (this w') = key (this w).
Proof.
  revert w reg. induction l as [|P l IH]; intros w reg Hrem Hreg Hnd.
  - exists w, reg. simpl. repeat split; try done.
    + by left.
    + intros [?|H]; [done|]. by apply elem_of_nil in H.
  - simpl. unfold sbind at 1.
    destruct (Map_get (protocol_name P) reg) as [p|] eqn:Hget.
    + rewrite (protocol_hit P w p) by (by rewrite ?Hreg).
      destruct (IH w reg Hrem Hreg Hnd) as (w' & reg' & H1 & H2 & H3 & H4 & H5 & H6 & H7).
      exists w', reg'. repeat split; try done.
      * intros H. apply H5 in H as [H|H]; [by left|]. right. by apply elem_of_cons; right.
      * intros [H|H]; apply H5; [by left|].
        apply elem_of_cons in H as [->|H]; [|by right]. left.
        apply dec_stable. intros Hn. apply Map_get_None in Hn. congruence.
      * apply H7.
      * apply H7.
    + rewrite (protocol_miss P w) by (by rewrite ?Hreg).
      set (p := mkProtocolInst (next_id w) (protocol_name P)).
      match goal with |- context [forEach l protocol ?w0] =>
        destruct (IH w0 (reg ++ [(protocol_name P, p)])) as
          (w' & reg' & H1 & H2 & H3 & H4 & H5 & H6 & H7 & H8) end; try done.
      { simpl. rewrite Hreg. simpl. by rewrite (Map_set_fresh _ p reg Hget). }
      { rewrite fmap_app. apply NoDup_app. split; [done|]. split.
        - intros x Hx Hx'. apply list_elem_of_singleton in Hx'. subst x.
          by apply Map_get_None in Hget.
        - apply NoDup_singleton. }
      exists w', reg'. split; [exact H1|]. repeat split; try done.
      * intros H. apply H5 in H as [H|H]; [|by right; apply elem_of_cons; right].
        rewrite fmap_app in H. apply elem_of_app in H as [H|H]; [by left|].
        apply list_elem_of_singleton in H. subst name. right. by apply elem_of_cons; left.
      * intros [H|H]; apply H5.
        -- left. rewrite fmap_app. apply elem_of_app. by left.
        -- apply elem_of_cons in H as [->|H]; [|by right].
           left. rewrite fmap_app. apply elem_of_app. right. by apply list_elem_of_singleton.
      * simpl in H6. rewrite length_app in H6. revert H6. count_trace. simpl. lia.
Qed.

(** X5: the constructor of a local identity registers the protocols of
    [opts.protocols]: when it returns, the registry holds one instance per
    name that occurs in the list, however often the name occurs, and that
    many instances were built. *)
Theorem constructor_registers_each_protocol_once
    (opts : Opts) (kp : KeyPair) (w w' : World) :
  o_keyPair opts = Some kp → constructor opts w = (w', Ok tt) →
  ∃ reg, _protocols (this w') = Some reg ∧ NoDup reg.*1 ∧
         (∀ name, name ∈ reg.*1 ↔
                  name ∈ protocol_name <$> default [] (o_protocols opts)) ∧
         count_events is_ProtocolNew (trace w')
           = count_events is_ProtocolNew (trace w) + length reg.
Proof.
  intros Hkp. unfold constructor, sbind at 1, lift.
  destruct (resolve_url (o_url opts)) as [u|e]; [|discriminate].
  destruct (resolve_key opts u) as [k|]; [|discriminate].
  unfold sbind, gets, modify, emit, sret. rewrite Hkp. simpl.
  match goal with |- context [forEach ?l protocol ?w0] =>
    destruct (forEach_protocol_registry l w0 []) as
      (w1 & reg & H1 & H2 & H3 & H4 & H5 & H6 & _); [done|done|apply NoDup_nil_2|] end.
  unfold sbind in H1. rewrite H1. intros [= <-]. simpl.
  exists reg. split; [done|]. split; [done|]. split.
  - intros name. rewrite H5. split; [|by right]. intros [H|H]; [|done].
    by apply elem_of_nil in H.
  - simpl in H6. revert H6. count_trace. destruct (o_store opts); simpl; count_trace; lia.
Qed.

(** ** Construction *)

(** X6: what the constructor assigns besides the key.  The store is the
    namespace of the key, in a [Corestore] of its own exactly when none was
    passed in; the url is the one passed in, as parsed and whatever key it
    carries, and the url of the key when none was passed in; the swarm
    options are kept for [ready()]; the object is not closed, and one exit
    hook is registered. *)
Theorem constructor_assigns_store_and_url (opts : Opts) (w w' : World) :
  constructor opts w = (w', Ok tt) →
  store (this w') = key (this w') ∧
  (∀ u, resolve_url (o_url opts) = Ok (Some u) → url (this w') = u) ∧
  (resolve_url (o_url opts) = Ok None → url (this w') = SlashURL_of_key (key (this w'))) ∧
  _swarmOpts (this w') = o_swarmOpts opts ∧ closed (this w') = false ∧
  count_events is_CorestoreNew (trace w')
    = count_events is_CorestoreNew (trace w) + (if o_store opts then 0 else 1) ∧
  count_events is_Goodbye (trace w') = S (count_events is_Goodbye (trace w)).
Proof.
  unfold constructor, sbind at 1, lift.
  destruct (resolve_url (o_url opts)) as [u|e]; [|discriminate].
  destruct (resolve_key opts u) as [k|]; [|discriminate].
  unfold sbind, gets, modify, emit, sret. simpl.
  assert (Hcount : ∀ tr (f : Event → bool),
            f (EvNamespace k) = false →
            count_events f ((tr ++ (if o_store opts then [] else [EvCorestoreNew])
                                ++ [EvNamespace k]) ++ [EvGoodbye])
            = count_events f tr
              + (if o_store opts then 0 else if f EvCorestoreNew then 1 else 0)
              + (if f EvGoodbye then 1 else 0)).
  { intros tr f Hf. destruct (o_store opts); count_trace; rewrite Hf; lia. }
  destruct (is_some (o_keyPair opts)) eqn:Hkp; simpl.
  - match goal with |- context [forEach ?l protocol ?w0] =>
      pose proof (forEach_protocol_frame l w0) as HF;
      pose proof (forEach_protocol_count is_CorestoreNew l w0 (fun _ _ => eq_refl)) as HC1;
      pose proof (forEach_protocol_count is_Goodbye l w0 (fun _ _ => eq_refl)) as HC2;
      destruct (forEach l protocol w0) as [w1 [[]|e]] end; simpl in *; [|discriminate].
    intros [= <-]. simpl. rewrite !count_events_app, HC1, HC2, HF. simpl.
    split; [done|]. split; [by intros ? [= ->]|]. split; [by intros [= ->]|].
    split; [done|]. split; [done|].
    destruct (o_store opts); count_trace; lia.
  - intros [= <-]. simpl.
    split; [done|]. split; [by intros ? [= ->]|]. split; [by intros [= ->]|].
    split; [done|]. split; [done|]. rewrite !Hcount by done. simpl.
    destruct (o_store opts); lia.
Qed.

(** ** Incoming and outgoing connections *)

(** X7: the handler of a new connection never throws.  It replicates the
    store on the socket, attaches to the peer's record a remote identity on
    the peer's public key (a [Slashtag] of its own, with a store and an exit
    hook of its own, carrying the swarm options of this one), opens one
    channel per registered protocol in the order of registration, and only
    then emits ['connection']; the identity itself is not changed. *)
Theorem handleConnection_attaches_remote_peer (c : Conn) (p : PeerInfo) (w : World) :
  ∃ peer,
    _handleConnection c p w =
      (log ([EvReplicate (conn_id c); EvCorestoreNew; EvNamespace (peer_publicKey p);
             EvGoodbye]
            ++ map (fun e => EvCreateChannel (pi_id e.2) (conn_id c))
                 (default [] (_protocols (this w)))
            ++ [EvEmitConnection (conn_id c)]) w,
       Ok (mkPeerInfo (peer_publicKey p) (Some peer))) ∧
    key peer = peer_publicKey p ∧ remote peer = true ∧ keyPair peer = None ∧
    closed peer = false ∧ _ready peer = false ∧ swarm peer = None ∧
    _swarmOpts peer = _swarmOpts (this w) ∧
    url peer = SlashURL_of_key (peer_publicKey p).
Proof.
  exists (mkSlashtag None true (SlashURL_of_key (peer_publicKey p)) (peer_publicKey p)
            (_swarmOpts (this w)) (peer_publicKey p) ∅ None false false None None).
  split; [|done].
  unfold _handleConnection, new_Slashtag, constructor, _setupProtocols.
  unfold sbind, lift, gets, emit, modify, sret. simpl.
  destruct (_protocols (this w)) as [reg|]; simpl; f_equal;
    apply World_ext; simpl; try done; by rewrite <- ?app_assoc, ?app_nil_r.
Qed.

End MoreProperties.

(** * What every method keeps *)

Section Invariants.

Context {hashes : DriveHashes}.

Lemma keeps_refl (w : World) : steady w → keeps w w.
Proof. intros Hw. unfold keeps. by split_and!. Qed.

Lemma keeps_trans (w1 w2 w3 : World) : keeps w1 w2 → keeps w2 w3 → keeps w1 w3.
Proof.
  intros (_ & H1 & H2 & H3 & H4 & H5 & H6) (Hw & H7 & H8 & H9 & H10 & H11 & H12).
  unfold keeps. split_and!; try congruence; [by etrans|auto].
Qed.

(** A step that changes neither the cache nor the session, and leaves the
    handles allocated so far as they were. *)
Lemma keeps_fields (w w' : World) :
  steady w → jobs w' = [] →
  remote (this w') = remote (this w) → keyPair (this w') = keyPair (this w) →
  key (this w') = key (this w) → store (this w') = store (this w) →
  _ready (this w') = _ready (this w) →
  swarm (this w') = swarm (this w) → publicDrive (this w') = publicDrive (this w) →
  _drives (this w') = _drives (this w) →
  is_some (_protocols (this w')) = is_some (_protocols (this w)) →
  next_id w ≤ next_id w' →
  (∀ d, d < next_id w → drives w' !! d = drives w !! d) →
  keeps w w'.
Proof.
  intros [[Hj Hid Hf Hs] Hreg Hc Hp] Hj' Hrem Hkp Hkey Hst Hr Hsw Hpd Hdr Hpr Hle Hheap.
  split; [|rewrite Hdr, Hr; by split_and!]. split.
  - split; [done|by rewrite Hrem, Hkp|by rewrite Hr, Hdr|].
    rewrite Hr. intros Hr'. destruct (Hs Hr') as (s & d & D & H1 & H2 & H3 & H4 & H5 & H6).
    exists s, d, D. rewrite Hsw, Hpd, Hkey, Hkp, Hheap by done.
    repeat split; try done. lia.
  - by rewrite Hpr, Hrem.
  - rewrite Hdr. intros K d HK. destruct (Hc K d HK) as [Hlt HD].
    rewrite Hheap by done. split; [lia|done].
  - rewrite Hr, Hdr, Hkey, Hpd. exact Hp.
Qed.

(** The same for a step that leaves [this] as it was. *)
Lemma keeps_this (w w' : World) :
  steady w → jobs w' = [] → this w' = this w → next_id w ≤ next_id w' →
  (∀ d, d < next_id w → drives w' !! d = drives w !! d) →
  keeps w w'.
Proof. intros Hw Hj Hth Hle Hheap. apply keeps_fields; try done; by rewrite Hth. Qed.

Lemma keeps_ready_init (w : World) :
  steady w → _ready (this w) = false → keeps w (ready_init w).
Proof.
  intros [[Hj Hid Hf Hs] Hreg Hc Hp] Hr.
  split; [|rewrite (Hf Hr); split; [apply map_empty_subseteq|by split_and!]]. split.
  - by apply ready_init_settled.
  - exact Hreg.
  - simpl. rewrite (Hf Hr). intros K d HK.
    apply lookup_insert_Some in HK as [[<- <-]|[_ HK]]; [|by rewrite lookup_empty in HK].
    split; [lia|]. by rewrite lookup_insert_eq.
  - intros _. simpl. apply lookup_insert_eq.
Qed.

Lemma keeps_drive_miss (opts : DriveOpts) (s : nat) (w : World) :
  steady w → _ready (this w) = true → swarm (this w) = Some s →
  _drives (this w) !! resolved_key opts w = None →
  keeps w (drive_miss opts s w).
Proof.
  intros Hw Hr Hsw Hnone. pose proof Hw as [Hset Hreg Hc Hp].
  pose proof Hset as [Hj Hid Hf Hs].
  destruct (Hs Hr) as (s0 & d0 & D0 & H1 & H2 & H3 & H4 & H5 & H6).
  assert (Hne : resolved_key opts w ≠ key (this w)).
  { intros Heq. rewrite Heq, (Hp Hr), H2 in Hnone. discriminate. }
  split; [|split; [by apply insert_subseteq|by split_and!]]. split.
  - apply (settled_step w); simpl; try done; [lia|].
    intros d Hd. rewrite lookup_insert_ne; [done|lia].
  - exact Hreg.
  - simpl. intros K d HK. apply lookup_insert_Some in HK as [[<- <-]|[_ HK]].
    + split; [lia|]. by rewrite lookup_insert_eq.
    + destruct (Hc K d HK) as [Hlt HD]. split; [lia|].
      rewrite lookup_insert_ne; [done|lia].
  - intros _. simpl. rewrite lookup_insert_ne by done. by apply Hp.
Qed.

(** [ready()] from a world that has the invariant. *)
Lemma exec_ready_keeps (w : World) :
  steady w →
  ∃ wr r, exec ready w = (wr, Ok r) ∧ keeps w wr ∧ _ready (this wr) = true ∧
          files wr = files w.
Proof.
  intros Hw. pose proof Hw as [[Hj Hid Hf Hs] _ _ _].
  destruct (_ready (this w)) eqn:Hr.
  - exists w, (Some true). rewrite exec_ready_memo by done.
    split; [done|]. split; [by apply keeps_refl|done].
  - exists (ready_init w), None. rewrite exec_ready_init; [|done|done|by rewrite Hf].
    split; [done|]. split; [by apply keeps_ready_init|done].
Qed.

Lemma exec_drive_rest_keeps (opts : DriveOpts) (w : World) :
  steady w → _ready (this w) = true →
  ∃ d, (exec (drive_rest opts) w).2 = Ok d ∧ keeps w (exec (drive_rest opts) w).1 ∧
       _drives (this (exec (drive_rest opts) w).1) !! resolved_key opts w = Some d.
Proof.
  intros Hw Hr. pose proof Hw as [[Hj Hid Hf Hs] _ _ _].
  destruct (Hs Hr) as (s & d0 & D0 & Hsw & _).
  destruct (_drives (this w) !! resolved_key opts w) as [e|] eqn:Hc.
  - rewrite (exec_drive_rest_hit opts w e Hj Hc). exists e. split; [done|].
    split; [|done]. apply keeps_this; simpl; try done; [lia|].
    intros d Hd. rewrite lookup_insert_ne; [done|lia].
  - rewrite (exec_drive_rest_miss opts w s Hj Hc Hsw). eexists. split; [done|].
    split; [by apply keeps_drive_miss|]. simpl. apply lookup_insert_eq.
Qed.

(** What [connect] does after [ready]: it allocates at most a connection. *)
Lemma exec_connect_rest_frame (k : Key) (w w' : World) (r : Result (option Connected)) :
  jobs w = [] → exec (connect_rest k) w = (w', r) →
  this w' = this w ∧ jobs w' = [] ∧ drives w' = drives w ∧ next_id w ≤ next_id w'.
Proof.
  intros Hj. unfold connect_rest. exec_step.
  destruct (swarm (this w)) as [s|] eqn:Hsw; simpl;
    [|exec_run; intros [= <- <-]; by split_and!].
  exec_step.
  destruct (swarms w !! s ≫= _) as [c|]; simpl;
    [exec_run; intros [= <- <-]; by split_and!|].
  unfold exec, catchConnection, swarm_joinPeer, emit, modify. simpl.
  rewrite (drain_quiet (log [EvJoinPeer s k] w)) by done.
  pose proof (deliver_outcome s k (log [EvJoinPeer s k] w)) as HD.
  destruct (deliver s k (log [EvJoinPeer s k] w)) as [w1 [[c|]|e|k']];
    cbn [settle fst snd] in *; try done.
  - destruct HD as (Hth & Hjb & Hdr & Hid & _). simpl in Hth, Hjb, Hdr, Hid.
    rewrite drain_quiet by (by rewrite Hjb). intros [= <- <-].
    rewrite Hth, Hjb, Hdr, Hid. split_and!; try done. lia.
  - subst w1. rewrite drain_quiet by done. intros [= <- <-]. by split_and!.
Qed.

Lemma protocol_keeps (P : ProtocolClass) (w : World) : steady w → keeps w (protocol P w).1.
Proof.
  intros Hw. pose proof Hw as [[Hj Hid Hf Hs] Hreg _ _].
  unfold protocol, sbind, gets, sthrow, sret, fresh, emit, modify. simpl.
  destruct (remote (this w)) eqn:Hrem; simpl; [by apply keeps_refl|].
  destruct (_protocols (this w) ≫= Map_get (protocol_name P)); simpl;
    [by apply keeps_refl|].
  apply keeps_fields; simpl; try done; [|lia].
  by destruct (_protocols (this w)).
Qed.

Lemma exec_close_keeps (w : World) : steady w → keeps w (exec close w).1.
Proof.
  intros Hw. pose proof Hw as [[Hj Hid Hf Hs] _ _ _].
  destruct (closed (this w)) eqn:Hc; [rewrite exec_close_closed by done; by apply keeps_refl|].
  destruct (swarm (this w)) as [s|] eqn:Hsw.
  - rewrite (exec_close_session w s) by done. by apply keeps_fields.
  - rewrite exec_close_no_session by done. by apply keeps_fields.
Qed.

(** X8: the worlds the constructor leaves have the invariant the methods
    rely on, and are initial: nothing is queued, the identity is remote
    exactly when no key pair was passed in, the registry of protocols exists
    exactly on a local identity, no drive is cached, and no session is up:
    [ready()] has not run, there is no swarm and no public drive. *)
Theorem constructor_leaves_steady (opts : Opts) (w w' : World) :
  jobs w = [] → constructor opts w = (w', Ok tt) →
  steady w' ∧ jobs w' = [] ∧
  remote (this w') = negb (is_some (o_keyPair opts)) ∧
  is_some (_protocols (this w')) = is_some (o_keyPair opts) ∧
  _drives (this w') = ∅ ∧
  _ready (this w') = false ∧ swarm (this w') = None ∧ publicDrive (this w') = None.
Proof.
  intros Hj Hc.
  pose proof (constructor_settled opts w w' Hj Hc) as Hset.
  destruct (constructor_fresh opts w w' Hc) as (Hsw & _ & Hr & Hd & Hpd & Hid & Hj').
  assert (Hreg : remote (this w') = negb (is_some (o_keyPair opts)) ∧
                 is_some (_protocols (this w')) = is_some (o_keyPair opts)).
  { revert Hc. unfold constructor, sbind at 1, lift.
    destruct (resolve_url (o_url opts)) as [u|e]; [|discriminate].
    destruct (resolve_key opts u) as [k|]; [|discriminate].
    unfold sbind, gets, modify, emit, sret. simpl.
    destruct (o_keyPair opts) as [kp|]; simpl; [|by intros [= <-]].
    match goal with |- context [forEach ?l protocol ?w0] =>
      destruct (forEach_protocol_registry l w0 []) as
        (w1 & reg & H1 & H2 & H3 & _); [done|done|apply NoDup_nil_2|] end.
    unfold sbind in H1. rewrite H1. intros [= <-]. simpl. by rewrite H2, H3. }
  destruct Hreg as [Hrem Hreg].
  split_and!; try done; [|congruence].
  split; [done| |by rewrite Hd; intros K d; rewrite lookup_empty|by rewrite Hr].
  rewrite Hreg, Hrem. by destruct (is_some (o_keyPair opts)).
Qed.

(** X9: every method, awaited alone in a world that has the invariant,
    leaves a world that has it: [ready], [listen], [connect], [protocol],
    [setProfile], [getProfile], [drive] and [close], whether they resolve or
    throw.  None of them evicts or replaces a cached drive, [close]
    included, and none changes the key, the key pair or the remote flag. *)
Theorem every_method_keeps_the_invariant
    (w : World) (t : Target) (P : ProtocolClass) (p : JSON) (opts : DriveOpts) :
  steady w →
  keeps w (exec ready w).1 ∧ keeps w (exec listen w).1 ∧
  keeps w (exec (connect t) w).1 ∧ keeps w (protocol P w).1 ∧
  keeps w (exec (setProfile p) w).1 ∧ keeps w (exec getProfile w).1 ∧
  keeps w (exec (drive opts) w).1 ∧ keeps w (exec close w).1.
Proof.
  intros Hw. pose proof Hw as [[Hj0 _ _ _] _ _ _].
  destruct (exec_ready_keeps w Hw) as (wr & r & Hready & Hk & Hr & _).
  pose proof Hk as [Hwr _]. pose proof Hwr as [[Hj _ _ Hs] _ _ _].
  destruct (Hs Hr) as (s & d & D & Hsw & Hpd & Hd & Hdk & Hwt & Hlt).
  split; [by rewrite Hready|].
  split.
  { unfold listen. rewrite exec_gets.
    destruct (remote (this w)); [rewrite exec_throw, drain_quiet by done; by apply keeps_refl|].
    rewrite exec_await, Hready, bind_result_ok. apply (keeps_trans _ wr); [done|].
    unfold listen_rest. rewrite exec_gets, Hsw. exec_run.
    apply keeps_this; simpl; done || lia. }
  split.
  { rewrite exec_connect_eq.
    destruct (remote (this w)); [rewrite drain_quiet by done; by apply keeps_refl|].
    destruct (resolve_target t) as [k|e]; [|rewrite drain_quiet by done; by apply keeps_refl].
    destruct (b4a_equals k (key (this w)));
      [rewrite drain_quiet by done; by apply keeps_refl|].
    rewrite Hready, bind_result_ok. apply (keeps_trans _ wr); [done|].
    destruct (exec (connect_rest k) wr) as [w1 r1] eqn:Hc.
    destruct (exec_connect_rest_frame k wr w1 r1 Hj Hc) as (H1 & H2 & H3 & H4).
    cbn [fst]. apply keeps_this; try done. intros d0 _. by rewrite H3. }
  split; [by apply protocol_keeps|].
  split.
  { unfold setProfile. rewrite exec_await, Hready, bind_result_ok.
    apply (keeps_trans _ wr); [done|].
    unfold setProfile_rest. exec_step. rewrite Hpd. exec_step.
    rewrite (exec_SlashDrive_put d D) by done.
    destruct (writable D); lazy iota; exec_run; [|by apply keeps_refl].
    apply keeps_this; simpl; done || lia. }
  split.
  { unfold getProfile. rewrite exec_await, Hready, bind_result_ok.
    apply (keeps_trans _ wr); [done|].
    rewrite (exec_getProfile_rest wr d D) by done.
    apply keeps_this; simpl; done || lia. }
  split.
  { unfold drive, drive_body. rewrite exec_await, Hready, bind_result_ok.
    apply (keeps_trans _ wr); [done|].
    by destruct (exec_drive_rest_keeps opts wr Hwr Hr) as (e & _ & Hke & _). }
  by apply exec_close_keeps.
Qed.

(** [drive(opts)] from a world that has the invariant. *)
Lemma exec_drive_keeps (opts : DriveOpts) (w : World) :
  steady w →
  ∃ w1 d, exec (drive opts) w = (w1, Ok d) ∧ keeps w w1 ∧
          _drives (this w1) !! resolved_key opts w = Some d ∧ _ready (this w1) = true.
Proof.
  intros Hw.
  destruct (exec_ready_keeps w Hw) as (wr & r & Hready & Hk & Hr & _).
  pose proof Hk as (Hwr & _ & _ & _ & _ & Hst & _).
  assert (Hres : resolved_key opts wr = resolved_key opts w)
    by (unfold resolved_key; by rewrite Hst).
  unfold drive, drive_body. rewrite exec_await, Hready, bind_result_ok.
  destruct (exec_drive_rest_keeps opts wr Hwr Hr) as (e & He & Hke & Hce).
  destruct (exec (drive_rest opts) wr) as [w1 res]. simpl in *. subst res.
  exists w1, e. split; [done|]. split; [by apply (keeps_trans _ wr)|].
  rewrite <- Hres. split; [done|]. destruct Hke as (_ & _ & _ & _ & _ & _ & Hr1). auto.
Qed.

(** X10: [drive(opts)] resolves to the handle cached under the key the
    options resolve to; on the identity's own key that handle is the public
    drive, the object [ready()] stored in [publicDrive]. *)
Theorem drive_on_own_key_is_public_drive (w : World) (opts : DriveOpts) :
  steady w →
  ∃ w1 d, exec (drive opts) w = (w1, Ok d) ∧
          _drives (this w1) !! resolved_key opts w = Some d ∧
          (resolved_key opts w = key (this w) → publicDrive (this w1) = Some d).
Proof.
  intros Hw. destruct (exec_drive_keeps opts w Hw) as (w1 & d & Hd & Hk & Hc & Hr1).
  exists w1, d. split; [done|]. split; [done|].
  intros Hown. destruct Hk as ([_ _ _ Hpub] & _ & Hkey & _).
  rewrite <- Hpub by done. by rewrite Hkey, <- Hown.
Qed.

End Invariants.


(** * Sessions, drives and the profile *)

Section Sessions.

Context {hashes : DriveHashes}.

(** X11: [close()] does not keep a later call from starting the session.
    On an identity closed before [ready()] ever ran, a [ready()] awaited
    afterwards creates the DHT, the swarm and the public drive all the
    same; the identity stays marked closed, so every later [close()]
    returns at once: that swarm is never destroyed and the store never
    closed. *)
Theorem session_started_after_close_is_never_destroyed (w : World) :
  settled_world w → _ready (this w) = false → swarm (this w) = None →
  ∃ w1 w2 s,
    exec close w = (w1, Ok tt) ∧ exec ready w1 = (w2, Ok None) ∧
    closed (this w2) = true ∧ swarm (this w2) = Some s ∧
    count_events is_DhtCreate (trace w2) = S (count_events is_DhtCreate (trace w)) ∧
    exec close w2 = (w2, Ok tt) ∧
    count_events is_SwarmDestroy (trace w2) = count_events is_SwarmDestroy (trace w) ∧
    count_events is_StoreClose (trace w2) = count_events is_StoreClose (trace w).
Proof.
  intros Hw Hr Hsw. pose proof Hw as [Hj Hid Hf Hs].
  assert (Hclose : ∃ w1, exec close w = (w1, Ok tt) ∧ jobs w1 = [] ∧
            _ready (this w1) = false ∧ _drives (this w1) = ∅ ∧ closed (this w1) = true ∧
            count_events is_DhtCreate (trace w1) = count_events is_DhtCreate (trace w) ∧
            count_events is_SwarmDestroy (trace w1) = count_events is_SwarmDestroy (trace w) ∧
            count_events is_StoreClose (trace w1) = count_events is_StoreClose (trace w)).
  { destruct (closed (this w)) eqn:Hc.
    - exists w. rewrite exec_close_closed by done. split_and!; auto.
    - eexists. rewrite exec_close_no_session by done. split; [done|]. simpl.
      split_and!; auto; count_trace; lia. }
  destruct Hclose as (w1 & Hc1 & Hj1 & Hr1 & Hd1 & Hcl1 & Hn1 & Hn2 & Hn3).
  exists w1, (ready_init w1), (S (next_id w1)). split; [done|].
  rewrite exec_ready_init by (rewrite ?Hd1; done).
  split; [done|]. split; [done|]. split; [done|].
  split; [simpl; count_trace; lia|].
  split; [by apply exec_close_closed|].
  simpl. count_trace. lia.
Qed.


(** X12: drives on different keys are different handles, and the second
    does not push the first out of the cache: after both calls each key
    maps to its own handle. *)
Theorem drives_on_distinct_keys_are_distinct (w : World) (o1 o2 : DriveOpts) :
  steady w → resolved_key o1 w ≠ resolved_key o2 w →
  ∃ w1 w2 d1 d2,
    exec (drive o1) w = (w1, Ok d1) ∧ exec (drive o2) w1 = (w2, Ok d2) ∧ d1 ≠ d2 ∧
    _drives (this w2) !! resolved_key o1 w = Some d1 ∧
    _drives (this w2) !! resolved_key o2 w = Some d2.
Proof.
  intros Hw Hne.
  destruct (exec_drive_keeps o1 w Hw) as (w1 & d1 & H1 & Hk1 & Hc1 & _).
  pose proof Hk1 as (Hw1 & _ & _ & _ & _ & Hst & _).
  destruct (exec_drive_keeps o2 w1 Hw1) as (w2 & d2 & H2 & Hk2 & Hc2 & _).
  assert (Hres : resolved_key o2 w1 = resolved_key o2 w)
    by (unfold resolved_key; by rewrite Hst).
  rewrite Hres in Hc2.
  destruct Hk2 as (Hw2 & Hsub & _).
  assert (Hc1' : _drives (this w2) !! resolved_key o1 w = Some d1)
    by (by apply (lookup_weaken _ _ _ _ Hc1)).
  exists w1, w2, d1, d2. split_and!; try done.
  intros ->. destruct Hw2 as [_ _ Hcache _].
  destruct (Hcache _ _ Hc1') as [_ HK1]. destruct (Hcache _ _ Hc2) as [_ HK2].
  congruence.
Qed.

(** ** The profile *)

(** X13: on a local identity [setProfile(p)] resolves and replaces whatever
    was stored under [profile.json] in the identity's own drive by the text
    of [p], with one [put] on the public drive after [ready()]; every other
    file, in that drive and in any other, is left as it was. *)
Theorem setProfile_replaces_the_profile_only (w : World) (p : JSON) :
  settled_world w → remote (this w) = false →
  ∃ w1, exec (setProfile p) w = (w1, Ok tt) ∧
        stored_profile w1 = Some (b4a_from (JSON_stringify p)) ∧
        (∀ K path, (K, path) ≠ (key (this w), DRIVE_KEYS_profile) →
           files w1 !! K ≫= (fun fs => fs !! path) = files w !! K ≫= (fun fs => fs !! path)) ∧
        ∃ d, publicDrive (this w1) = Some d ∧
             trace w1 = trace (exec ready w).1 ++ [EvDrivePut d DRIVE_KEYS_profile].
Proof.
  intros Hw Hlocal.
  destruct (exec_ready_settled w Hw)
    as (w1 & r & Hready & Hw1 & Hr1 & Hfiles & Hkey & Hkp & Hrem & Hnet).
  destruct Hw1 as [Hj1 Hid1 Hf1 Hs1].
  destruct (Hs1 Hr1) as (s & d & D & Hsw & Hpd & Hd & Hdk & Hwr & Hlt).
  assert (HwrT : writable D = true).
  { rewrite Hwr. rewrite <- Hrem, Hid1 in Hlocal. by apply negb_false_iff in Hlocal. }
  unfold setProfile. rewrite exec_await, Hready, bind_result_ok.
  rewrite (exec_setProfile_rest w1 d D p Hj1 Hpd Hd HwrT). eexists. split; [done|].
  split; [|split].
  - unfold stored_profile. simpl. rewrite Hdk, lookup_insert_eq. simpl.
    by rewrite lookup_insert_eq.
  - intros K path Hne. simpl. rewrite Hdk, Hkey, Hfiles.
    destruct (decide (K = key (this w))) as [->|HK].
    + rewrite lookup_insert_eq. simpl. rewrite lookup_insert_ne by congruence.
      by destruct (files w !! key (this w)).
    + by rewrite lookup_insert_ne.
  - by exists d.
Qed.

(** X14: [getProfile()] reads and never writes.  With nothing stored under
    [profile.json] it resolves to [null]; whatever is stored is handed to
    [JSON.parse]: its error is the rejection of the call (a file that is
    there but empty makes it throw a [SyntaxError], not return [null]), and
    its value is the result, so that the caller holds [null] exactly when
    nothing is stored or the stored text is [null].  No guard keeps a remote
    identity from the call. *)
Theorem getProfile_parses_what_is_stored (w : World) :
  settled_world w →
  (exec getProfile w).2 =
    match stored_profile w with
    | None => Ok None
    | Some bytes =>
        match JSON_parse (b4a_toString bytes) with
        | Ok v => Ok (Some v)
        | Err e => Err e
        end
    end ∧
  (stored_profile w = Some [] → (exec getProfile w).2 = Err SyntaxError) ∧
  (∀ r, (exec getProfile w).2 = Ok r →
        profile_value r = JNull ↔
        stored_profile w = None ∨
        ∃ bytes, stored_profile w = Some bytes ∧
                 JSON_parse (b4a_toString bytes) = Ok JNull) ∧
  files (exec getProfile w).1 = files w.
Proof.
  intros Hw.
  destruct (exec_ready_settled w Hw)
    as (w1 & r & Hready & Hw1 & Hr1 & Hfiles & Hkey & Hkp & Hrem & Hnet).
  destruct Hw1 as [Hj1 Hid1 Hf1 Hs1].
  destruct (Hs1 Hr1) as (s & d & D & Hsw & Hpd & Hd & Hdk & Hwr & Hlt).
  assert (Hst : stored_profile w1 = stored_profile w)
    by (unfold stored_profile; by rewrite Hfiles, Hkey).
  assert (Hget : exec getProfile w = bind_result (w1, Ok r) (fun _ => exec getProfile_rest))
    by (unfold getProfile; by rewrite exec_await, Hready).
  rewrite Hget, bind_result_ok, (exec_getProfile_rest w1 d D), Hst by done.
  split; [done|]. split; [by intros ->|]. split; [|done].
  intros v. simpl. destruct (stored_profile w) as [bytes|]; simpl.
  - destruct (JSON_parse (b4a_toString bytes)) as [v'|e] eqn:Hp; [|discriminate].
    intros [= <-]. simpl. split.
    + intros ->. right. by exists bytes.
    + intros [?|(b' & [= <-] & Hp')]; [done|congruence].
  - intros [= <-]. split; [by left|done].
Qed.

(** X15: the calls [drive(opts)] makes, once [ready()] has run.  On a key
    that is not cached: the handle is built and readied, the swarm joins
    the discovery key of the drive, the drive is asked for its
    finding-peers acknowledgement, [update] is called, and then the swarm
    is flushed and the acknowledgement released, each once and in this
    order; nothing is left queued when the call resolves.  On a cached key
    the handle is built and readied, and that is all. *)
Theorem drive_calls_in_order (w : World) (opts : DriveOpts) :
  settled_world w → _ready (this w) = true →
  ∃ w1 d, exec (drive opts) w = (w1, Ok d) ∧ jobs w1 = [] ∧
          match _drives (this w) !! resolved_key opts w with
          | None =>
              ∃ s, swarm (this w) = Some s ∧ d = next_id w ∧
                   trace w1 = trace w ++
                     [EvDriveNew d (resolved_key opts w); EvDriveReady d;
                      EvJoin s (discovery_key (resolved_key opts w));
                      EvFindingPeers d (resolved_key opts w);
                      EvDriveUpdate d; EvFlush s; EvPeersDone d]
          | Some e =>
              d = e ∧
              trace w1 = trace w ++
                [EvDriveNew (next_id w) (resolved_key opts w); EvDriveReady (next_id w)]
          end.
Proof.
  intros Hw Hr. pose proof Hw as [Hj _ _ Hs].
  destruct (Hs Hr) as (s & d0 & D0 & Hsw & _).
  unfold drive, drive_body. rewrite exec_await, exec_ready_memo, bind_result_ok by done.
  destruct (_drives (this w) !! resolved_key opts w) as [e|] eqn:Hc.
  - rewrite (exec_drive_rest_hit opts w e Hj Hc). by eexists _, _.
  - rewrite (exec_drive_rest_miss opts w s Hj Hc Hsw). eexists _, _.
    split; [done|]. split; [done|]. by exists s.
Qed.

End Sessions.

(** * Calls in flight together *)

Section Concurrent.

Context {hashes : DriveHashes}.

(** The queued continuations of [_setupDiscovery] join no topic. *)
Lemma foldl_run_job_count (f : Event → bool) (js : list Job) (w : World) :
  (∀ s, f (EvFlush s) = false) → (∀ d, f (EvPeersDone d) = false) →
  count_events f (trace (foldl run_job w js)) = count_events f (trace w).
Proof.
  intros Hf Hd. revert w. induction js as [|j js IH]; intros w; simpl; [done|].
  rewrite IH. destruct j as [d]. simpl. destruct (swarm (this w)); [|done].
  simpl. count_trace. rewrite Hf, Hd. lia.
Qed.

Lemma drain_announcements (K : Key) (w : World) :
  announcements K (trace (drain w)) = announcements K (trace w).
Proof. unfold drain. simpl. by apply foldl_run_job_count. Qed.

Lemma drive_run_drain (opts : DriveOpts) (K : Key) (a0 : nat) (w : World) :
  drive_run opts K a0 w → drive_run opts K a0 (drain w).
Proof.
  intros [H1 H2 H3]. split.
  - unfold resolved_key in *. by rewrite drain_this.
  - by rewrite drain_this.
  - by rewrite drain_announcements, drain_this.
Qed.

Lemma drive_grows_refl (K : Key) (w : World) : drive_grows K w w.
Proof. by split. Qed.

Lemma drive_grows_trans (K : Key) (w1 w2 w3 : World) :
  drive_grows K w1 w2 → drive_grows K w2 w3 → drive_grows K w1 w3.
Proof.
  intros [H1 H2 H3] [G1 G2 G3]. split; [lia| |auto].
  intros d Hd. rewrite G2 by lia. by apply H2.
Qed.

Lemma drive_grows_drain (K : Key) (w : World) : drive_grows K w (drain w).
Proof. split; by rewrite ?drain_next_id, ?drain_drives, ?drain_this. Qed.

Lemma drive_stage_mono (opts : DriveOpts) (K : Key) (w w' : World) (r : nat) (t : Task nat) :
  drive_grows K w w' → drive_stage opts K w r t → drive_stage opts K w' r t.
Proof.
  intros [H1 H2 H3] Hs. destruct Hs as [|d wr Hd Hlt|d wr Hd Hlt|d Hc|d Hc|d Hc].
  - constructor.
  - apply (stage_building _ _ _ d wr); [by rewrite H2|lia].
  - apply (stage_built _ _ _ d wr); [by rewrite H2|lia].
  - constructor. auto.
  - constructor. auto.
  - constructor. auto.
Qed.

(** A call issued when [ready()] has run is suspended at once, before it
    touches anything. *)
Lemma drive_issued (opts : DriveOpts) (w : World) :
  _ready (this w) = true → drive opts w = (w, Await (drive_rest opts)).
Proof.
  intros Hr. unfold drive, drive_body, await, ready. by rewrite (ready_at_memo 1 w Hr).
Qed.

Lemma start_all_drives (opts : DriveOpts) (n : nat) (w : World) :
  _ready (this w) = true →
  start_all (replicate n (drive opts)) w = (w, replicate n (Await (drive_rest opts))).
Proof.
  intros Hr. induction n as [|n IH]; simpl; [done|].
  by rewrite (drive_issued opts w Hr), IH.
Qed.

(** The stages, resumed. *)
Lemma drive_rest_run (opts : DriveOpts) (v : World) :
  drive_rest opts v =
    (log [EvDriveReady (next_id v)]
       (log [EvDriveNew (next_id v) (resolved_key opts v)]
          (set_drive_heap (<[next_id v := new_handle opts v]> (drives v))
             (set_next_id (S (next_id v)) v))),
     then_ (later (Ok tt)) (drive_checked (next_id v))).
Proof. reflexivity. Qed.

Lemma drive_checked_hit (d e : nat) (D : Drive) (v : World) :
  drives v !! d = Some D → _drives (this v) !! drive_key D = Some e →
  drive_checked d tt v = (v, Ret e).
Proof.
  intros Hd Hc. unfold drive_checked, call, drive_lookup, gets. rewrite Hd. simpl.
  by rewrite Hc.
Qed.

Lemma drive_checked_miss (d s : nat) (D : Drive) (v : World) :
  drives v !! d = Some D → _drives (this v) !! drive_key D = None →
  swarm (this v) = Some s →
  drive_checked d tt v =
    (log [EvDriveUpdate d]
       (enqueue (JobDiscovery d)
          (log [EvFindingPeers d (drive_key D)]
             (log [EvJoin s (discoveryKey D)]
                (upd_this (fun s0 => set_drives (<[drive_key D := d]> (_drives s0)) s0) v)))),
     then_ (later (Ok tt)) (fun _ => ret d)).
Proof.
  intros Hd Hc Hs. unfold drive_checked, call, drive_lookup, gets. rewrite Hd. simpl.
  rewrite Hc. unfold modify, _setupDiscovery, sbind, gets, await, SlashDrive_update. simpl.
  by rewrite Hs.
Qed.

(** Resuming a call moves it to a later stage; the run keeps its
    invariant. *)
Lemma drive_stage_resume (opts : DriveOpts) (K : Key) (a0 : nat) (w : World)
    (r : nat) (t : Task nat) :
  drive_run opts K a0 w → drive_stage opts K w r t →
  (r = 0 ∧ ∃ d, t = Ret d) ∨
  ∃ k w1 t1 r1, t = Await k ∧ k (drain w) = (w1, t1) ∧
                drive_run opts K a0 w1 ∧ drive_grows K w w1 ∧
                drive_stage opts K w1 r1 t1 ∧ r1 < r.
Proof.
  intros Hrun Hs.
  pose proof (drive_run_drain opts K a0 w Hrun) as [Hkey Hsw Hann].
  pose proof (drive_grows_drain K w) as Hgrow.
  pose proof (drain_drives w) as Hvd.
  remember (drain w) as v eqn:Hv. clear Hv.
  destruct Hs as [|d wr Hd Hlt|d wr Hd Hlt|d Hc|d Hc|d Hc].
  - right. eexists _, _, _, 4. split; [done|]. split; [apply drive_rest_run|].
    assert (Hnew : new_handle opts v
                   = mkDrive K (discovery_key K)
                       (is_some (do_keyPair opts) || negb (is_some (do_key opts))))
      by (unfold new_handle; by rewrite Hkey).
    split; [|split; [|split; [|lia]]].
    + split; simpl; [done|done|]. rewrite <- Hann. unfold announcements.
      count_trace. lia.
    + apply (drive_grows_trans K w v); [done|]. split; simpl; [lia| |done].
      intros d Hd. rewrite lookup_insert_ne; [done|lia].
    + eapply (stage_building _ _ _ (next_id v)); simpl; [|lia].
      rewrite lookup_insert_eq. f_equal. exact Hnew.
  - right. eexists _, v, _, 3. split; [reflexivity|]. split; [reflexivity|].
    split; [done|]. split; [done|]. split; [|lia].
    apply (drive_stage_mono opts K w v); [done|]. by apply (stage_built _ _ _ d wr).
  - right.
    assert (Hdv : drives v !! d = Some (mkDrive K (discovery_key K) wr))
      by (by rewrite Hvd).
    destruct (_drives (this v) !! K) as [e|] eqn:Hc.
    + exists (drive_checked d tt), v, (Ret e), 0. split; [reflexivity|].
      split; [by apply (drive_checked_hit d e _ v Hdv)|].
      split; [by split; rewrite ?Hc|]. split; [done|]. split; [by constructor|lia].
    + destruct (swarm (this v)) as [s|] eqn:Hs; [|done].
      eexists (drive_checked d tt), _, _, 2. split; [reflexivity|].
      split; [by apply (drive_checked_miss d s _ v Hdv)|].
      split; [|split; [|split; [|lia]]].
      * split; simpl; [done|by rewrite Hs|]. rewrite lookup_insert_eq.
        unfold announcements in *. count_trace.
        rewrite bool_decide_eq_true_2 by done. simpl. lia.
      * apply (drive_grows_trans K w v); [done|]. split; simpl; [lia|done|].
        intros d0 Hd0. congruence.
      * constructor. simpl. apply lookup_insert_eq.
  - right. eexists _, v, _, 1. split; [reflexivity|]. split; [reflexivity|].
    split; [done|]. split; [done|]. split; [|lia].
    apply (drive_stage_mono opts K w v); [done|]. by constructor.
  - right. eexists _, v, _, 0. split; [reflexivity|]. split; [reflexivity|].
    split; [done|]. split; [done|]. split; [|lia].
    apply (drive_stage_mono opts K w v); [done|]. by constructor.
  - left. split; [done|]. by exists d.
Qed.

(** A call is suspended, or it has resolved to the cached handle. *)
Lemma drive_stage_shape (opts : DriveOpts) (K : Key) (w : World) (r : nat) (t : Task nat) :
  drive_stage opts K w r t →
  (0 < r ∧ ∃ k, t = Await k) ∨
  (r = 0 ∧ ∃ d, t = Ret d ∧ _drives (this w) !! K = Some d).
Proof.
  intros Hs. destruct Hs; [left; split; [lia|]; by eexists..|].
  right. split; [done|]. by eexists.
Qed.

(** Any schedule keeps the run within its stages. *)
Lemma interleave_drives (opts : DriveOpts) (K : Key) (a0 : nat) (schedule : list nat) :
  ∀ (ts : list (Task nat)) (w : World) (b : nat → nat),
    drive_run opts K a0 w →
    (∀ i t, ts !! i = Some t → ∃ r, drive_stage opts K w r t ∧ r ≤ b i) →
    ∃ w' ts',
      interleave schedule ts w = (w', ts') ∧ length ts' = length ts ∧
      drive_run opts K a0 w' ∧
      ∀ i t, ts' !! i = Some t →
             ∃ r, drive_stage opts K w' r t ∧ r ≤ b i - count_occ Nat.eq_dec schedule i.
Proof.
  induction schedule as [|j rest IH]; intros ts w b Hrun Hts.
  - exists w, ts. simpl. split_and!; try done.
    intros i t Hi. destruct (Hts i t Hi) as (r & ? & ?). exists r. split; [done|lia].
  - simpl. destruct (ts !! j) as [t|] eqn:Hj.
    + destruct (Hts j t Hj) as (r & Hs & Hr).
      destruct (drive_stage_resume opts K a0 w r t Hrun Hs)
        as [[-> [d ->]]|(k & w1 & t1 & r1 & -> & Hk & Hrun1 & Hgrow & Hs1 & Hlt)].
      * destruct (IH ts w (fun i => if decide (i = j) then 0 else b i) Hrun)
          as (w' & ts' & H1 & H2 & H3 & H4).
        { intros i t Hi. destruct (decide (i = j)) as [->|Hne].
          - rewrite Hj in Hi. injection Hi as <-. by exists 0.
          - by apply Hts. }
        exists w', ts'. split_and!; try done.
        intros i t Hi. destruct (H4 i t Hi) as (r & Hsr & Hle). exists r. split; [done|].
        destruct (Nat.eq_dec j i) as [->|Hne].
        -- rewrite decide_True in Hle by done. lia.
        -- rewrite decide_False in Hle by done. lia.
      * rewrite Hk.
        destruct (IH (<[j := t1]> ts) w1 (fun i => if decide (i = j) then r1 else b i) Hrun1)
          as (w' & ts' & H1 & H2 & H3 & H4).
        { intros i t Hi. destruct (decide (i = j)) as [->|Hne].
          - rewrite list_lookup_insert_eq in Hi by (by eapply lookup_lt_Some).
            injection Hi as <-. by exists r1.
          - rewrite list_lookup_insert_ne in Hi by done.
            destruct (Hts i t Hi) as (r0 & Hs0 & Hr0). exists r0. split; [|done].
            by apply (drive_stage_mono opts K w w1). }
        exists w', ts'. rewrite length_insert in H2. split_and!; try done.
        intros i t Hi. destruct (H4 i t Hi) as (r0 & Hsr & Hle). exists r0. split; [done|].
        destruct (Nat.eq_dec j i) as [->|Hne].
        -- rewrite decide_True in Hle by done. lia.
        -- rewrite decide_False in Hle by done. lia.
    + destruct (IH ts w b Hrun Hts) as (w' & ts' & H1 & H2 & H3 & H4).
      exists w', ts'. split_and!; try done.
      intros i t Hi. destruct (H4 i t Hi) as (r & Hsr & Hle). exists r. split; [done|].
      destruct (Nat.eq_dec j i) as [->|Hne]; [|done].
      apply lookup_lt_Some in Hi. apply lookup_ge_None in Hj. lia.
Qed.

(** X16: [drive(opts)] issued [n] times on an identity on which [ready()]
    has run, on a key [K] that is not cached, none of the calls awaited
    before the next is issued: however the event loop resumes the calls,
    none throws, every call that has resolved has resolved to the one handle
    cached under [K], and the topic of [K] has been joined once if a handle
    is cached and not at all otherwise, never twice: the check of the cache
    and its update run in one piece.  Once every call has been resumed five
    times, all of them have resolved. *)
Theorem concurrent_drives_share_one_handle
    (w : World) (opts : DriveOpts) (n : nat) (schedule : list nat) :
  settled_world w → _ready (this w) = true →
  _drives (this w) !! resolved_key opts w = None →
  ∃ w' ts,
    interleave schedule (start_all (replicate n (drive opts)) w).2
      (start_all (replicate n (drive opts)) w).1 = (w', ts) ∧
    length ts = n ∧
    announcements (resolved_key opts w) (trace w')
      = announcements (resolved_key opts w) (trace w)
        + match _drives (this w') !! resolved_key opts w with Some _ => 1 | None => 0 end ∧
    (∀ i e, ts !! i ≠ Some (Throw e)) ∧
    (∀ i d, ts !! i = Some (Ret d) →
            _drives (this w') !! resolved_key opts w = Some d) ∧
    ((∀ i, i < n → 5 ≤ count_occ Nat.eq_dec schedule i) →
     ∀ i, i < n → ∃ d, ts !! i = Some (Ret d)).
Proof.
  intros Hw Hr Hc. pose proof Hw as [_ _ _ Hs].
  destruct (Hs Hr) as (s & d0 & D0 & Hsw & _).
  rewrite (start_all_drives opts n w Hr). cbn [fst snd].
  set (K := resolved_key opts w) in *.
  assert (Hrun : drive_run opts K (announcements K (trace w)) w).
  { split; [done|by rewrite Hsw|]. rewrite Hc. lia. }
  destruct (interleave_drives opts K (announcements K (trace w)) schedule
              (replicate n (Await (drive_rest opts))) w (fun _ => 5) Hrun)
    as (w' & ts & H1 & H2 & [_ _ H3] & H4).
  { intros i t Hi. apply lookup_replicate in Hi as [-> _]. exists 5. split; [constructor|done]. }
  rewrite length_replicate in H2.
  exists w', ts. split_and!; try done.
  - intros i e Hi. destruct (H4 i _ Hi) as (r & Hsr & _).
    destruct (drive_stage_shape opts K w' r _ Hsr) as [[_ [k Hk]]|[_ (d & Hd & _)]];
      discriminate.
  - intros i d Hi. destruct (H4 i _ Hi) as (r & Hsr & _).
    destruct (drive_stage_shape opts K w' r _ Hsr) as [[_ [k Hk]]|[_ (d' & Hd & Hc')]];
      [discriminate|]. by injection Hd as ->.
  - intros Hfair i Hi. destruct (lookup_lt_is_Some_2 ts i) as [t Ht]; [lia|].
    destruct (H4 i t Ht) as (r & Hsr & Hle). specialize (Hfair i Hi).
    destruct (drive_stage_shape opts K w' r t Hsr) as [[Hpos _]|[_ (d & -> & _)]]; [lia|].
    by exists d.
Qed.

(** ** Calls of [connect] in flight together *)

Lemma interleave_resume {A} (i : nat) (rest : list nat) (ts : list (Task A)) (w : World)
    (k : World → World * Task A) :
  ts !! i = Some (Await k) →
  interleave (i :: rest) ts w
    = match k (drain w) with (w', t') => interleave rest (<[i := t']> ts) w' end.
Proof. intros H. cbn [interleave]. by rewrite H. Qed.

(** A [connect] issued when [ready()] has run is suspended before it looks
    at the registry of connections. *)
Lemma connect_issued (k : Key) (w : World) :
  _ready (this w) = true → remote (this w) = false → k ≠ key (this w) →
  connect (TKey k) w = (w, Await (connect_rest k)).
Proof.
  intros Hr Hrem Hne. unfold connect, call, gets, lift. simpl. rewrite Hrem. simpl.
  unfold b4a_equals. rewrite bool_decide_eq_false_2 by done.
  unfold await, ready. by rewrite (ready_at_memo 1 w Hr).
Qed.

Lemma connect_rest_miss (k : Key) (s : nat) (w : World) :
  swarm (this w) = Some s →
  swarms w !! s ≫= (fun S0 => _allConnections S0 !! k) = None →
  connect_rest k w = (log [EvJoinPeer s k] w, Await (deliver s k)).
Proof.
  intros Hs Hc. unfold connect_rest, call, gets. simpl. rewrite Hs. simpl.
  by rewrite Hc.
Qed.

(** X17: [connect(k)] issued twice before either call is resumed, on an
    identity on which [ready()] has run and that has no connection to [k]:
    resumed in the order they were issued, both calls find the registry
    without a connection to [k] and both ask the swarm to join the peer;
    nothing merges the two requests.  Both calls are then waiting for a
    connection. *)
Theorem concurrent_connects_both_request_the_peer (w : World) (k : Key) (s : nat) :
  settled_world w → _ready (this w) = true → remote (this w) = false →
  k ≠ key (this w) → swarm (this w) = Some s →
  swarms w !! s ≫= (fun S0 => _allConnections S0 !! k) = None →
  ∃ w' t0 t1,
    interleave [0; 1] (start_all [connect (TKey k); connect (TKey k)] w).2
      (start_all [connect (TKey k); connect (TKey k)] w).1 = (w', [t0; t1]) ∧
    settled t0 = false ∧ settled t1 = false ∧
    trace w' = trace w ++ [EvJoinPeer s k; EvJoinPeer s k].
Proof.
  intros [Hj _ _ _] Hr Hrem Hne Hs Hc.
  assert (Hstart : start_all [connect (TKey k); connect (TKey k)] w
                   = (w, [Await (connect_rest k); Await (connect_rest k)])).
  { cbn [start_all]. rewrite (connect_issued k w Hr Hrem Hne). lazy beta iota.
    by rewrite (connect_issued k w Hr Hrem Hne). }
  rewrite Hstart. cbn [fst snd].
  rewrite (interleave_resume 0 [1] _ w (connect_rest k)) by done.
  rewrite (drain_quiet w Hj), (connect_rest_miss k s w Hs Hc).
  rewrite (interleave_resume 1 [] _ _ (connect_rest k)) by done.
  rewrite (drain_quiet (log [EvJoinPeer s k] w)) by done.
  rewrite (connect_rest_miss k s (log [EvJoinPeer s k] w)) by done.
  eexists _, _, _. split; [done|]. split; [done|]. split; [done|].
  simpl. by rewrite <- app_assoc.
Qed.

(** ** Calls of [close] in flight together *)

Lemma resume_settled {A} (m : nat) (t : Task A) (w : World) :
  settled t = true → resume m t w = (w, t).
Proof. intros Ht. destruct m, t; done. Qed.

(** When every call but the first has settled, a schedule resumes the
    first as often as it names it. *)
Lemma interleave_first {A} (schedule : list nat) (t : Task A) (rest : list (Task A))
    (w : World) :
  Forall (fun t => settled t = true) rest →
  interleave schedule (t :: rest) w
    = ((resume (count_occ Nat.eq_dec schedule 0) t w).1,
       (resume (count_occ Nat.eq_dec schedule 0) t w).2 :: rest).
Proof.
  intros Hrest. revert t w. induction schedule as [|i sch IH]; intros t w; [done|].
  destruct i as [|j].
  - cbn [count_occ]. destruct (Nat.eq_dec 0 0) as [_|Hne]; [|done].
    destruct t as [a|e|k].
    + cbn [interleave lookup list_lookup]. rewrite IH.
      by rewrite !resume_settled.
    + cbn [interleave lookup list_lookup]. rewrite IH.
      by rewrite !resume_settled.
    + rewrite (interleave_resume 0 sch _ w k) by done. cbn [resume].
      destruct (k (drain w)) as [w' t']. apply IH.
  - cbn [count_occ]. destruct (Nat.eq_dec (S j) 0) as [Heq|_]; [done|].
    cbn [interleave]. change ((t :: rest) !! S j) with (rest !! j).
    destruct (rest !! j) as [tj|] eqn:Hj; [|apply IH].
    apply (Forall_lookup_1 _ _ _ _ Hrest) in Hj. destruct tj; [apply IH..|done].
Qed.

(** [close()] on an identity with a session, up to its first [await]. *)
Lemma close_suspends (w : World) (s : nat) :
  closed (this w) = false → swarm (this w) = Some s →
  close w =
    (log [EvSwarmDestroy s]
       (set_swarms (alter destroy_swarm s (swarms w))
          (log [EvEmitClose true] (upd_this (set_closed true) w))),
     then_ (later (Ok tt)) (fun _ => await! _ := store_close in ret tt)).
Proof. intros Hc Hs. unfold close, call, gets, modify, emit. simpl. by rewrite Hc, Hs. Qed.

Lemma start_all_closed (n : nat) (w : World) :
  closed (this w) = true →
  start_all (replicate n close) w = (w, replicate n (Ret tt)).
Proof.
  intros Hc. induction n as [|n IH]; [done|].
  cbn [replicate start_all]. by rewrite (close_when_closed w Hc), IH.
Qed.

(** X18: [close()] issued several times before any call is resumed, on an
    identity with a session: the first call marks the identity closed,
    notifies and asks the swarm to be destroyed before it is suspended; every
    other call finds the flag set and has resolved when it returns, before
    the store is closed.  However the event loop goes on, the swarm is
    destroyed once, the store is closed once, when the first call has been
    resumed twice, and the first call resolves at its fourth resumption. *)
Theorem concurrent_close_tears_down_once
    (w : World) (s n : nat) (schedule : list nat) :
  settled_world w → closed (this w) = false → swarm (this w) = Some s →
  ∃ w' t,
    interleave schedule (start_all (replicate (S n) close) w).2
      (start_all (replicate (S n) close) w).1 = (w', t :: replicate n (Ret tt)) ∧
    trace w' = trace w ++ [EvEmitClose true; EvSwarmDestroy s]
               ++ (if decide (2 ≤ count_occ Nat.eq_dec schedule 0) then [EvStoreClose]
                   else []) ∧
    settled t = bool_decide (4 ≤ count_occ Nat.eq_dec schedule 0).
Proof.
  intros [Hj _ _ _] Hc Hs.
  cbn [replicate start_all]. rewrite (close_suspends w s Hc Hs).
  rewrite start_all_closed by done. cbn [fst snd].
  rewrite interleave_first by (apply Forall_replicate; done).
  set (w1 := log [EvSwarmDestroy s] _).
  assert (Hj1 : jobs w1 = []) by done.
  assert (Hj2 : jobs (log [EvStoreClose] w1) = []) by done.
  destruct (count_occ Nat.eq_dec schedule 0) as [|[|[|[|m]]]] eqn:Hm.
  - eexists _, _. split; [done|]. split; [|done]. simpl. by rewrite <- !app_assoc.
  - eexists _, _. split; [done|]. split; [|done]. cbn [resume then_ later fst].
    rewrite (drain_quiet w1 Hj1). simpl. by rewrite <- !app_assoc.
  - eexists _, _. split; [done|]. cbn [resume then_ later].
    rewrite (drain_quiet w1 Hj1). cbn [resume then_ later].
    rewrite (drain_quiet w1 Hj1). unfold await, store_close. cbn [fst snd then_ later].
    split; [|done]. simpl. by rewrite <- !app_assoc.
  - eexists _, _. split; [done|]. cbn [resume then_ later].
    rewrite (drain_quiet w1 Hj1). cbn [resume then_ later].
    rewrite (drain_quiet w1 Hj1). unfold await, store_close. cbn [fst snd then_ later resume].
    rewrite (drain_quiet _ Hj2). cbn [fst snd].
    split; [|done]. simpl. by rewrite <- !app_assoc.
  - eexists _, _. split; [done|]. cbn [resume then_ later].
    rewrite (drain_quiet w1 Hj1). cbn [resume then_ later].
    rewrite (drain_quiet w1 Hj1). unfold await, store_close. cbn [fst snd then_ later resume].
    rewrite (drain_quiet _ Hj2). cbn [resume]. rewrite (drain_quiet _ Hj2).
    unfold ret. rewrite resume_settled by done. cbn [fst snd].
    split; [|done]. simpl. by rewrite <- !app_assoc.
Qed.

End Concurrent.

(** * Further properties of the older class *)

Lemma legacy_occurrences_app (e : Legacy.Event) (a b : list Legacy.Event) :
  Legacy.occurrences e (a ++ b) = Legacy.occurrences e a + Legacy.occurrences e b.
Proof. unfold Legacy.occurrences. by rewrite List.filter_app, length_app. Qed.

Lemma legacy_occurrences_cons (e x : Legacy.Event) (l : list Legacy.Event) :
  Legacy.occurrences e (x :: l)
    = (if bool_decide (x = e) then 1 else 0) + Legacy.occurrences e l.
Proof. unfold Legacy.occurrences. simpl. by destruct (bool_decide (x = e)). Qed.

Lemma legacy_occurrences_nil (e : Legacy.Event) : Legacy.occurrences e [] = 0.
Proof. reflexivity. Qed.

Ltac legacy_count :=
  rewrite ?legacy_occurrences_app, ?legacy_occurrences_cons, ?legacy_occurrences_nil;
  repeat first [ rewrite bool_decide_eq_true_2 by done
               | rewrite bool_decide_eq_false_2 by discriminate ];
  simpl.

Section LegacyMore.

Context (parse decode : string → Result Key).

Lemma legacy_listen_again (w : Legacy.World) :
  Legacy.listening (Legacy.this w) = true → Legacy.listen w = w.
Proof. intros H. unfold Legacy.listen. by rewrite H. Qed.

Lemma legacy_listen_listening (w : Legacy.World) :
  Legacy.listening (Legacy.this (Legacy.listen w)) = true.
Proof. unfold Legacy.listen. by destruct (Legacy.listening (Legacy.this w)) eqn:H. Qed.

(** X19: [listen()] binds the server once: however often it is called in a
    row, [server.listen] is called once, with the identity's key pair, and
    not at all when the server is listening already.  [unlisten()] closes
    the server whether it listens or not, and after it [listen()] binds
    again. *)
Theorem legacy_listen_binds_once_until_unlisten (w : Legacy.World) (n : nat) :
  Legacy.trace (Nat.iter (S n) Legacy.listen w)
    = Legacy.trace w ++
      (if Legacy.listening (Legacy.this w) then []
       else [Legacy.EvServerListen (publicKey (Legacy.keyPair (Legacy.this w)))]) ∧
  Legacy.listening (Legacy.this (Nat.iter (S n) Legacy.listen w)) = true ∧
  Legacy.trace (Legacy.listen (Legacy.unlisten w))
    = Legacy.trace w ++
      [Legacy.EvServerClose;
       Legacy.EvServerListen (publicKey (Legacy.keyPair (Legacy.this w)))].
Proof.
  assert (Hiter : ∀ m, Nat.iter (S m) Legacy.listen w = Legacy.listen w).
  { induction m as [|m IH]; [done|].
    change (Nat.iter (S (S m)) Legacy.listen w)
      with (Legacy.listen (Nat.iter (S m) Legacy.listen w)).
    rewrite IH. apply legacy_listen_again, legacy_listen_listening. }
  rewrite Hiter. split; [|split; [apply legacy_listen_listening|]].
  - unfold Legacy.listen. destruct (Legacy.listening (Legacy.this w)); simpl; [|done].
    by rewrite app_nil_r.
  - unfold Legacy.listen, Legacy.unlisten. simpl. by rewrite <- app_assoc.
Qed.

(** X20: a socket the server accepted from peer [k] is registered under
    [k], replacing what was registered there, and [connect(k)] returns it,
    by key or by a string that resolves to the key, without asking the DHT
    for a connection: the world is left as it was. *)
Theorem legacy_connect_reuses_incoming_socket (k : Key) (t : Legacy.Target) (w : Legacy.World) :
  Legacy.resolve parse decode t = Ok k →
  remotePublicKey (Legacy.incoming k w).2 = k ∧
  Legacy.sockets (Legacy.this (Legacy.incoming k w).1) !! k = Some (Legacy.incoming k w).2 ∧
  Legacy.connect parse decode t (Legacy.incoming k w).1
    = ((Legacy.incoming k w).1, Ok (Legacy.incoming k w).2).
Proof.
  intros Ht. unfold Legacy.connect, Legacy.incoming, Legacy._handleConnection. rewrite Ht.
  simpl. by rewrite lookup_insert_eq.
Qed.

(** X21: the ['close'] handler of a socket deletes the registry entry of
    the socket's remote key, whichever socket is registered there.  When a
    second socket [c2] of the same peer has replaced [c1] in the registry,
    the close of [c1] unregisters [c2]; the next [connect] to that peer
    finds nothing and opens a third socket. *)
Theorem legacy_socket_close_evicts_by_key (c1 c2 : Conn) (w w2 : Legacy.World) :
  remotePublicKey c1 = remotePublicKey c2 →
  w2 = (Legacy._handleConnection c2 (Legacy._handleConnection c1 w).1).1 →
  Legacy.sockets (Legacy.this w2) !! remotePublicKey c2 = Some c2 ∧
  Legacy.sockets (Legacy.this (Legacy.socket_closed c1 w2)) !! remotePublicKey c2 = None ∧
  (Legacy.connect parse decode (Legacy.TKey (remotePublicKey c2))
     (Legacy.socket_closed c1 w2)).2
    = Ok (mkConn (Legacy.next_id w) (remotePublicKey c2)) ∧
  Legacy.occurrences (Legacy.EvDhtConnect (Legacy.next_id w) (remotePublicKey c2))
    (Legacy.trace (Legacy.connect parse decode (Legacy.TKey (remotePublicKey c2))
                     (Legacy.socket_closed c1 w2)).1)
    = S (Legacy.occurrences (Legacy.EvDhtConnect (Legacy.next_id w) (remotePublicKey c2))
           (Legacy.trace w)).
Proof.
  intros Hk ->.
  unfold Legacy.connect, Legacy.socket_closed, Legacy._handleConnection. simpl.
  rewrite Hk, lookup_insert_eq, lookup_delete_eq. simpl.
  split; [done|]. split; [done|]. split; [done|].
  legacy_count. lia.
Qed.

End LegacyMore.

(** ** The life of an object: calls, sockets and the teardown in any order *)

Section LegacyLife.

Context (parse decode : string → Result Key) (opts : Legacy.Opts) (kp : KeyPair).

Lemma legacy_life_snoc (ts : list Legacy.Turn) (t : Legacy.Turn) :
  Legacy.life parse decode opts kp (ts ++ [t])
    = Legacy.turn parse decode (Legacy.life parse decode opts kp ts) t.
Proof. unfold Legacy.life. by rewrite legacy_run_app. Qed.

Lemma legacy_registered_snoc (ts : list Legacy.Turn) (t : Legacy.Turn) :
  Legacy.registered_after_close (ts ++ [t])
    = if existsb Legacy.is_CallClose ts
      then Legacy.registered_after_close ts + (if Legacy.is_CallOn t then 1 else 0)
      else 0.
Proof.
  induction ts as [|t0 ts IH]; simpl.
  - by destruct (Legacy.is_CallClose t).
  - destruct (Legacy.is_CallClose t0); simpl; [|exact IH].
    rewrite List.filter_app, length_app. simpl. by destruct (Legacy.is_CallOn t).
Qed.

Lemma legacy_new_coherent : Legacy.coherent opts kp (Legacy.new opts kp).
Proof.
  by split.
Qed.

Lemma legacy_turn_coherent (r : Legacy.Running) (t : Legacy.Turn) :
  Legacy.coherent opts kp r → Legacy.coherent opts kp (Legacy.turn parse decode r t).
Proof.
  intros Hco. pose proof Hco as [H1 H2 H3 H4 H5 H6].
  destruct t as [| | |tg| |k|c|next]; simpl.
  - by split.
  - unfold Legacy.listen. destruct (Legacy.listening _); by split.
  - by split.
  - unfold Legacy.connect. destruct (Legacy.resolve parse decode tg) as [k|err]; [|by split].
    destruct (Legacy.sockets _ !! k) eqn:Hs; [by split|]. split; try done.
    intros k' c' H. simpl in H. apply lookup_insert_Some in H as [[<- <-]|[_ H]]; [done|].
    by apply H1.
  - unfold Legacy.close. destruct (Legacy._closing _) eqn:Hc; [exact Hco|].
    unfold Legacy.close_prefix. rewrite Hc. split; try done. simpl.
    symmetry in H5. apply negb_false_iff, bool_decide_eq_true in H5.
    by rewrite H6, H5.
  - split; try done.
    intros k' c' H. simpl in H. apply lookup_insert_Some in H as [[<- <-]|[_ H]]; [done|].
    by apply H1.
  - split; try done.
    intros k' c' H. simpl in H. apply lookup_delete_Some in H as [_ H]. by apply H1.
  - unfold Legacy.resume.
    destruct (Legacy.teardown r) eqn:Ht; [exact Hco| | | | |exact Hco];
      try destruct next as [socket|];
      try (destruct (Legacy._shouldDestroyDHT (Legacy.this (Legacy.world r))) eqn:Hd);
      split; simpl; rewrite ?Hd; try done; congruence.
Qed.

Lemma legacy_life_coherent (ts : list Legacy.Turn) :
  Legacy.coherent opts kp (Legacy.life parse decode opts kp ts).
Proof.
  induction ts as [|t ts IH] using rev_ind; [apply legacy_new_coherent|].
  rewrite legacy_life_snoc. by apply legacy_turn_coherent.
Qed.

Lemma legacy_registered_none (ts : list Legacy.Turn) :
  existsb Legacy.is_CallClose ts = false → Legacy.registered_after_close ts = 0.
Proof.
  induction ts as [|t ts IH]; simpl; [done|].
  destruct (Legacy.is_CallClose t); [done|]. exact IH.
Qed.

Lemma legacy_registered_mono (ts : list Legacy.Turn) (t : Legacy.Turn) :
  Legacy.registered_after_close ts ≤ Legacy.registered_after_close (ts ++ [t]).
Proof.
  rewrite legacy_registered_snoc. destruct (existsb Legacy.is_CallClose ts) eqn:H; [lia|].
  by rewrite legacy_registered_none.
Qed.

Lemma legacy_new_accounted : Legacy.accounted opts [] (Legacy.new opts kp).
Proof.
  split; try done.
  - simpl. destruct (Legacy.o_keyPair opts), (Legacy.o_dht opts); legacy_count; lia.
  - simpl. destruct (Legacy.o_keyPair opts), (Legacy.o_dht opts); legacy_count; lia.
  - simpl. by destruct (Legacy.o_keyPair opts), (Legacy.o_dht opts).
  - simpl. intros n H. exfalso.
    destruct (Legacy.o_keyPair opts), (Legacy.o_dht opts); simpl in H;
      repeat (apply elem_of_cons in H as [H|H]; [discriminate H|]);
      by apply elem_of_nil in H.
Qed.

Lemma legacy_occurrences_absent (e : Legacy.Event) (es : list Legacy.Event) :
  e ∉ es → Legacy.occurrences e es = 0.
Proof.
  induction es as [|x es IH]; [done|]. intros H. rewrite legacy_occurrences_cons.
  rewrite not_elem_of_cons in H. destruct H as [Hne H].
  rewrite bool_decide_eq_false_2 by done. by rewrite IH.
Qed.

Lemma legacy_filter_absent (es : list Legacy.Event) :
  (∀ n, Legacy.EvEmitClose n ∉ es) → List.filter Legacy.is_EmitClose es = [].
Proof.
  induction es as [|x es IH]; [done|]. intros H. simpl.
  destruct x; simpl;
    try (apply IH; intros n Hn; apply (H n); by apply elem_of_cons; right).
  exfalso. apply (H subscribers). apply elem_of_cons. by left.
Qed.

(** A turn that makes none of the calls of the teardown. *)
Lemma legacy_accounted_frame (ts : list Legacy.Turn) (t : Legacy.Turn)
    (r r' : Legacy.Running) (es : list Legacy.Event) :
  Legacy.accounted opts ts r →
  Legacy.trace (Legacy.world r') = Legacy.trace (Legacy.world r) ++ es →
  Legacy.EvCorestoreClose ∉ es → Legacy.EvDhtDestroy ∉ es →
  (∀ n, Legacy.EvEmitClose n ∉ es) →
  Legacy._closing (Legacy.this (Legacy.world r'))
    = Legacy._closing (Legacy.this (Legacy.world r)) →
  Legacy.closed (Legacy.this (Legacy.world r'))
    = Legacy.closed (Legacy.this (Legacy.world r)) →
  Legacy.past_sockets (Legacy.teardown r') = Legacy.past_sockets (Legacy.teardown r) →
  (Legacy.is_CallClose t = true → Legacy._closing (Legacy.this (Legacy.world r)) = true) →
  Legacy.subscribers (Legacy.this (Legacy.world r'))
    ≤ Legacy.subscribers (Legacy.this (Legacy.world r))
      + (if Legacy.is_CallOn t then 1 else 0) →
  Legacy.accounted opts (ts ++ [t]) r'.
Proof.
  intros [A1 A2 A3 A4 A5 A6] Htr H1 H2 H3 Hcl Hcd Hps Hagain Hsub.
  pose proof (legacy_registered_mono ts t) as Hmono.
  pose proof (legacy_registered_snoc ts t) as Hsnoc.
  split.
  - rewrite Hcl, existsb_app. simpl. rewrite orb_false_r, <- A1.
    destruct (Legacy.is_CallClose t); [|by rewrite orb_false_r].
    by rewrite Hagain, orb_true_r.
  - rewrite Htr, Hcl, legacy_occurrences_app, (legacy_occurrences_absent _ es), A2 by done.
    lia.
  - rewrite Htr, Hps, legacy_occurrences_app, (legacy_occurrences_absent _ es), A3 by done.
    lia.
  - rewrite Htr, Hcd, List.filter_app, length_app, (legacy_filter_absent es), A4 by done.
    simpl. lia.
  - rewrite Hcl. intros Hc. specialize (A5 Hc). rewrite Hsnoc, <- A1, Hc. lia.
  - intros n. rewrite Htr, elem_of_app. intros [H|H]; [|by destruct (H3 n)].
    specialize (A6 n H). lia.
Qed.

Ltac legacy_absent :=
  unfold not; intros;
  repeat match goal with
         | H : _ ∈ _ :: _ |- _ => apply elem_of_cons in H as [H|H]; [discriminate H|]
         | H : _ ∈ [] |- _ => by apply elem_of_nil in H
         end.

Ltac legacy_frame es :=
  eapply (legacy_accounted_frame _ _ _ _ es);
    [eassumption|simpl; by rewrite <- ?app_assoc, ?app_nil_r
    |legacy_absent|legacy_absent|legacy_absent|done|done
    |simpl;
     first [done|match goal with H : Legacy.teardown _ = _ |- _ => by rewrite H end]
    |done|simpl; lia].

(** The resumption that leaves the loop over the sockets. *)
Lemma legacy_accounted_past_sockets (ts : list Legacy.Turn) (r : Legacy.Running) :
  Legacy.past_sockets (Legacy.teardown r) = false →
  Legacy._shouldDestroyDHT (Legacy.this (Legacy.world r)) = negb (Legacy.o_dht opts) →
  Legacy.accounted opts ts r →
  Legacy.accounted opts (ts ++ [Legacy.Resume None])
    (Legacy.mkRunning
       (if Legacy._shouldDestroyDHT (Legacy.this (Legacy.world r))
        then Legacy.upd id [Legacy.EvDhtDestroy] (Legacy.world r)
        else Legacy.world r)
       Legacy.AtDhtDestroy).
Proof.
  intros Hps C4 [A1 A2 A3 A4 A5 A6].
  pose proof (legacy_registered_mono ts (Legacy.Resume None)) as Hmono.
  rewrite Hps in A3. simpl in A3.
  destruct (Legacy._shouldDestroyDHT (Legacy.this (Legacy.world r))) eqn:Hd;
    split; simpl; rewrite <- ?C4; simpl;
    rewrite ?existsb_app, ?legacy_occurrences_app, ?List.filter_app, ?length_app; simpl;
    rewrite ?orb_false_r; try done.
  - rewrite A2. legacy_count. lia.
  - rewrite A3. legacy_count. lia.
  - rewrite A4. lia.
  - intros Hc. specialize (A5 Hc). lia.
  - intros n Hn. apply elem_of_app in Hn as [Hn|Hn]; [|legacy_absent].
    specialize (A6 n Hn). lia.
  - intros Hc. specialize (A5 Hc). lia.
  - intros n Hn. specialize (A6 n Hn). lia.
Qed.

Lemma legacy_turn_accounted (ts : list Legacy.Turn) (r : Legacy.Running) (t : Legacy.Turn) :
  Legacy.coherent opts kp r → Legacy.accounted opts ts r →
  Legacy.accounted opts (ts ++ [t]) (Legacy.turn parse decode r t).
Proof.
  intros [_ _ _ C4 C5 C6] Hacc. pose proof Hacc as [A1 A2 A3 A4 A5 A6].
  pose proof (legacy_registered_mono ts t) as Hmono.
  pose proof (legacy_registered_snoc ts t) as Hsnoc.
  destruct t as [| | |tg| |k|c|next]; simpl.
  - legacy_frame (@nil Legacy.Event).
  - unfold Legacy.listen. destruct (Legacy.listening _).
    + legacy_frame (@nil Legacy.Event).
    + legacy_frame [Legacy.EvServerListen
                      (publicKey (Legacy.keyPair (Legacy.this (Legacy.world r))))].
  - legacy_frame [Legacy.EvServerClose].
  - unfold Legacy.connect. destruct (Legacy.resolve parse decode tg) as [k|err].
    + destruct (Legacy.sockets _ !! k).
      * legacy_frame (@nil Legacy.Event).
      * legacy_frame [Legacy.EvDhtConnect (Legacy.next_id (Legacy.world r)) k;
                      Legacy.EvReplicate (Legacy.next_id (Legacy.world r));
                      Legacy.EvEmitConnection (Legacy.next_id (Legacy.world r))].
    + legacy_frame (@nil Legacy.Event).
  - unfold Legacy.close. destruct (Legacy._closing _) eqn:Hc.
    + legacy_frame (@nil Legacy.Event).
    + unfold Legacy.close_prefix. rewrite Hc.
      symmetry in C5. apply negb_false_iff, bool_decide_eq_true in C5.
      rewrite C5 in *. simpl in A3, C6.
      split; simpl.
      * rewrite existsb_app. simpl. by rewrite orb_true_r.
      * legacy_count. rewrite A2. lia.
      * legacy_count. rewrite A3. lia.
      * rewrite !List.filter_app, !length_app, A4, C6. simpl. lia.
      * lia.
      * intros n Hn. apply elem_of_app in Hn as [Hn|Hn]; [|legacy_absent].
        apply elem_of_app in Hn as [Hn|Hn]; [|legacy_absent].
        specialize (A6 n Hn). lia.
  - legacy_frame [Legacy.EvReplicate (Legacy.next_id (Legacy.world r));
                  Legacy.EvEmitConnection (Legacy.next_id (Legacy.world r))].
  - legacy_frame (@nil Legacy.Event).
  - unfold Legacy.resume. destruct (Legacy.teardown r) eqn:Ht.
    + legacy_frame (@nil Legacy.Event).
    + legacy_frame [Legacy.EvServerClose].
    + destruct next as [socket|].
      * legacy_frame [Legacy.EvSocketDestroy (conn_id socket)].
      * apply legacy_accounted_past_sockets; [by rewrite Ht|done|done].
    + destruct next as [socket|].
      * legacy_frame [Legacy.EvSocketDestroy (conn_id socket)].
      * apply legacy_accounted_past_sockets; [by rewrite Ht|done|done].
    + simpl in C5, C6, A3.
      split; simpl.
      * rewrite existsb_app. simpl. by rewrite orb_false_r.
      * rewrite app_nil_r. legacy_count. rewrite A2. lia.
      * rewrite app_nil_r. legacy_count. rewrite A3. lia.
      * rewrite !List.filter_app, !length_app, A4, C6. simpl. lia.
      * intros Hc. specialize (A5 Hc). lia.
      * intros n Hn. rewrite app_nil_r in Hn. apply elem_of_app in Hn as [Hn|Hn].
        -- specialize (A6 n Hn). lia.
        -- apply list_elem_of_singleton in Hn as [= ->]. specialize (A5 C5). lia.
    + legacy_frame (@nil Legacy.Event).
Qed.

Lemma legacy_life_accounted (ts : list Legacy.Turn) :
  Legacy.accounted opts ts (Legacy.life parse decode opts kp ts).
Proof.
  induction ts as [|t ts IH] using rev_ind; [apply legacy_new_accounted|].
  rewrite legacy_life_snoc. apply legacy_turn_accounted; [apply legacy_life_coherent|done].
Qed.


(** X23: whatever is called on an object built by the constructor,
    whatever its server and its sockets do and however far its teardown
    has come, every socket of the registry is registered under its own
    remote public key; the key is the public key of the key pair, the one
    passed in or else the generated one; the object owns its DHT exactly
    when none was passed in; [_closing] is set exactly when [close()] has
    been called; and [closed] is set exactly when the teardown has run to
    its end: after [close()], and not as soon as it has been called. *)
Theorem legacy_reachable_invariants (ts : list Legacy.Turn) :
  Legacy.keyed (Legacy.world (Legacy.life parse decode opts kp ts)) ∧
  Legacy.keyPair (Legacy.this (Legacy.world (Legacy.life parse decode opts kp ts)))
    = default kp (Legacy.o_keyPair opts) ∧
  Legacy.key (Legacy.this (Legacy.world (Legacy.life parse decode opts kp ts)))
    = publicKey (default kp (Legacy.o_keyPair opts)) ∧
  Legacy._shouldDestroyDHT (Legacy.this (Legacy.world (Legacy.life parse decode opts kp ts)))
    = negb (Legacy.o_dht opts) ∧
  Legacy._closing (Legacy.this (Legacy.world (Legacy.life parse decode opts kp ts)))
    = existsb Legacy.is_CallClose ts ∧
  (Legacy._closing (Legacy.this (Legacy.world (Legacy.life parse decode opts kp ts))) = false
   ↔ Legacy.teardown (Legacy.life parse decode opts kp ts) = Legacy.NotStarted) ∧
  (Legacy.closed (Legacy.this (Legacy.world (Legacy.life parse decode opts kp ts))) = true
   ↔ Legacy.teardown (Legacy.life parse decode opts kp ts) = Legacy.Finished) ∧
  (Legacy.closed (Legacy.this (Legacy.world (Legacy.life parse decode opts kp ts))) = true →
   Legacy._closing (Legacy.this (Legacy.world (Legacy.life parse decode opts kp ts))) = true) ∧
  Legacy._closing
    (Legacy.this (Legacy.world (Legacy.life parse decode opts kp (ts ++ [Legacy.CallClose]))))
    = true ∧
  (existsb Legacy.is_CallClose ts = false →
   Legacy.closed
     (Legacy.this (Legacy.world (Legacy.life parse decode opts kp (ts ++ [Legacy.CallClose]))))
     = false).
Proof.
  destruct (legacy_life_coherent ts) as [C1 C2 C3 C4 C5 C6].
  destruct (legacy_life_accounted ts) as [A1 _ _ _ _ _].
  split_and!; try done.
  - by rewrite C3, C2.
  - rewrite C5, negb_false_iff. apply bool_decide_eq_true.
  - rewrite C6. apply bool_decide_eq_true.
  - rewrite C5, C6. intros H. apply bool_decide_eq_true in H. by rewrite H.
  - destruct (legacy_life_accounted (ts ++ [Legacy.CallClose])) as [-> _ _ _ _ _].
    rewrite existsb_app. simpl. by rewrite orb_true_r.
  - intros Hnone. rewrite legacy_life_snoc. simpl. unfold Legacy.close.
    rewrite A1, Hnone. unfold Legacy.close_prefix. rewrite A1, Hnone. simpl.
    rewrite C6. apply bool_decide_eq_false. intros Hf.
    rewrite C5, Hf in A1. simpl in A1. congruence.
Qed.

(** X24: the teardown runs once.  Over the whole life of an object the
    store is closed once if [close()] was ever called and never otherwise;
    the DHT is destroyed once, when the loop over the sockets is left, if
    the object owns it, and a DHT passed in to the constructor is never
    destroyed; ['close'] is emitted once, when the teardown ends, and not
    before.  It is heard by no more listeners than [on] has registered
    since the first [close()], which removed those it found: a listener
    registered before [close()] is never notified, one registered while the
    teardown runs is. *)
Theorem legacy_teardown_runs_once (ts : list Legacy.Turn) :
  Legacy.occurrences Legacy.EvCorestoreClose
    (Legacy.trace (Legacy.world (Legacy.life parse decode opts kp ts)))
    = (if existsb Legacy.is_CallClose ts then 1 else 0) ∧
  Legacy.occurrences Legacy.EvDhtDestroy
    (Legacy.trace (Legacy.world (Legacy.life parse decode opts kp ts)))
    = (if Legacy.past_sockets (Legacy.teardown (Legacy.life parse decode opts kp ts))
          && negb (Legacy.o_dht opts)
       then 1 else 0) ∧
  length (List.filter Legacy.is_EmitClose
            (Legacy.trace (Legacy.world (Legacy.life parse decode opts kp ts))))
    = (if Legacy.closed (Legacy.this (Legacy.world (Legacy.life parse decode opts kp ts)))
       then 1 else 0) ∧
  (∀ n, Legacy.EvEmitClose n
          ∈ Legacy.trace (Legacy.world (Legacy.life parse decode opts kp ts)) →
        n ≤ Legacy.registered_after_close ts) ∧
  Legacy.EvEmitClose 1
    ∈ Legacy.trace
        (Legacy.world
           (Legacy.life parse decode opts kp
              (Legacy.CallOn :: Legacy.CallClose :: Legacy.CallOn
               :: [Legacy.Resume None; Legacy.Resume None; Legacy.Resume None]))).
Proof.
  destruct (legacy_life_accounted ts) as [A1 A2 A3 A4 A5 A6].
  split_and!; try done.
  - by rewrite A2, A1.
  - unfold Legacy.life, Legacy.run. simpl.
    destruct (Legacy.o_dht opts); simpl;
      (apply elem_of_app; right; by apply list_elem_of_singleton).
Qed.

End LegacyLife.



(** * The further properties at the sample identities *)

Section MoreRuns.

#[local] Existing Instance Sample.hashes.

Lemma sample_local_steady : steady Sample.local_world.
Proof.
  split; [apply sample_local_settled|reflexivity| |intros H; discriminate H].
  intros K d H. change (_drives (this Sample.local_world)) with (∅ : gmap Key nat) in H.
  by rewrite lookup_empty in H.
Qed.

Lemma sample_ready_settled : settled_world Sample.ready_world.
Proof.
  destruct (exec_ready_settled Sample.local_world sample_local_settled)
    as (w1 & r & Heq & Hw1 & _).
  unfold Sample.ready_world. by rewrite Heq.
Qed.

Lemma ready_first_undefined_then_true_witness :
  ∃ w1 s d,
    exec ready Sample.local_world = (w1, Ok None) ∧
    swarm (this w1) = Some s ∧ publicDrive (this w1) = Some d ∧
    _drives (this w1) !! key (this Sample.local_world) = Some d ∧
    sw_handlers <$> swarms w1 !! s = Some 1 ∧
    count_events is_DhtCreate (trace w1)
      = S (count_events is_DhtCreate (trace Sample.local_world)) ∧
    count_events is_SwarmNew (trace w1)
      = S (count_events is_SwarmNew (trace Sample.local_world)) ∧
    count_events is_DriveNew (trace w1)
      = S (count_events is_DriveNew (trace Sample.local_world)) ∧
    exec ready w1 = (w1, Ok (Some true)).
Proof.
  apply (ready_first_undefined_then_true Sample.local_world sample_local_settled).
  reflexivity.
Defined.

Lemma listen_starts_session_and_listens_witness :
  ∃ s, swarm (this (exec ready Sample.local_world).1) = Some s ∧
       exec listen Sample.local_world
         = (log [EvSwarmListen s] (exec ready Sample.local_world).1, Ok tt) ∧
       exec listen (exec listen Sample.local_world).1
         = (log [EvSwarmListen s; EvSwarmListen s] (exec ready Sample.local_world).1, Ok tt).
Proof.
  apply (listen_starts_session_and_listens Sample.local_world sample_local_settled).
  reflexivity.
Defined.

Lemma remote_identity_registers_no_protocol_witness :
  remote (this (create Sample.remote_chat_opts []).1) = true ∧
  _protocols (this (create Sample.remote_chat_opts []).1) = None ∧
  count_events is_ProtocolNew (trace (create Sample.remote_chat_opts []).1)
    = count_events is_ProtocolNew (trace (genesis [])) ∧
  listen (create Sample.remote_chat_opts []).1
    = ((create Sample.remote_chat_opts []).1, Throw RemoteListen) ∧
  protocol Sample.chat (create Sample.remote_chat_opts []).1
    = ((create Sample.remote_chat_opts []).1, Err RemoteProtocol).
Proof.
  apply (remote_identity_registers_no_protocol Sample.remote_chat_opts (genesis [])
           (create Sample.remote_chat_opts []).1 Sample.chat); reflexivity.
Defined.

Lemma protocol_one_instance_per_name_witness :
  ∃ p, (protocol Sample.chat Sample.local_world).2 = Ok p ∧
       protocol Sample.chat (protocol Sample.chat Sample.local_world).1
         = ((protocol Sample.chat Sample.local_world).1, Ok p) ∧
       count_events is_ProtocolNew (trace (protocol Sample.chat Sample.local_world).1)
         = count_events is_ProtocolNew (trace Sample.local_world) + 1 ∧
       ∀ R, protocol_name R ≠ protocol_name Sample.chat →
            _protocols (this (protocol Sample.chat Sample.local_world).1)
              ≫= Map_get (protocol_name R) = Map_get (protocol_name R) [].
Proof.
  apply (protocol_one_instance_per_name Sample.local_world Sample.chat Sample.chat []);
    reflexivity.
Defined.

Lemma constructor_registers_each_protocol_once_witness :
  ∃ reg, _protocols (this (create Sample.local_chat_opts []).1) = Some reg ∧ NoDup reg.*1 ∧
         (∀ name, name ∈ reg.*1 ↔
                  name ∈ protocol_name <$> [Sample.chat; Sample.mail; Sample.chat]) ∧
         count_events is_ProtocolNew (trace (create Sample.local_chat_opts []).1)
           = count_events is_ProtocolNew (trace (genesis [])) + length reg.
Proof.
  apply (constructor_registers_each_protocol_once Sample.local_chat_opts Sample.kpA
           (genesis []) (create Sample.local_chat_opts []).1); vm_compute; reflexivity.
Defined.

Lemma constructor_assigns_store_and_url_witness :
  store (this Sample.local_world) = key (this Sample.local_world) ∧
  url (this Sample.local_world) = SlashURL_of_key (key (this Sample.local_world)) ∧
  count_events is_CorestoreNew (trace Sample.local_world)
    = count_events is_CorestoreNew (trace (genesis [Sample.keyB])) + 1.
Proof.
  destruct (constructor_assigns_store_and_url Sample.local_opts (genesis [Sample.keyB])
              Sample.local_world eq_refl) as (H1 & _ & H3 & _ & _ & H6 & _).
  split; [exact H1|]. split; [apply H3; reflexivity|exact H6].
Defined.

Lemma constructor_leaves_steady_witness :
  steady Sample.local_world ∧ jobs Sample.local_world = [] ∧
  remote (this Sample.local_world) = false ∧
  is_some (_protocols (this Sample.local_world)) = true ∧
  _drives (this Sample.local_world) = ∅ ∧
  _ready (this Sample.local_world) = false ∧ swarm (this Sample.local_world) = None ∧
  publicDrive (this Sample.local_world) = None.
Proof.
  apply (constructor_leaves_steady Sample.local_opts (genesis [Sample.keyB])
           Sample.local_world); reflexivity.
Defined.

Lemma every_method_keeps_the_invariant_witness :
  keeps Sample.local_world (exec ready Sample.local_world).1 ∧
  keeps Sample.local_world (exec listen Sample.local_world).1 ∧
  keeps Sample.local_world (exec (connect (TKey Sample.keyB)) Sample.local_world).1 ∧
  keeps Sample.local_world (protocol Sample.chat Sample.local_world).1 ∧
  keeps Sample.local_world (exec (setProfile alice) Sample.local_world).1 ∧
  keeps Sample.local_world (exec getProfile Sample.local_world).1 ∧
  keeps Sample.local_world (exec (drive Sample.drive_opts) Sample.local_world).1 ∧
  keeps Sample.local_world (exec close Sample.local_world).1.
Proof.
  apply (every_method_keeps_the_invariant Sample.local_world (TKey Sample.keyB)
           Sample.chat alice Sample.drive_opts sample_local_steady).
Defined.

Lemma drive_on_own_key_is_public_drive_witness :
  ∃ w1 d,
    exec (drive (mkDriveOpts None false (Some Sample.keyA) None None)) Sample.local_world
      = (w1, Ok d) ∧
    _drives (this w1) !! Sample.keyA = Some d ∧
    (Sample.keyA = key (this Sample.local_world) → publicDrive (this w1) = Some d).
Proof.
  apply (drive_on_own_key_is_public_drive Sample.local_world
           (mkDriveOpts None false (Some Sample.keyA) None None) sample_local_steady).
Defined.

Lemma session_started_after_close_is_never_destroyed_witness :
  ∃ w1 w2 s,
    exec close Sample.local_world = (w1, Ok tt) ∧ exec ready w1 = (w2, Ok None) ∧
    closed (this w2) = true ∧ swarm (this w2) = Some s ∧
    count_events is_DhtCreate (trace w2)
      = S (count_events is_DhtCreate (trace Sample.local_world)) ∧
    exec close w2 = (w2, Ok tt) ∧
    count_events is_SwarmDestroy (trace w2)
      = count_events is_SwarmDestroy (trace Sample.local_world) ∧
    count_events is_StoreClose (trace w2)
      = count_events is_StoreClose (trace Sample.local_world).
Proof.
  apply (session_started_after_close_is_never_destroyed Sample.local_world
           sample_local_settled); reflexivity.
Defined.

Lemma drives_on_distinct_keys_are_distinct_witness :
  ∃ w1 w2 d1 d2,
    exec (drive Sample.drive_opts) Sample.local_world = (w1, Ok d1) ∧
    exec (drive Sample.drive_opts_B) w1 = (w2, Ok d2) ∧ d1 ≠ d2 ∧
    _drives (this w2) !! Sample.keyC = Some d1 ∧
    _drives (this w2) !! Sample.keyB = Some d2.
Proof.
  apply (drives_on_distinct_keys_are_distinct Sample.local_world Sample.drive_opts
           Sample.drive_opts_B sample_local_steady).
  intros H. discriminate H.
Defined.

Lemma setProfile_replaces_the_profile_only_witness :
  ∃ w1, exec (setProfile Sample.bob) Sample.local_world = (w1, Ok tt) ∧
        stored_profile w1 = Some (b4a_from (JSON_stringify Sample.bob)) ∧
        (∀ K path, (K, path) ≠ (key (this Sample.local_world), DRIVE_KEYS_profile) →
           files w1 !! K ≫= (fun fs => fs !! path)
             = files Sample.local_world !! K ≫= (fun fs => fs !! path)) ∧
        ∃ d, publicDrive (this w1) = Some d ∧
             trace w1 = trace (exec ready Sample.local_world).1
                        ++ [EvDrivePut d DRIVE_KEYS_profile].
Proof.
  apply (setProfile_replaces_the_profile_only Sample.local_world Sample.bob
           sample_local_settled); reflexivity.
Defined.

Lemma sample_with_profile_settled (bytes : list byte) :
  settled_world (Sample.with_profile bytes).
Proof. split; [reflexivity|reflexivity|intros _; reflexivity|intros H; discriminate H]. Defined.

Lemma getProfile_parses_what_is_stored_witness :
  (exec getProfile Sample.local_world).2 = Ok None ∧
  (exec getProfile (Sample.with_profile (b4a_from "null"))).2 = Ok (Some JNull) ∧
  (exec getProfile (Sample.with_profile [])).2 = Err SyntaxError ∧
  (exec getProfile (Sample.with_profile (b4a_from "01"))).2 = Err SyntaxError ∧
  (exec getProfile (Sample.with_profile (b4a_from (JSON_stringify Sample.bob)))).2
    = Ok (Some Sample.bob) ∧
  files (exec getProfile (Sample.with_profile [])).1 = files (Sample.with_profile []).
Proof.
  split_and!.
  - exact (proj1 (getProfile_parses_what_is_stored Sample.local_world sample_local_settled)).
  - exact (proj1 (getProfile_parses_what_is_stored _
                    (sample_with_profile_settled (b4a_from "null")))).
  - apply (proj1 (proj2 (getProfile_parses_what_is_stored _
                           (sample_with_profile_settled [])))).
    reflexivity.
  - exact (proj1 (getProfile_parses_what_is_stored _
                    (sample_with_profile_settled (b4a_from "01")))).
  - exact (proj1 (getProfile_parses_what_is_stored _
                    (sample_with_profile_settled (b4a_from (JSON_stringify Sample.bob))))).
  - exact (proj2 (proj2 (proj2 (getProfile_parses_what_is_stored _
                                  (sample_with_profile_settled []))))).
Defined.

Lemma legacy_connect_reuses_incoming_socket_witness :
  remotePublicKey (Legacy.incoming Sample.keyB Sample.legacy_world).2 = Sample.keyB ∧
  Legacy.sockets (Legacy.this Sample.legacy_accepted) !! Sample.keyB
    = Some (Legacy.incoming Sample.keyB Sample.legacy_world).2 ∧
  Legacy.connect Sample.legacy_parse Sample.legacy_parse (Legacy.TKey Sample.keyB)
    Sample.legacy_accepted
    = (Sample.legacy_accepted, Ok (Legacy.incoming Sample.keyB Sample.legacy_world).2).
Proof.
  apply (legacy_connect_reuses_incoming_socket Sample.legacy_parse Sample.legacy_parse
           Sample.keyB (Legacy.TKey Sample.keyB) Sample.legacy_world).
  reflexivity.
Defined.

Lemma legacy_socket_close_evicts_by_key_witness :
  Legacy.sockets
    (Legacy.this (Legacy._handleConnection Sample.socket2
                    (Legacy._handleConnection Sample.socket1 Sample.legacy_world).1).1)
    !! Sample.keyB = Some Sample.socket2 ∧
  Legacy.sockets
    (Legacy.this (Legacy.socket_closed Sample.socket1
                    (Legacy._handleConnection Sample.socket2
                       (Legacy._handleConnection Sample.socket1 Sample.legacy_world).1).1))
    !! Sample.keyB = None.
Proof.
  destruct (legacy_socket_close_evicts_by_key Sample.legacy_parse Sample.legacy_parse
              Sample.socket1 Sample.socket2 Sample.legacy_world _ eq_refl eq_refl)
    as (H1 & H2 & _).
  split; [exact H1|exact H2].
Defined.

Lemma concurrent_drives_share_one_handle_witness :
  ∃ w' ts,
    interleave Sample.five_rounds
      (start_all (replicate 2 (drive Sample.drive_opts)) Sample.ready_world).2
      (start_all (replicate 2 (drive Sample.drive_opts)) Sample.ready_world).1 = (w', ts) ∧
    length ts = 2 ∧
    announcements Sample.keyC (trace w')
      = announcements Sample.keyC (trace Sample.ready_world)
        + match _drives (this w') !! Sample.keyC with Some _ => 1 | None => 0 end ∧
    (∀ i e, ts !! i ≠ Some (Throw e)) ∧
    (∀ i d, ts !! i = Some (Ret d) → _drives (this w') !! Sample.keyC = Some d) ∧
    ((∀ i, i < 2 → 5 ≤ count_occ Nat.eq_dec Sample.five_rounds i) →
     ∀ i, i < 2 → ∃ d, ts !! i = Some (Ret d)).
Proof.
  apply (concurrent_drives_share_one_handle Sample.ready_world Sample.drive_opts 2
           Sample.five_rounds sample_ready_settled); vm_compute; reflexivity.
Defined.

Lemma drive_calls_in_order_witness :
  ∃ w1 d, exec (drive Sample.drive_opts) Sample.ready_world = (w1, Ok d) ∧ jobs w1 = [] ∧
          ∃ s, swarm (this Sample.ready_world) = Some s ∧ d = next_id Sample.ready_world ∧
               trace w1 = trace Sample.ready_world ++
                 [EvDriveNew d Sample.keyC; EvDriveReady d;
                  EvJoin s (discovery_key Sample.keyC); EvFindingPeers d Sample.keyC;
                  EvDriveUpdate d; EvFlush s; EvPeersDone d].
Proof.
  apply (drive_calls_in_order Sample.ready_world Sample.drive_opts sample_ready_settled).
  vm_compute. reflexivity.
Defined.

Lemma concurrent_connects_both_request_the_peer_witness :
  ∃ w' t0 t1,
    interleave [0; 1]
      (start_all [connect (TKey Sample.keyB); connect (TKey Sample.keyB)]
         Sample.ready_world).2
      (start_all [connect (TKey Sample.keyB); connect (TKey Sample.keyB)]
         Sample.ready_world).1 = (w', [t0; t1]) ∧
    settled t0 = false ∧ settled t1 = false ∧
    trace w' = trace Sample.ready_world ++ [EvJoinPeer 1 Sample.keyB; EvJoinPeer 1 Sample.keyB].
Proof.
  apply (concurrent_connects_both_request_the_peer Sample.ready_world Sample.keyB 1
           sample_ready_settled); try (vm_compute; reflexivity).
  intros H. discriminate H.
Defined.

Lemma concurrent_close_tears_down_once_witness :
  ∃ w' t,
    interleave [1; 0; 2; 0]
      (start_all (replicate 3 close) Sample.ready_world).2
      (start_all (replicate 3 close) Sample.ready_world).1
      = (w', t :: replicate 2 (Ret tt)) ∧
    trace w' = trace Sample.ready_world ++ [EvEmitClose true; EvSwarmDestroy 1]
               ++ [EvStoreClose] ∧
    settled t = false.
Proof.
  apply (concurrent_close_tears_down_once Sample.ready_world 1 2 [1; 0; 2; 0]
           sample_ready_settled); vm_compute; reflexivity.
Defined.

End MoreRuns.
